(** * The Grid utility of aoc_utils/grid.py, embedded and verified

    The development follows the Python class [Grid] method by method.
    Python integers are unbounded, so coordinates, widths and heights are
    [Z]; a point is the pair [(x, y)]; the flat row-major [data] is a list;
    the sets and dicts of the breadth-first searches are [gset] and [gmap];
    raised exceptions are explicit in the [result] type. *)

From stdpp Require Import gmap list strings sorting relations.
From Stdlib Require Import ZArith Lia Ascii.

Open Scope Z_scope.

(** ** Python values and exceptions *)

Inductive exn :=
  | AssertionError
  | ZeroDivisionError
  | IndexError
  | ValueError
  | KeyError
  | NoPathFound.

Inductive result (A : Type) :=
  | Ok (a : A)
  | Raise (e : exn).
Arguments Ok {A} a.
Arguments Raise {A} e.

Definition result_bind {A B} (m : result A) (k : A -> result B) : result B :=
  match m with
  | Ok a => k a
  | Raise e => Raise e
  end.

Notation "'do' x <- m ; k" := (result_bind m (fun x => k))
  (at level 10, x pattern, m at level 100, k at level 200).

Definition is_Ok {A} (r : result A) : Prop :=
  match r with Ok _ => True | Raise _ => False end.

(** [a // b] and [a % b]: Python floors, as [Z.div] and [Z.modulo] do, and
    raises on a zero divisor. *)
Definition py_floordiv (a b : Z) : result Z :=
  if b =? 0 then Raise ZeroDivisionError else Ok (a / b).

Definition py_mod (a b : Z) : result Z :=
  if b =? 0 then Raise ZeroDivisionError else Ok (a mod b).

(** List subscripts: a negative index counts from the end, anything outside
    [-len, len) raises IndexError. *)
Definition py_index (len i : Z) : result nat :=
  if (0 <=? i) && (i <? len) then Ok (Z.to_nat i)
  else if (- len <=? i) && (i <? 0) then Ok (Z.to_nat (len + i))
  else Raise IndexError.

Definition py_getitem {A} (l : list A) (i : Z) : result A :=
  do n <- py_index (Z.of_nat (length l)) i;
  match l !! n with
  | Some a => Ok a
  | None => Raise IndexError
  end.

Definition py_setitem {A} (l : list A) (i : Z) (v : A) : result (list A) :=
  do n <- py_index (Z.of_nat (length l)) i;
  Ok (<[n := v]> l).

(** [range(n)] *)
Definition range (n : Z) : list Z := seqZ 0 n.

Fixpoint traverse {A B} (f : A -> result B) (l : list A) : result (list B) :=
  match l with
  | [] => Ok []
  | a :: l' => do b <- f a; do bs <- traverse f l'; Ok (b :: bs)
  end.

(** ** Points and directions *)

Abbreviation Point := (Z * Z)%type.

(** Modelled from the spec: aoc_utils/point.py is not among the sources.
    The spec gives eight directions, four orthogonal and four diagonal, each
    a coordinate delta; grid.py names them through the accessors [up],
    [down], [left], [right], [upper_left], [upper_right], [bottom_left] and
    [bottom_right]; rows grow downwards (the top-left corner has the
    neighbours right and down). *)
Inductive Direction :=
  | UP | DOWN | LEFT | RIGHT
  | UPPER_LEFT | UPPER_RIGHT | BOTTOM_LEFT | BOTTOM_RIGHT.

Global Instance Direction_eq_dec : EqDecision Direction.
Proof. solve_decision. Defined.

(** Modelled from the spec: the coordinate delta of each direction. *)
Definition delta (d : Direction) : Point :=
  match d with
  | UP => (0, -1)
  | DOWN => (0, 1)
  | LEFT => (-1, 0)
  | RIGHT => (1, 0)
  | UPPER_LEFT => (-1, -1)
  | UPPER_RIGHT => (1, -1)
  | BOTTOM_LEFT => (-1, 1)
  | BOTTOM_RIGHT => (1, 1)
  end.

(** Modelled from the spec: the absent [Point.neighbor] derives the adjacent
    point in a direction by adding the direction's delta. *)
Definition neighbor (p : Point) (d : Direction) : Point :=
  (p.1 + (delta d).1, p.2 + (delta d).2).

Definition cardinal_directions : list Direction := [UP; DOWN; LEFT; RIGHT].

Definition all_directions : list Direction :=
  [UP; DOWN; LEFT; RIGHT; UPPER_LEFT; UPPER_RIGHT; BOTTOM_LEFT; BOTTOM_RIGHT].

(** Modelled from the spec: the absent [Point.neighbors_with_direction]
    enumerates the directions in a fixed canonical order, the cardinal ones
    only when diagonals are disabled.  The order is not given, so it is a
    parameter, constrained only to enumerate the cardinal directions, or
    all eight when diagonals are included. *)
Definition canonical_order (order : bool -> list Direction) : Prop :=
  order false ≡ₚ cardinal_directions /\ order true ≡ₚ all_directions.

(** Modelled from the spec: the absent [Point.neighbors_with_direction]
    yields each neighbour with its direction, in the canonical order. *)
Definition neighbors_with_direction (order : bool -> list Direction)
    (p : Point) (include_diagonal : bool) : list (Point * Direction) :=
  (fun d => (neighbor p d, d)) <$> order include_diagonal.

(** ** Walks and the invariant of the breadth-first search *)

(** [walk step s l p]: the list [l] runs from [s] to [p], each point a
    [step] from the one before it. *)
Inductive walk {A} (step : A -> A -> Prop) (s : A) : list A -> A -> Prop :=
  | walk_start : walk step s [s] s
  | walk_snoc l p q :
      walk step s l p -> step p q -> walk step s (l ++ [q]) q.

(** An edge of the predecessor tree: [c] was the current point when [p]
    was discovered. *)
Definition tree_step (step : Point -> Point -> Prop)
    (predecessors : gmap Point (option Point)) (c p : Point) : Prop :=
  predecessors !! p = Some (Some c) /\ step c p.

(** The state of the search between two operations on the queue.  [cur] is
    the point popped and not yet done with, [visited] its neighbours
    handled so far, [dep] the depth of each seen point in the predecessor
    tree, [d] the depth of the current level. *)
Record search_inv (step : Point -> Point -> Prop) (s t : Point)
    (cur : option Point) (visited : list Point)
    (queue : list Point) (seen : gset Point)
    (predecessors : gmap Point (option Point))
    (dep : Point -> nat) (d : nat) : Prop := {
  inv_dom : forall p, p ∈ seen <-> is_Some (predecessors !! p);
  inv_root : predecessors !! s = Some None;
  inv_dep_root : dep s = 0%nat;
  inv_queue : forall q, q ∈ queue -> q ∈ seen;
  inv_chain : forall p, p ∈ seen ->
    exists l, walk (tree_step step predecessors) s l p /\
              length l = S (dep p);
  inv_closed : forall p q, p ∈ seen -> p ∉ queue -> cur <> Some p ->
    step p q -> q ∈ seen /\ (dep q <= S (dep p))%nat;
  inv_sorted : StronglySorted (fun a b => (dep a <= dep b)%nat) queue;
  inv_level : forall a, a ∈ queue -> (d <= dep a <= S d)%nat;
  inv_done : forall p, p ∈ seen -> p ∉ queue -> (dep p <= d)%nat;
  inv_target : t ∈ seen -> t ∈ queue \/ cur = Some t;
  inv_cur : forall c, cur = Some c ->
    c ∈ seen /\ dep c = d /\
    forall n, n ∈ visited -> n ∈ seen /\ (dep n <= S d)%nat
}.

(** The points of the square of radius [r] around [p]. *)
Definition box (p : Point) (r : Z) : list Point :=
  x ← seqZ (p.1 - r) (2 * r + 1);
  (fun y => (x, y)) <$> seqZ (p.2 - r) (2 * r + 1).

(** A check over every duplicate-free list of [n] directions drawn from
    [universe] that extends [prefix]. *)
Fixpoint forall_orders (universe : list Direction) (n : nat)
    (prefix : list Direction) (P : list Direction -> bool) : bool :=
  match n with
  | O => P prefix
  | S n =>
      forallb (fun d =>
        if bool_decide (d ∈ prefix) then true
        else forall_orders universe n (prefix ++ [d]) P) universe
  end.

(** ** The grid *)

Section Grid.

Context {T : Type} `{EqDecision T}.

(** A cell holds a value of [T] or Python's [None]. *)
Definition cell : Type := option T.

Record Grid := mkGrid {
  w : Z;
  h : Z;
  data : list cell;
  allow_overflow : bool
}.

(** The exclude/include arguments: a literal value or a callable. *)
Inductive filter :=
  | Literal (v : T)
  | Callable (f : Point -> cell -> bool).

(** The dimensions [__init__] settles on.  [h or len_data // w] takes the
    quotient when [h] is None or 0; [elif h] is false for None and 0.
    [int(sqrt(len_data))] is the integer square root (the double-precision
    root is exact below 2^52, beyond any list length). *)
Definition truthy (h : option Z) : option Z :=
  match h with
  | Some 0 => None
  | _ => h
  end.

Definition Grid_dims (len_data : Z) (w h : option Z) : result (Z * Z) :=
  match w with
  | Some w =>
      do h' <- match truthy h with
               | Some h => Ok h
               | None => py_floordiv len_data w
               end;
      Ok (w, h')
  | None =>
      match truthy h with
      | Some h => do w' <- py_floordiv len_data h; Ok (w', h)
      | None => let rl := Z.sqrt len_data in Ok (rl, rl)
      end
  end.

Definition Grid_init (data : list cell) (w h : option Z)
    (allow_overflow : bool) : result Grid :=
  let len_data := Z.of_nat (length data) in
  do wh <- Grid_dims len_data w h;
  if wh.1 * wh.2 =? len_data
  then Ok (mkGrid wh.1 wh.2 data allow_overflow)
  else Raise AssertionError.

Definition _allow_overflow (self : Grid) (overflow : option bool) : bool :=
  match overflow with
  | None => self.(allow_overflow)
  | Some b => b
  end.

Definition inbounds (self : Grid) (p : Point) : bool :=
  let '(x, y) := p in
  (0 <=? x) && (x <? self.(w)) && ((0 <=? y) && (y <? self.(h))).

Definition at_ (self : Grid) (p : Point) (overflow : option bool)
    : result cell :=
  let '(x, y) := p in
  do xy <- (if _allow_overflow self overflow
            then do x' <- py_mod x self.(w);
                 do y' <- py_mod y self.(h);
                 Ok (x', y')
            else Ok (x, y));
  py_getitem self.(data) (xy.2 * self.(w) + xy.1).

Definition get (self : Grid) (p : Point) (default : cell)
    (overflow : option bool) : result cell :=
  if inbounds self p then at_ self p overflow
  else if _allow_overflow self overflow then at_ self p (Some true)
  else Ok default.

(** [f"[{color}]{value}[/{color}]"] applies to string values only; what it
    does to a value of [T] is the parameter [markup]. *)
Definition replace (markup : string -> T -> T) (self : Grid) (p : Point)
    (value : cell) (color : option string) (overflow : option bool)
    : result Grid :=
  let '(x, y) := p in
  let store (x y : Z) :=
    let value :=
      match color, value with
      | Some c, Some v => if String.eqb c "" then value else Some (markup c v)
      | _, _ => value
      end in
    do data' <- py_setitem self.(data) (y * self.(w) + x) value;
    Ok (mkGrid self.(w) self.(h) data' self.(allow_overflow)) in
  if _allow_overflow self overflow
  then do x' <- py_mod x self.(w);
       do y' <- py_mod y self.(h);
       store x' y'
  else do g <- get self p None None;
       match g with
       | None => Ok self
       | Some _ => store x y
       end.

Definition _should_include (point : Point) (c : cell)
    (exclude include : option filter) : bool :=
  let excluded :=
    match exclude with
    | None => false
    | Some (Callable f) => f point c
    | Some (Literal v) => bool_decide (c = Some v)
    end in
  let included :=
    match include with
    | None => true
    | Some (Callable f) => f point c
    | Some (Literal v) => bool_decide (c = Some v)
    end in
  negb excluded && included.

(** *** Neighbours *)

Variable order : bool -> list Direction.

(** [neighbors] is declared with [allow_overflow: bool | None = False]. *)
Definition neighbors_overflow_default : option bool := Some false.

Fixpoint neighbors_among (self : Grid) (candidates : list (Point * Direction))
    (exclude include : option filter) (overflow : option bool)
    : result (list (Point * cell * Direction)) :=
  match candidates with
  | [] => Ok []
  | (neighbor, direction) :: candidates =>
      do v <- get self neighbor None overflow;
      do rest <- neighbors_among self candidates exclude include overflow;
      match v with
      | Some _ =>
          if _should_include neighbor v exclude include
          then Ok ((neighbor, v, direction) :: rest)
          else Ok rest
      | None => Ok rest
      end
  end.

Definition neighbors (self : Grid) (p : Point)
    (exclude include : option filter) (overflow : option bool)
    (include_diagonal : bool) : result (list (Point * cell * Direction)) :=
  neighbors_among self (neighbors_with_direction order p include_diagonal)
    exclude include overflow.

(** *** find *)

Definition find (self : Grid) (value : cell) : result Point :=
  match list_find (fun c => c = value) self.(data) with
  | None => Raise ValueError
  | Some (i, _) =>
      do x <- py_mod (Z.of_nat i) self.(w);
      do y <- py_floordiv (Z.of_nat i) self.(w);
      Ok (x, y)
  end.

(** *** Breadth-first searches

    The [while queue] loops run on fuel: [None] is a loop that has not
    finished when the fuel is spent. *)

Definition discover (current : Point)
    (st : list Point * gset Point * gmap Point (option Point))
    (neighbor_p : Point) : list Point * gset Point * gmap Point (option Point) :=
  let '(queue, seen, predecessors) := st in
  if decide (neighbor_p ∈ seen) then st
  else (queue ++ [neighbor_p], {[neighbor_p]} ∪ seen,
        <[neighbor_p := Some current]> predecessors).

Fixpoint search (fuel : nat) (self : Grid) (target : Point)
    (exclude include : option filter) (include_diagonal : bool)
    (overflow : option bool)
    (queue : list Point) (seen : gset Point)
    (predecessors : gmap Point (option Point))
    : option (result (gmap Point (option Point))) :=
  match fuel with
  | O => None
  | S fuel =>
      match queue with
      | [] => Some (Ok predecessors)
      | current :: queue =>
          if decide (current = target) then Some (Ok predecessors)
          else
            match neighbors self current exclude include overflow
                    include_diagonal with
            | Raise e => Some (Raise e)
            | Ok ns =>
                let '(queue, seen, predecessors) :=
                  foldl (discover current) (queue, seen, predecessors)
                    ((fun n => n.1.1) <$> ns) in
                search fuel self target exclude include include_diagonal
                  overflow queue seen predecessors
            end
      end
  end.

Fixpoint backtrack (fuel : nat) (predecessors : gmap Point (option Point))
    (step : option Point) (path : list Point) : option (result (list Point)) :=
  match step with
  | None => Some (Ok path)
  | Some s =>
      match fuel with
      | O => None
      | S fuel =>
          match predecessors !! s with
          | None => Some (Raise KeyError)
          | Some step => backtrack fuel predecessors step (path ++ [s])
          end
      end
  end.

Definition resolve (self : Grid) (p : Point + cell) : result Point :=
  match p with
  | inl p => Ok p
  | inr v => find self v
  end.

Definition shortest_path (fuel : nat) (self : Grid) (source target : Point + cell)
    (exclude include : option filter) (include_diagonal : bool)
    (overflow : option bool) : option (result (list Point)) :=
  match resolve self source with
  | Raise e => Some (Raise e)
  | Ok source =>
      match resolve self target with
      | Raise e => Some (Raise e)
      | Ok target =>
          match search fuel self target exclude include include_diagonal
                  overflow [source] {[source]} {[source := None]} with
          | None => None
          | Some (Raise e) => Some (Raise e)
          | Some (Ok predecessors) =>
              match predecessors !! target with
              | None => Some (Raise NoPathFound)
              | Some _ =>
                  match backtrack fuel predecessors (Some target) [] with
                  | None => None
                  | Some (Raise e) => Some (Raise e)
                  | Some (Ok path) => Some (Ok (reverse path))
                  end
              end
          end
      end
  end.

(** The neighbour relation the searches run on, and reachability in it. *)
Definition step_to (self : Grid) (exclude include : option filter)
    (include_diagonal : bool) (overflow : option bool) (p q : Point) : Prop :=
  exists ns,
    neighbors self p exclude include overflow include_diagonal = Ok ns /\
    q ∈ (fun n => n.1.1) <$> ns.

Definition connected (self : Grid) (exclude include : option filter)
    (include_diagonal : bool) (overflow : option bool)
    (source target : Point) : Prop :=
  rtc (step_to self exclude include include_diagonal overflow) source target.

(** The points inside the grid. *)
Definition grid_points (self : Grid) : list Point :=
  y ← range self.(h); (fun x => (x, y)) <$> range self.(w).

(** How a generator ends: exhausted, by an exception, or still running. *)
Inductive ending :=
  | Exhausted
  | Failed (e : exn)
  | Running.

Definition discover_step (steps : Z)
    (st : list (Point * Z) * gset Point) (neighbor_p : Point)
    : list (Point * Z) * gset Point :=
  let '(queue, seen) := st in
  if decide (neighbor_p ∈ seen) then st
  else (queue ++ [(neighbor_p, steps + 1)], {[neighbor_p]} ∪ seen).

Fixpoint reachable_loop (fuel : nat) (self : Grid)
    (exclude include : option filter) (min_steps : Z) (max_steps : option Z)
    (include_diagonal : bool) (overflow : option bool)
    (queue : list (Point * Z)) (seen : gset Point)
    : list (Point * Z) * ending :=
  match fuel with
  | O => ([], Running)
  | S fuel =>
      match queue with
      | [] => ([], Exhausted)
      | (current_point, steps) :: queue =>
          if match max_steps with
             | Some m => m <? steps
             | None => false
             end
          then reachable_loop fuel self exclude include min_steps max_steps
                 include_diagonal overflow queue seen
          else
            let yielded :=
              if min_steps <=? steps then [(current_point, steps)] else [] in
            match neighbors self current_point exclude include overflow
                    include_diagonal with
            | Raise e => (yielded, Failed e)
            | Ok ns =>
                let '(queue, seen) :=
                  foldl (discover_step steps) (queue, seen)
                    ((fun n => n.1.1) <$> ns) in
                let '(later, e) :=
                  reachable_loop fuel self exclude include min_steps
                    max_steps include_diagonal overflow queue seen in
                (yielded ++ later, e)
            end
      end
  end.

Definition reachable (fuel : nat) (self : Grid) (p : Point)
    (exclude include : option filter) (min_steps : Z) (max_steps : option Z)
    (include_diagonal : bool) (overflow : option bool)
    : list (Point * Z) * ending :=
  reachable_loop fuel self exclude include min_steps max_steps
    include_diagonal overflow [(p, 0)] {[p]}.

(** *** Rows, columns and the structural transforms *)

Definition iter_cols (self : Grid) : result (list (list cell)) :=
  traverse (fun c =>
    traverse (fun r => py_getitem self.(data) (r * self.(w) + c))
      (range self.(h)))
    (range self.(w)).

Definition transpose (self : Grid) : result Grid :=
  do cols <- iter_cols self;
  Grid_init (mjoin cols) (Some self.(h)) (Some self.(w)) false.

Definition rotate (self : Grid) : result Grid :=
  do cols <- iter_cols self;
  Grid_init (mjoin (reverse <$> cols)) (Some self.(h)) (Some self.(w)) false.

(** *** Equality and hash *)

Definition Grid_eq (self other : Grid) : bool :=
  bool_decide (self.(data) = other.(data)).

(** CPython's hash of an integer: the value modulo the Mersenne prime
    2^61 - 1 with the sign kept, and -2 in place of -1. *)
Definition py_hash_int (n : Z) : Z :=
  let r := Z.sgn n * (Z.abs n mod (2 ^ 61 - 1)) in
  if r =? -1 then -2 else r.

(** What [hash(obj)] makes of the integer [__hash__] returns: a value that
    fits a 64-bit signed word is kept (but -1 becomes -2), a larger one is
    hashed as an integer. *)
Definition py_hash_slot (v : Z) : Z :=
  if (- 2 ^ 63 <=? v) && (v <? 2 ^ 63)
  then (if v =? -1 then -2 else v)
  else py_hash_int v.

(** [hash(tuple(self.data))] is the parameter [hash_tuple]. *)
Definition Grid_hash (hash_tuple : list cell -> Z) (self : Grid) : Z :=
  py_hash_slot
    (hash_tuple self.(data) + py_hash_int self.(w) - py_hash_int self.(h)).

(** The cell the flat data holds for the point [(x, y)]. *)
Definition cell_at (self : Grid) (x y : Z) : cell :=
  default None (self.(data) !! Z.to_nat (y * self.(w) + x)).

(** A grid [represents] a cell layout when its dimensions are positive,
    tile the data, and the data holds the layout in row-major order. *)
Definition represents (self : Grid) (f : Z -> Z -> cell) : Prop :=
  0 < self.(w) /\ 0 < self.(h) /\
  Z.of_nat (length self.(data)) = self.(w) * self.(h) /\
  forall x y, 0 <= x < self.(w) -> 0 <= y < self.(h) ->
    self.(data) !! Z.to_nat (y * self.(w) + x) = Some (f x y).

(** *** The invariant of the data model

    Width and height are positive and tile the flat data. *)
Definition grid_inv (self : Grid) : Prop :=
  0 < self.(w) /\ 0 < self.(h) /\
  self.(w) * self.(h) = Z.of_nat (length self.(data)).

(** The grid with its overflow flag set to [b]. *)
Definition with_overflow (b : bool) (self : Grid) : Grid :=
  mkGrid self.(w) self.(h) self.(data) b.

End Grid.

Arguments Grid T : clear implicits.
Arguments cell T : clear implicits.
Arguments filter T : clear implicits.

(** The check that, with the directions enumerated as [l],
    [reachable((1,1), max_steps=1, include_diagonal=False)] runs to
    exhaustion and yields the four orthogonal neighbours at step 1. *)
Definition reachable_check {T : Type} `{EqDecision T} (fuel : nat)
    (G : Grid T) (l : list Direction) : bool :=
  match reachable (fun _ => l) fuel G (1, 1) None None 1 (Some 1)
          false None with
  | (ys, Exhausted) =>
      bool_decide (ys ≡ₚ [((1, 0), 1); ((0, 1), 1); ((2, 1), 1); ((1, 2), 1)])
  | _ => false
  end.

(** ** More of the grid: filling, iteration, swapping, copies, rows *)

(** [l * n] on a list: [n] copies of [l] one after the other, none when
    [n] is not positive. *)
Definition py_repeat {A} (l : list A) (n : Z) : list A :=
  mjoin (replicate (Z.to_nat n) l).

Section GridMore.

Context {T : Type} `{EqDecision T}.

(** [self.data = [value] * self.w * self.h] *)
Definition fill (self : Grid T) (value : cell T) : Grid T :=
  mkGrid self.(w) self.(h)
    (py_repeat (py_repeat [value] self.(w)) self.(h))
    self.(allow_overflow).

(** One round of the loop of [iter]: the point of the flat index [i], and
    the pair yielded if the filters let it through. *)
Definition iter_item (self : Grid T) (exclude include : option (filter T))
    (ic : nat * cell T) : result (list (Point * cell T)) :=
  do x <- py_mod (Z.of_nat ic.1) self.(w);
  do y <- py_floordiv (Z.of_nat ic.1) self.(w);
  Ok (if _should_include (x, y) ic.2 exclude include
      then [((x, y), ic.2)] else []).

(** [iter]: the indices run upwards over [enumerate(self.data)], or
    downwards over [reversed(range(len(self.data)))]. *)
Definition iter (self : Grid T) (reversed : bool)
    (exclude include : option (filter T)) : result (list (Point * cell T)) :=
  let indexed := imap (fun i c => (i, c)) self.(data) in
  do items <- traverse (iter_item self exclude include)
                (if reversed then reverse indexed else indexed);
  Ok (mjoin items).

Definition findall (self : Grid T) (value : cell T) : result (list Point) :=
  do items <- iter self false None None;
  Ok ((fun pc => pc.1) <$> base.filter (fun pc => pc.2 = value) items).

(** [swap]: the right-hand side reads the cell of [p2], then that of [p1];
    the targets are then assigned from left to right. *)
Definition swap (self : Grid T) (p1 : Point) (p2 : Point + Direction)
    : result (Grid T * Point) :=
  let p2 := match p2 with inl p => p | inr d => neighbor p1 d end in
  let i1 := p1.2 * self.(w) + p1.1 in
  let i2 := p2.2 * self.(w) + p2.1 in
  do v2 <- py_getitem self.(data) i2;
  do v1 <- py_getitem self.(data) i1;
  do data1 <- py_setitem self.(data) i1 v2;
  do data2 <- py_setitem data1 i2 v1;
  Ok (mkGrid self.(w) self.(h) data2 self.(allow_overflow), p2).

Definition iter_rows (self : Grid T) : result (list (list (cell T))) :=
  traverse (fun r =>
    traverse (fun c => py_getitem self.(data) (r * self.(w) + c))
      (range self.(w)))
    (range self.(h)).

Definition rows (self : Grid T) : result (list (list (cell T))) :=
  iter_rows self.

Definition cols (self : Grid T) : result (list (list (cell T))) :=
  iter_cols self.

(** [copy]: the shallow copy goes through the constructor; [deepcopy]
    duplicates the attributes without calling it. *)
Definition copy (self : Grid T) (deep : bool) : result (Grid T) :=
  if deep then Ok self
  else Grid_init self.(data) (Some self.(w)) (Some self.(h))
         self.(allow_overflow).

(** The loop of [walk_directions]: the point moves one direction at a
    time, and the cell it reaches is read with [get]. *)
Fixpoint walk_directions_from (self : Grid T) (p : Point)
    (directions : list Direction) (default : cell T)
    : result (list (cell T)) :=
  match directions with
  | [] => Ok []
  | direction :: directions =>
      let p := neighbor p direction in
      do v <- get self p default None;
      do vs <- walk_directions_from self p directions default;
      Ok (v :: vs)
  end.

Definition walk_directions (self : Grid T) (p : Point)
    (directions : list Direction) (default : cell T) (include_start : bool)
    : result (list (cell T)) :=
  do start <- (if include_start
               then do v <- get self p default None; Ok [v]
               else Ok []);
  do vs <- walk_directions_from self p directions default;
  Ok (start ++ vs).

(** The point of a flat index and the flat index of a point, row-major. *)
Definition point_of_index (self : Grid T) (i : nat) : Point :=
  (Z.of_nat i mod self.(w), Z.of_nat i / self.(w)).

Definition index_of_point (self : Grid T) (p : Point) : nat :=
  Z.to_nat (p.2 * self.(w) + p.1).

(** The dimensions tile the flat data (the constructor's assertion). *)
Definition tiles (self : Grid T) : Prop :=
  self.(w) * self.(h) = Z.of_nat (length self.(data)).

End GridMore.

(** [transform]: every cell goes through [func], the result through the
    constructor with the same shape and flag. *)
Definition transform {T U : Type} (func : cell T -> cell U) (self : Grid T)
    : result (Grid U) :=
  Grid_init (func <$> self.(data)) (Some self.(w)) (Some self.(h))
    self.(allow_overflow).

(** ** Grids of strings

    A Python string is modelled as the list of its characters, a character
    as an [ascii] code (the code points below 256). *)

Abbreviation pystr := (list ascii).

(** The line boundaries of [str.splitlines] among these characters. *)
Definition linebreak (c : ascii) : bool :=
  bool_decide (N_of_ascii c ∈ [10; 11; 12; 13; 28; 29; 30; 133]%N).

(** [str.splitlines()]: a line ends at a boundary, "\r\n" counts as one
    boundary, and what follows the last boundary is a line only when it is
    not empty. [cur] is the line being read. *)
Fixpoint splitlines_from (cur s : pystr) : list pystr :=
  match s with
  | [] => match cur with [] => [] | _ => [cur] end
  | c :: s' =>
      if linebreak c
      then cur ::
           match s' with
           | c' :: s'' =>
               if bool_decide (c = "013"%char /\ c' = "010"%char)
               then splitlines_from [] s''
               else splitlines_from [] s'
           | [] => splitlines_from [] s'
           end
      else splitlines_from (cur ++ [c]) s'
  end.

Definition splitlines (s : pystr) : list pystr := splitlines_from [] s.

(** [s.split(sep)] for a non-empty [sep]: the pieces between the
    occurrences of [sep], found from left to right without overlap.
    [skip] counts the characters of a found occurrence still to pass. *)
Fixpoint split_from (sep cur s : pystr) (skip : nat) : list pystr :=
  match s with
  | [] => [cur]
  | c :: s' =>
      match skip with
      | S k => split_from sep cur s' k
      | O =>
          if bool_decide (sep `prefix_of` s)
          then cur :: split_from sep [] s' (Nat.pred (length sep))
          else split_from sep (cur ++ [c]) s' O
      end
  end.

Definition py_split (sep s : pystr) : list pystr := split_from sep [] s O.

(** [sep.join(parts)] *)
Fixpoint py_join (sep : pystr) (parts : list pystr) : pystr :=
  match parts with
  | [] => []
  | [a] => a
  | a :: rest => a ++ sep ++ py_join sep rest
  end.

(** The cells of one line in [from_lines]: split on the delimiter when one
    is given and not empty, else one cell per character. *)
Definition line_cells (delimiter : option pystr) (line : pystr) : list pystr :=
  match delimiter with
  | Some (c :: d) => py_split (c :: d) line
  | _ => (fun c => [c]) <$> line
  end.

Definition from_lines (lines : pystr + list pystr)
    (delimiter padding : option pystr) : result (Grid pystr) :=
  let lines := match lines with inl s => splitlines s | inr ls => ls end in
  let rows := line_cells delimiter <$> lines in
  do rows <- match padding with
             | Some (c :: p) =>
                 let padding := c :: p in
                 let rows := (fun row => [padding] ++ row ++ [padding]) <$> rows in
                 do first <- py_getitem rows 0;
                 let rows :=
                   py_repeat [padding] (Z.of_nat (length first)) :: rows in
                 do first <- py_getitem rows 0;
                 Ok (rows ++ [py_repeat [padding] (Z.of_nat (length first))])
             | _ => Ok rows
             end;
  do first <- py_getitem rows 0;
  Grid_init (Some <$> mjoin rows) (Some (Z.of_nat (length first)))
    (Some (Z.of_nat (length rows))) false.

(** [str(cell)] for a cell of a grid of strings. *)
Definition str_of_cell (c : cell pystr) : pystr :=
  match c with
  | Some s => s
  | None => ["N"; "o"; "n"; "e"]%char
  end.

(** [__str__]: the rows, each the concatenation of [str] of its cells,
    joined by newlines. *)
Definition Grid_str {T : Type} (to_str : cell T -> pystr) (self : Grid T)
    : result pystr :=
  do rs <- iter_rows self;
  Ok (py_join ["010"%char] ((fun r => mjoin (to_str <$> r)) <$> rs)).

(** One round of the loop of [colored_str] on a grid of strings. *)
Definition colored_step (self : Grid pystr)
    (points_to_colors : gmap Point pystr)
    (values_to_color : gmap pystr pystr)
    (st : result (list pystr)) (ic : nat * cell pystr) : result (list pystr) :=
  do res <- st;
  do x <- py_mod (Z.of_nat ic.1) self.(w);
  do y <- py_floordiv (Z.of_nat ic.1) self.(w);
  let color :=
    match points_to_colors !! (x, y) with
    | Some c => Some c
    | None => values_to_color !! str_of_cell ic.2
    end in
  do line <- py_getitem res y;
  let backslash := "\"%char in
  let line' :=
    match color with
    | Some (k :: olor) =>
        let color := k :: olor in
        let escaped :=
          match reverse line with
          | [a] => if bool_decide (a = backslash) then line ++ [backslash]
                   else line
          | a :: b :: _ =>
              if bool_decide (a = backslash /\ b <> backslash)
              then line ++ [backslash] else line
          | [] => line
          end in
        let shown :=
          if bool_decide (ic.2 = Some [backslash]) then [backslash; backslash]
          else str_of_cell ic.2 in
        escaped ++ ["["%char] ++ color ++ ["]"%char] ++ shown
          ++ ["["%char; "/"%char] ++ color ++ ["]"%char]
    | _ => line ++ str_of_cell ic.2
    end in
  py_setitem res y line'.

Definition colored_str (self : Grid pystr)
    (points_to_colors : gmap Point pystr)
    (values_to_color : gmap pystr pystr) : result pystr :=
  do res <- foldl (colored_step self points_to_colors values_to_color)
              (Ok (replicate (Z.to_nat self.(h)) []))
              (imap (fun i c => (i, c)) self.(data));
  Ok (py_join ["010"%char] res).

(** ** What a breadth-first sweep yields

    [nearest step s q k]: [q] is [k] steps from [s], and no walk from [s]
    to [q] is shorter. *)
Definition nearest {A} (step : A -> A -> Prop) (s q : A) (k : Z) : Prop :=
  (exists l, walk step s l q /\ Z.of_nat (length l) = k + 1) /\
  (forall l, walk step s l q -> k + 1 <= Z.of_nat (length l)).

(** [max_steps is None or steps <= max_steps] *)
Definition within (max_steps : option Z) (steps : Z) : Prop :=
  match max_steps with
  | Some m => steps <= m
  | None => True
  end.

(** The state of [reachable] between two rounds of its loop: [dep] is the
    step count each seen point was queued with, [d] that of the current
    level. *)
Record reach_inv (step : Point -> Point -> Prop) (s : Point)
    (max_steps : option Z) (queue : list (Point * Z)) (seen : gset Point)
    (dep : Point -> Z) (d : Z) : Prop := {
  rinv_root : s ∈ seen /\ dep s = 0;
  rinv_queue : forall q k, (q, k) ∈ queue -> q ∈ seen /\ dep q = k;
  rinv_nodup : NoDup queue.*1;
  rinv_walk : forall a, a ∈ seen ->
    exists l, walk step s l a /\ Z.of_nat (length l) = dep a + 1;
  rinv_closed : forall a b, a ∈ seen -> a ∉ queue.*1 ->
    within max_steps (dep a) -> step a b -> b ∈ seen /\ dep b <= dep a + 1;
  rinv_sorted : StronglySorted Z.le queue.*2;
  rinv_level : forall q k, (q, k) ∈ queue -> d <= k <= d + 1;
  rinv_done : forall a, a ∈ seen -> a ∉ queue.*1 -> dep a <= d
}.

(** * Properties *)

Section BasicFacts.

Context {T : Type} `{EqDecision T}.
Implicit Types (G : Grid T) (p : Point).

Lemma inbounds_spec G x y :
  inbounds G (x, y) = true <-> 0 <= x < w G /\ 0 <= y < h G.
Proof.
  unfold inbounds.
  rewrite !andb_true_iff, !Z.leb_le, !Z.ltb_lt. lia.
Qed.

Lemma py_index_nonneg len i :
  0 <= i < len -> py_index len i = Ok (Z.to_nat i).
Proof.
  intros Hi. unfold py_index.
  destruct (Z.leb_spec 0 i), (Z.ltb_spec i len); simpl; (reflexivity || lia).
Qed.

Lemma py_getitem_lookup {A} (l : list A) i :
  0 <= i < Z.of_nat (length l) ->
  exists a, l !! Z.to_nat i = Some a /\ py_getitem l i = Ok a.
Proof.
  intros Hi. unfold py_getitem. rewrite py_index_nonneg by exact Hi. simpl.
  destruct (lookup_lt_is_Some_2 l (Z.to_nat i)) as [a Ha]; [lia|].
  exists a. rewrite Ha. auto.
Qed.

Lemma cell_index_bound (w h x y : Z) :
  0 <= x < w -> 0 <= y < h -> 0 <= y * w + x < w * h.
Proof. intros Hx Hy. nia. Qed.

(** In bounds, wrapping the coordinates changes nothing. *)
Lemma at_inbounds G p overflow :
  inbounds G p = true ->
  at_ G p overflow = py_getitem (data G) (p.2 * w G + p.1).
Proof.
  destruct p as [x y]. intros Hin. apply inbounds_spec in Hin.
  unfold at_. destruct (_allow_overflow G overflow); simpl; [|reflexivity].
  unfold py_mod.
  destruct (Z.eqb_spec (w G) 0); [lia|].
  destruct (Z.eqb_spec (h G) 0); [lia|]. simpl.
  rewrite !Z.mod_small by lia. reflexivity.
Qed.

Lemma get_inbounds G p default overflow :
  inbounds G p = true -> get G p default overflow = at_ G p overflow.
Proof. intros Hin. unfold get. rewrite Hin. reflexivity. Qed.


(** C1: for a point inside the grid, [get] with neither default nor
    overflow argument returns exactly what [at] returns, whatever the
    grid's overflow flag; that common result is the cell stored at the
    row-major index [y * w + x], and it exists whenever the dimensions tile
    the data. *)
Theorem get_eq_at_inbounds G p :
  inbounds G p = true ->
  get G p None None = at_ G p None /\
  at_ G p None = py_getitem (data G) (p.2 * w G + p.1) /\
  (w G * h G = Z.of_nat (length (data G)) ->
   exists c, data G !! Z.to_nat (p.2 * w G + p.1) = Some c /\
             get G p None None = Ok c /\ at_ G p None = Ok c).
Proof.
  intros Hin. split; [apply get_inbounds, Hin|].
  split; [apply at_inbounds, Hin|].
  intros Htile. rewrite get_inbounds, at_inbounds by exact Hin.
  destruct p as [x y]. apply inbounds_spec in Hin. simpl.
  destruct (py_getitem_lookup (data G) (y * w G + x)) as (c & Hc & Hg).
  { rewrite <- Htile. apply cell_index_bound; tauto. }
  exists c. auto.
Qed.

End BasicFacts.

Lemma get_eq_at_inbounds_witness :
  let G := mkGrid 2 2 [Some 10; Some 20; Some 30; Some 40] true in
  get G (1, 1) None None = at_ G (1, 1) None /\
  at_ G (1, 1) None = Ok (Some 40).
Proof.
  intros G.
  destruct (get_eq_at_inbounds G (1, 1) eq_refl) as (H1 & H2 & _).
  split; [exact H1|]. rewrite H2. reflexivity.
Defined.

(** ** Construction *)

Section Construction.

Context {T : Type} `{EqDecision T}.
Implicit Types (data : list (cell T)).

Lemma Grid_init_Ok data wd ht ao G :
  Grid_init data wd ht ao = Ok G <->
  exists w' h', Grid_dims (Z.of_nat (length data)) wd ht = Ok (w', h') /\
                w' * h' = Z.of_nat (length data) /\
                G = mkGrid w' h' data ao.
Proof.
  unfold Grid_init.
  destruct (Grid_dims (Z.of_nat (length data)) wd ht) as [[w' h']|e]; simpl.
  - destruct (Z.eqb_spec (w' * h') (Z.of_nat (length data))) as [Heq|Hne].
    + split.
      * intros [= <-]. exists w', h'. auto.
      * intros (w2 & h2 & [= <- <-] & _ & ->). reflexivity.
    + split; [discriminate|].
      intros (w2 & h2 & [= <- <-] & Heq & _). contradiction.
  - split; [discriminate|]. intros (w2 & h2 & Hd & _). discriminate.
Qed.

Lemma Grid_init_AssertionError data wd ht ao :
  Grid_init data wd ht ao = Raise AssertionError <->
  exists w' h', Grid_dims (Z.of_nat (length data)) wd ht = Ok (w', h') /\
                w' * h' <> Z.of_nat (length data).
Proof.
  unfold Grid_init.
  destruct (Grid_dims (Z.of_nat (length data)) wd ht) as [[w' h']|e] eqn:Hd; simpl.
  - destruct (Z.eqb_spec (w' * h') (Z.of_nat (length data))) as [Heq|Hne].
    + split; [discriminate|].
      intros (w2 & h2 & [= <- <-] & Hne). contradiction.
    + split; [|reflexivity]. intros _. exists w', h'. auto.
  - split.
    + intros [= ->]. revert Hd. unfold Grid_dims, py_floordiv.
      destruct wd as [w0|], (truthy ht) as [h0|];
        repeat (simpl; case_match); simpl; discriminate.
    + intros (w2 & h2 & [=] & _).
Qed.

Lemma Grid_init_inv (cells : list (cell T)) wd ht ao G :
  Grid_init cells wd ht ao = Ok G ->
  w G * h G = Z.of_nat (length (data G)) /\ data G = cells /\
  allow_overflow G = ao.
Proof.
  intros (w' & h' & _ & Htile & ->)%Grid_init_Ok. simpl. auto.
Qed.

Lemma width_not_dividing data wd ht ao :
  ~ (wd | Z.of_nat (length data)) ->
  Grid_init data (Some wd) ht ao =
    Raise (match truthy ht with
           | Some _ => AssertionError
           | None => if wd =? 0 then ZeroDivisionError else AssertionError
           end).
Proof.
  intros Hndiv. unfold Grid_init, Grid_dims.
  destruct (truthy ht) as [h0|]; simpl.
  - destruct (Z.eqb_spec (wd * h0) (Z.of_nat (length data))) as [Heq|]; [|reflexivity].
    destruct Hndiv. exists h0. lia.
  - unfold py_floordiv. destruct (Z.eqb_spec wd 0) as [|Hw]; [reflexivity|]. simpl.
    destruct (Z.eqb_spec (wd * (Z.of_nat (length data) / wd))
                (Z.of_nat (length data))) as [Heq|]; [|reflexivity].
    destruct Hndiv. exists (Z.of_nat (length data) / wd). lia.
Qed.

Lemma square_layout data ht ao :
  truthy ht = None ->
  ((exists k, Z.of_nat (length data) = k * k) ->
   Grid_init data None ht ao =
     Ok (mkGrid (Z.sqrt (Z.of_nat (length data)))
           (Z.sqrt (Z.of_nat (length data))) data ao)) /\
  (~ (exists k, Z.of_nat (length data) = k * k) ->
   Grid_init data None ht ao = Raise AssertionError).
Proof.
  intros Hh. unfold Grid_init, Grid_dims. rewrite Hh. simpl.
  set (n := Z.of_nat (length data)).
  destruct (Z.eqb_spec (Z.sqrt n * Z.sqrt n) n) as [Heq|Hne]; split; intros Hk.
  - reflexivity.
  - destruct Hk. exists (Z.sqrt n). lia.
  - destruct Hk as [k Hk]. destruct Hne. rewrite Hk.
    replace (k * k) with (Z.abs k * Z.abs k) by lia.
    rewrite Z.sqrt_square by lia. reflexivity.
  - reflexivity.
Qed.

(** C2: construction from a flat sequence raises the assertion exactly when
    the dimensions it settles on (declared, or inferred by floor division or
    by the integer square root) have a product different from the data
    length, and succeeds exactly when they tile it; a width that does not
    divide the length always fails (by the assertion, or by the division by
    zero when the width is 0 and no height is given); with neither dimension
    construction succeeds exactly when the length is a perfect square. *)
Theorem construction_fails_iff_not_tiling data wd ht ao :
  (Grid_init data wd ht ao = Raise AssertionError <->
   exists w' h', Grid_dims (Z.of_nat (length data)) wd ht = Ok (w', h') /\
                 w' * h' <> Z.of_nat (length data)) /\
  (forall G, Grid_init data wd ht ao = Ok G <->
   exists w' h', Grid_dims (Z.of_nat (length data)) wd ht = Ok (w', h') /\
                 w' * h' = Z.of_nat (length data) /\
                 G = mkGrid w' h' data ao) /\
  (forall w0, wd = Some w0 -> ~ (w0 | Z.of_nat (length data)) ->
   Grid_init data wd ht ao =
     Raise (match truthy ht with
            | Some _ => AssertionError
            | None => if w0 =? 0 then ZeroDivisionError else AssertionError
            end)) /\
  (wd = None -> truthy ht = None ->
   ((exists k, Z.of_nat (length data) = k * k) <->
    exists G, Grid_init data wd ht ao = Ok G) /\
   (~ (exists k, Z.of_nat (length data) = k * k) <->
    Grid_init data wd ht ao = Raise AssertionError)).
Proof.
  split; [apply Grid_init_AssertionError|].
  split; [intros G; apply Grid_init_Ok|].
  split.
  - intros w0 -> Hndiv. apply width_not_dividing, Hndiv.
  - intros -> Hh. destruct (square_layout data ht ao Hh) as [Hsq Hnsq].
    assert (Hdec : (exists k, Z.of_nat (length data) = k * k) \/
                   ~ (exists k, Z.of_nat (length data) = k * k)).
    { destruct (Z.eqb_spec (Z.sqrt (Z.of_nat (length data)) *
                            Z.sqrt (Z.of_nat (length data)))
                  (Z.of_nat (length data))) as [Heq|Hne].
      - left. eexists. symmetry. exact Heq.
      - right. intros [k Hk]. destruct Hne. rewrite Hk.
        replace (k * k) with (Z.abs k * Z.abs k) by lia.
        rewrite Z.sqrt_square by lia. reflexivity. }
    split; split.
    + intros Hk. eexists. apply Hsq, Hk.
    + intros [G HG]. destruct Hdec as [Hk|Hk]; [exact Hk|].
      rewrite (Hnsq Hk) in HG. discriminate.
    + apply Hnsq.
    + intros Hr Hk. rewrite (Hsq Hk) in Hr. discriminate.
Qed.

End Construction.

Lemma construction_fails_iff_not_tiling_witness :
  Grid_init [Some 1; Some 2; Some 3; Some 4; Some 5] (Some 2) None false
    = Raise AssertionError /\
  Grid_init [Some 1; Some 2; Some 3; Some 4; Some 5] None None false
    = Raise AssertionError /\
  exists G, Grid_init [Some 1; Some 2; Some 3; Some 4] None None false = Ok G.
Proof.
  split; [|split].
  - apply (proj1 (proj2 (proj2
      (construction_fails_iff_not_tiling
         [Some 1; Some 2; Some 3; Some 4; Some 5] (Some 2) None false))) 2 eq_refl).
    intros [k Hk]. simpl in Hk. lia.
  - apply (proj2 (proj2 (proj2 (proj2
      (construction_fails_iff_not_tiling
         [Some 1; Some 2; Some 3; Some 4; Some 5] None None false))) eq_refl eq_refl)).
    intros [k Hk]. simpl in Hk. assert (Hb : -3 < k < 3) by nia.
    assert (k = -2 \/ k = -1 \/ k = 0 \/ k = 1 \/ k = 2)
      as [->|[->|[->|[->| ->]]]] by lia; discriminate.
  - apply (proj1 (proj2 (proj2 (proj2
      (construction_fails_iff_not_tiling
         [Some 1; Some 2; Some 3; Some 4] None None false))) eq_refl eq_refl)).
    exists 2. reflexivity.
Defined.

(** Outside the data model: a width of 0 with no height divides by zero
    before the assertion is reached, and the empty 0x0 grid, which the
    square layout builds, cannot be transposed, because the inner
    constructor call treats the height 0 as not given. *)
Remark Grid_init_zero_width :
  Grid_init (T := Z) [] (Some 0) None false = Raise ZeroDivisionError.
Proof. reflexivity. Qed.

Remark transpose_empty_grid :
  Grid_init (T := Z) [] None None false = Ok (mkGrid 0 0 [] false) /\
  transpose (mkGrid (T := Z) 0 0 [] false) = Raise ZeroDivisionError.
Proof. split; reflexivity. Qed.

(** ** Neighbours and the overflow default *)

Section Neighbours.

Context {T : Type} `{EqDecision T}.
Variable order : bool -> list Direction.
Implicit Types (G : Grid T) (p : Point) (exclude include : option (filter T)).

Lemma get_flag_irrelevant G b b' p default :
  get (with_overflow b' G) p default (Some b) = get G p default (Some b).
Proof. destruct p. reflexivity. Qed.

Lemma get_inherits G p default :
  get G p default None = get (with_overflow (allow_overflow G) G) p default None.
Proof. destruct p. reflexivity. Qed.

Lemma neighbors_among_flag_irrelevant G b b' candidates exclude include :
  neighbors_among (with_overflow b' G) candidates exclude include (Some b)
  = neighbors_among G candidates exclude include (Some b).
Proof.
  induction candidates as [|[q d] candidates IH]; simpl; [reflexivity|].
  rewrite get_flag_irrelevant, IH. reflexivity.
Qed.

Lemma neighbors_among_None G candidates exclude include :
  neighbors_among G candidates exclude include None
  = neighbors_among G candidates exclude include (Some (allow_overflow G)).
Proof.
  induction candidates as [|[q d] candidates IH]; simpl; [reflexivity|].
  rewrite IH. destruct q. reflexivity.
Qed.

(** What [neighbors] yields comes from the candidates, holds a value other
    than None and passes the filters. *)
Lemma neighbors_among_elem G candidates exclude include overflow ns q v d :
  neighbors_among G candidates exclude include overflow = Ok ns ->
  ((q, v, d) ∈ ns <->
   (q, d) ∈ candidates /\ get G q None overflow = Ok v /\ v <> None /\
   _should_include q v exclude include = true).
Proof.
  revert ns.
  induction candidates as [|[q' d'] candidates IH]; simpl; intros ns Hns.
  - injection Hns as <-. split; [intros Hin|intros [Hin _]];
      apply elem_of_nil in Hin; destruct Hin.
  - destruct (get G q' None overflow) as [v'|e] eqn:Hget; simpl in Hns;
      [|discriminate].
    destruct (neighbors_among G candidates exclude include overflow)
      as [rest|e] eqn:Hrest; simpl in Hns; [|discriminate].
    specialize (IH rest eq_refl). rewrite elem_of_cons.
    assert (Hhere : (q, d) = (q', d') ->
              get G q None overflow = Ok v -> v = v').
    { intros [= -> ->] Hv. congruence. }
    destruct v' as [c|].
    + destruct (_should_include q' (Some c) exclude include) eqn:Hinc;
        injection Hns as <-.
      * rewrite elem_of_cons, IH. split.
        -- intros [[= -> -> ->]|(? & ? & ? & ?)]; [|tauto].
           split; [left; reflexivity|]. split; [exact Hget|].
           split; [discriminate|exact Hinc].
        -- intros ([Heq|Hin] & Hv & Hnone & Hsi); [|tauto].
           left. rewrite (Hhere Heq Hv). congruence.
      * rewrite IH. split; [tauto|].
        intros ([Heq|Hin] & Hv & Hnone & Hsi); [|tauto].
        pose proof (Hhere Heq Hv) as ->. injection Heq as -> ->. congruence.
    + injection Hns as <-. rewrite IH. split; [tauto|].
      intros ([Heq|Hin] & Hv & Hnone & Hsi); [|tauto].
      pose proof (Hhere Heq Hv). contradiction.
Qed.

Lemma get_Some_inbounds G q overflow c :
  _allow_overflow G overflow = false ->
  get G q None overflow = Ok (Some c) -> inbounds G q = true.
Proof.
  intros Hov. unfold get. rewrite Hov.
  destruct (inbounds G q); [reflexivity|discriminate].
Qed.

(** C10: [neighbors] called without an overflow argument runs with
    [allow_overflow=False]: it yields what it yields on the same grid with
    the flag cleared, every point it yields is inside the grid, and
    [_allow_overflow] resolves its default to False; whereas the default
    None of [at], [get] and [replace] resolves to the grid's flag, so that
    on a grid built with [allow_overflow=True] they wrap. *)
Theorem neighbors_default_does_not_wrap G p exclude include include_diagonal :
  neighbors order G p exclude include neighbors_overflow_default
    include_diagonal
  = neighbors order (with_overflow false G) p exclude include None
      include_diagonal /\
  (forall ns n,
     neighbors order G p exclude include neighbors_overflow_default
       include_diagonal = Ok ns ->
     n ∈ ns -> inbounds G n.1.1 = true) /\
  _allow_overflow G neighbors_overflow_default = false /\
  _allow_overflow G None = allow_overflow G /\
  (allow_overflow G = true ->
   forall q default, get G q default None = at_ G q (Some true) /\
                     at_ G q None = at_ G q (Some true)) /\
  (allow_overflow G = true ->
   forall markup q value color,
     replace markup G q value color None
     = replace markup G q value color (Some true)).
Proof.
  split; [|split; [|split; [|split; [|split]]]].
  - unfold neighbors, neighbors_overflow_default.
    rewrite neighbors_among_None. simpl.
    rewrite neighbors_among_flag_irrelevant. reflexivity.
  - intros ns [[q v] d] Hns Hin. simpl.
    unfold neighbors in Hns.
    apply (neighbors_among_elem _ _ _ _ _ _ q v d Hns) in Hin.
    destruct Hin as (_ & Hget & Hnone & _).
    destruct v as [c|]; [|contradiction].
    eapply get_Some_inbounds; [|exact Hget]. reflexivity.
  - reflexivity.
  - reflexivity.
  - intros Hflag [x y] default. unfold get, at_, _allow_overflow.
    rewrite Hflag. split; [|reflexivity].
    destruct (inbounds G (x, y)); reflexivity.
  - intros Hflag markup [x y] value color. unfold replace, _allow_overflow.
    rewrite Hflag. reflexivity.
Qed.

End Neighbours.

Lemma neighbors_default_does_not_wrap_witness :
  let G := mkGrid 2 2 [Some 1; Some 2; Some 3; Some 4] true in
  let order := fun b : bool =>
    if b then all_directions else cardinal_directions in
  neighbors order G (0, 0) None None neighbors_overflow_default false
    = Ok [((0, 1), Some 3, DOWN); ((1, 0), Some 2, RIGHT)] /\
  neighbors order G (0, 0) None None None false
    = Ok [((0, -1), Some 3, UP); ((0, 1), Some 3, DOWN);
          ((-1, 0), Some 2, LEFT); ((1, 0), Some 2, RIGHT)] /\
  get G (2, 2) None None = at_ G (2, 2) (Some true) /\
  get G (2, 2) None None = Ok (Some 1).
Proof.
  intros G order.
  split; [reflexivity|]. split; [reflexivity|].
  split; [|reflexivity].
  apply (proj1 (proj2 (proj2 (proj2 (proj2
    (neighbors_default_does_not_wrap order G (0, 0) None None false)))))
    eq_refl (2, 2) None).
Defined.

(** ** replace *)

Section Replace.

Context {T : Type} `{EqDecision T}.
Variable markup : string -> T -> T.
Implicit Types (G : Grid T) (p : Point) (value : cell T).

(** Inside the grid the row-major index determines the point. *)
Lemma cell_index_inj (w x y x' y' : Z) :
  0 <= x < w -> 0 <= x' < w -> y * w + x = y' * w + x' -> x = x' /\ y = y'.
Proof.
  intros Hx Hx' Heq.
  assert (y = y') by nia. subst y'. lia.
Qed.


Lemma replace_None_cell G p value :
  allow_overflow G = false -> at_ G p None = Ok None ->
  inbounds G p = true ->
  replace markup G p value None None = Ok G.
Proof.
  intros Hflag Hat Hin. destruct p as [x y]. unfold replace.
  unfold _allow_overflow at 1. rewrite Hflag.
  rewrite get_inbounds, Hat by exact Hin. reflexivity.
Qed.



End Replace.



(** ** Equality and hash *)

Section Hash.

Context {T : Type} `{EqDecision T}.
Variable hash_tuple : list (cell T) -> Z.

Lemma Grid_eq_spec (G1 G2 : Grid T) :
  Grid_eq G1 G2 = true <-> data G1 = data G2.
Proof. unfold Grid_eq. apply bool_decide_eq_true. Qed.

(** Grids that are equal and of one shape do hash alike. *)
Lemma Grid_hash_same_shape (G1 G2 : Grid T) :
  Grid_eq G1 G2 = true -> w G1 = w G2 -> h G1 = h G2 ->
  Grid_hash hash_tuple G1 = Grid_hash hash_tuple G2.
Proof.
  intros Heq%Grid_eq_spec Hw Hh. unfold Grid_hash. congruence.
Qed.

Lemma py_hash_slot_apart (t : Z) :
  py_hash_slot (t - 1) <> py_hash_slot (t + 1).
Proof.
  unfold py_hash_slot, py_hash_int.
  repeat case_match;
    rewrite ?andb_true_iff, ?andb_false_iff, ?Z.leb_le, ?Z.leb_gt, ?Z.ltb_lt,
      ?Z.ltb_ge, ?Z.eqb_eq, ?Z.eqb_neq in *;
    Z.div_mod_to_equations; lia.
Qed.

End Hash.

(** C9 fails on the code: the 2x3 and the 3x2 grid over the same six cells
    are both constructible and equal under [__eq__], which compares the
    flat data only, yet their hashes differ whatever the tuple hash is,
    since [__hash__] adds the hash of the width and subtracts that of the
    height. *)
Theorem equal_grids_hash_differently :
  forall hash_tuple : list (cell Z) -> Z,
  let cells := [Some 1; Some 2; Some 3; Some 4; Some 5; Some 6] in
  let G1 := mkGrid 2 3 cells false in
  let G2 := mkGrid 3 2 cells false in
  Grid_init cells (Some 2) (Some 3) false = Ok G1 /\
  Grid_init cells (Some 3) (Some 2) false = Ok G2 /\
  Grid_eq G1 G2 = true /\
  Grid_hash hash_tuple G1 <> Grid_hash hash_tuple G2.
Proof.
  intros hash_tuple cells G1 G2.
  do 3 (split; [reflexivity|]).
  unfold Grid_hash. simpl data. simpl w. simpl h.
  change (py_hash_int 2) with 2. change (py_hash_int 3) with 3.
  replace (hash_tuple cells + 2 - 3) with (hash_tuple cells - 1) by lia.
  replace (hash_tuple cells + 3 - 2) with (hash_tuple cells + 1) by lia.
  apply py_hash_slot_apart.
Qed.

(** ** Structural transforms *)

Section Transforms.

Context {T : Type} `{EqDecision T}.
Implicit Types (G : Grid T) (f : Z -> Z -> cell T).

Lemma traverse_Ok {A B} (f : A -> result B) (g : A -> B) (l : list A) :
  (forall a, a ∈ l -> f a = Ok (g a)) -> traverse f l = Ok (g <$> l).
Proof.
  induction l as [|a l IH]; intros Hf; simpl; [reflexivity|].
  rewrite Hf by apply list_elem_of_here. simpl.
  rewrite IH by (intros; apply Hf, list_elem_of_further; assumption).
  reflexivity.
Qed.

Lemma elem_of_range (n i : Z) : i ∈ range n <-> 0 <= i < n.
Proof. unfold range. rewrite elem_of_seqZ. lia. Qed.

Lemma lookup_range (n : Z) (i : nat) :
  Z.of_nat i < n -> range n !! i = Some (Z.of_nat i).
Proof. intros Hi. unfold range. rewrite lookup_seqZ_lt by exact Hi. f_equal. Qed.

Lemma nat_cell_index (w x y : Z) :
  0 <= x -> 0 <= y -> 0 <= w ->
  Z.to_nat (y * w + x) = (Z.to_nat y * Z.to_nat w + Z.to_nat x)%nat.
Proof. intros. rewrite Z2Nat.inj_add, Z2Nat.inj_mul by nia. reflexivity. Qed.

Lemma grid_inv_represents G : grid_inv G -> represents G (cell_at G).
Proof.
  intros (Hw & Hh & Htile). repeat split; try lia.
  intros x y Hx Hy. unfold cell_at.
  destruct (data G !! Z.to_nat (y * w G + x)) as [c|] eqn:Hc; [reflexivity|].
  apply lookup_ge_None in Hc.
  pose proof (cell_index_bound (w G) (h G) x y Hx Hy). lia.
Qed.

Lemma represents_inv G f : represents G f -> grid_inv G.
Proof. intros (Hw & Hh & Htile & _). repeat split; lia. Qed.

Lemma represents_at G f x y overflow :
  represents G f -> 0 <= x < w G -> 0 <= y < h G ->
  at_ G (x, y) overflow = Ok (f x y).
Proof.
  intros (Hw & Hh & Htile & Hf) Hx Hy.
  rewrite at_inbounds by (apply inbounds_spec; auto). simpl.
  destruct (py_getitem_lookup (data G) (y * w G + x)) as (c & Hc & ->).
  { rewrite Htile. apply cell_index_bound; assumption. }
  rewrite Hf in Hc by assumption. congruence.
Qed.

(** Two grids of one shape that represent layouts agreeing inside the
    shape hold the same data. *)
Lemma represents_ext G1 G2 f1 f2 :
  represents G1 f1 -> represents G2 f2 ->
  w G1 = w G2 -> h G1 = h G2 ->
  (forall x y, 0 <= x < w G1 -> 0 <= y < h G1 -> f1 x y = f2 x y) ->
  data G1 = data G2.
Proof.
  intros (Hw1 & Hh1 & Ht1 & Hf1) (Hw2 & Hh2 & Ht2 & Hf2) Hw Hh Hf.
  apply (list_eq_same_length _ _ (Z.to_nat (w G1 * h G1))); [lia..|].
  intros i c1 c2 Hi Hc1 Hc2.
  set (x := Z.of_nat i mod w G1). set (y := Z.of_nat i / w G1).
  assert (Hx : 0 <= x < w G1) by (apply Z.mod_pos_bound; lia).
  assert (Hi' : Z.of_nat i = y * w G1 + x).
  { unfold x, y. rewrite (Z.mul_comm _ (w G1)). apply Z.div_mod. lia. }
  assert (Hy : 0 <= y < h G1) by nia.
  assert (Hidx : i = Z.to_nat (y * w G1 + x)) by lia.
  specialize (Hf1 x y Hx Hy). rewrite <- Hidx in Hf1.
  specialize (Hf2 x y). rewrite <- Hw, <- Hh, <- Hidx in Hf2.
  specialize (Hf2 Hx Hy). specialize (Hf x y Hx Hy). congruence.
Qed.

(** Columns laid out one after the other form the rows of a grid of the
    swapped shape. *)
Lemma Grid_init_columns (wd ht : Z) (g : Z -> Z -> cell T) :
  0 < wd -> 0 < ht ->
  let cols := (fun c => (fun j => g c j) <$> range ht) <$> range wd in
  exists G', Grid_init (mjoin cols) (Some ht) (Some wd) false = Ok G' /\
             w G' = ht /\ h G' = wd /\ allow_overflow G' = false /\
             represents G' (fun x y => g y x).
Proof.
  intros Hw Hh cols.
  assert (Hall : Forall (fun l => length l = Z.to_nat ht) cols).
  { apply Forall_fmap, Forall_forall. intros c _. simpl.
    rewrite length_fmap. apply length_seqZ. }
  assert (Hlen : Z.of_nat (length (mjoin cols)) = ht * wd).
  { rewrite length_join, (sum_list_fmap_same (Z.to_nat ht)) by exact Hall.
    unfold cols. rewrite length_fmap. unfold range. rewrite length_seqZ. nia. }
  eexists. split.
  - apply Grid_init_Ok. exists ht, wd. split; [|split; [lia|reflexivity]].
    unfold Grid_dims, truthy. destruct wd; (lia || reflexivity).
  - simpl. do 3 (split; [reflexivity|]).
    repeat split; simpl; try lia.
    intros x y Hx Hy.
    rewrite nat_cell_index by lia.
    apply (join_lookup_Some_same_length' (Z.to_nat ht)); [exact Hall|lia|].
    eexists. split.
    + unfold cols. rewrite list_lookup_fmap, lookup_range by lia. reflexivity.
    + rewrite list_lookup_fmap, lookup_range by lia. simpl.
      rewrite !Z2Nat.id by lia. reflexivity.
Qed.

Lemma iter_cols_Ok G f :
  represents G f ->
  iter_cols G = Ok ((fun c => (fun r => f c r) <$> range (h G)) <$> range (w G)).
Proof.
  intros (Hw & Hh & Htile & Hf). unfold iter_cols.
  apply traverse_Ok. intros c Hc%elem_of_range.
  apply traverse_Ok. intros r Hr%elem_of_range.
  destruct (py_getitem_lookup (data G) (r * w G + c)) as (v & Hv & ->).
  { rewrite Htile. apply cell_index_bound; assumption. }
  rewrite Hf in Hv by assumption. congruence.
Qed.

Lemma reverse_range_fmap {A} (g : Z -> A) (n : Z) :
  reverse (g <$> range n) = (fun j => g (n - 1 - j)) <$> range n.
Proof.
  apply (list_eq_same_length _ _ (Z.to_nat n)).
  - rewrite length_fmap. apply length_seqZ.
  - rewrite length_reverse, length_fmap. apply length_seqZ.
  - intros i a b Hi Ha Hb.
    rewrite reverse_lookup in Ha
      by (rewrite length_fmap; unfold range; rewrite length_seqZ; exact Hi).
    rewrite length_fmap in Ha. unfold range in Ha at 1.
    rewrite length_seqZ in Ha.
    rewrite list_lookup_fmap, lookup_range in Ha by lia.
    rewrite list_lookup_fmap, lookup_range in Hb by lia.
    simpl in Ha, Hb. injection Ha as <-. injection Hb as <-.
    f_equal. lia.
Qed.

Lemma transpose_represents G f :
  represents G f ->
  exists G', transpose G = Ok G' /\ w G' = h G /\ h G' = w G /\
             represents G' (fun x y => f y x).
Proof.
  intros Hrep. pose proof Hrep as (Hw & Hh & _).
  unfold transpose. rewrite (iter_cols_Ok G f Hrep). simpl.
  destruct (Grid_init_columns (w G) (h G) f Hw Hh)
    as (G' & Hinit & Hw' & Hh' & _ & Hrep').
  exists G'. auto.
Qed.

Lemma rotate_represents G f :
  represents G f ->
  exists G', rotate G = Ok G' /\ w G' = h G /\ h G' = w G /\
             represents G' (fun x y => f y (h G - 1 - x)).
Proof.
  intros Hrep. pose proof Hrep as (Hw & Hh & _).
  unfold rotate. rewrite (iter_cols_Ok G f Hrep). simpl.
  rewrite <- list_fmap_compose.
  rewrite (list_fmap_ext _
             (fun c => (fun j => f c (h G - 1 - j)) <$> range (h G)))
    by (intros i c _; simpl; apply reverse_range_fmap).
  destruct (Grid_init_columns (w G) (h G) (fun c j => f c (h G - 1 - j)) Hw Hh)
    as (G' & Hinit & Hw' & Hh' & _ & Hrep').
  exists G'. auto.
Qed.

(** C6: on a grid of the data model (positive width and height tiling the
    data) [transpose] returns a grid of width [h] and height [w] whose
    element at (x, y) is the source's element at (y, x); transposing that
    grid again gives back the flat data and the dimensions of the source,
    hence a grid equal to it. *)
Theorem transpose_swaps_and_involutive G :
  grid_inv G ->
  exists G' G'',
    transpose G = Ok G' /\ w G' = h G /\ h G' = w G /\
    (forall x y, 0 <= x < w G' -> 0 <= y < h G' ->
       at_ G' (x, y) None = at_ G (y, x) None /\
       exists c, at_ G' (x, y) None = Ok c) /\
    transpose G' = Ok G'' /\
    data G'' = data G /\ w G'' = w G /\ h G'' = h G /\
    Grid_eq G'' G = true.
Proof.
  intros Hrep%grid_inv_represents.
  destruct (transpose_represents G _ Hrep) as (G' & Ht & Hw' & Hh' & Hrep').
  destruct (transpose_represents G' _ Hrep') as (G'' & Ht' & Hw'' & Hh'' & Hrep'').
  exists G', G''.
  split; [exact Ht|]. split; [exact Hw'|]. split; [exact Hh'|].
  assert (Hdata : data G'' = data G).
  { apply (represents_ext _ _ _ _ Hrep'' Hrep); [congruence..|]. reflexivity. }
  split; [|split; [exact Ht'|split; [exact Hdata|]]].
  - intros x y Hx Hy.
    rewrite (represents_at G' _ x y None Hrep' Hx Hy).
    rewrite (represents_at G _ y x None Hrep) by lia.
    split; [reflexivity|eauto].
  - split; [congruence|]. split; [congruence|].
    apply bool_decide_eq_true. exact Hdata.
Qed.

(** C7: on a grid of the data model [rotate] returns the grid of the swapped
    shape whose row [y] is the source's column [y] read from the bottom up
    (a quarter turn clockwise), and four rotations in a row give back the
    flat data and the dimensions of the source, hence a grid equal to it. *)
Theorem rotate_four_times G :
  grid_inv G ->
  exists G1 G2 G3 G4,
    rotate G = Ok G1 /\ rotate G1 = Ok G2 /\
    rotate G2 = Ok G3 /\ rotate G3 = Ok G4 /\
    w G1 = h G /\ h G1 = w G /\
    (forall x y, 0 <= x < w G1 -> 0 <= y < h G1 ->
       at_ G1 (x, y) None = at_ G (y, h G - 1 - x) None) /\
    data G4 = data G /\ w G4 = w G /\ h G4 = h G /\
    Grid_eq G4 G = true.
Proof.
  intros Hrep%grid_inv_represents.
  destruct (rotate_represents G _ Hrep) as (G1 & Hr1 & Hw1 & Hh1 & Hrep1).
  destruct (rotate_represents G1 _ Hrep1) as (G2 & Hr2 & Hw2 & Hh2 & Hrep2).
  destruct (rotate_represents G2 _ Hrep2) as (G3 & Hr3 & Hw3 & Hh3 & Hrep3).
  destruct (rotate_represents G3 _ Hrep3) as (G4 & Hr4 & Hw4 & Hh4 & Hrep4).
  exists G1, G2, G3, G4.
  do 4 (split; [assumption|]). do 2 (split; [assumption|]).
  assert (Hdata : data G4 = data G).
  { apply (represents_ext _ _ _ _ Hrep4 Hrep); [congruence..|].
    intros x y Hx Hy. simpl. f_equal; lia. }
  split; [|split; [exact Hdata|]].
  - intros x y Hx Hy.
    rewrite (represents_at G1 _ x y None Hrep1 Hx Hy).
    rewrite (represents_at G _ y (h G - 1 - x) None Hrep) by lia.
    reflexivity.
  - split; [congruence|]. split; [congruence|].
    apply bool_decide_eq_true. exact Hdata.
Qed.

End Transforms.

Lemma transpose_swaps_and_involutive_witness :
  let G := mkGrid 3 2 [Some 1; Some 2; Some 3; Some 4; Some 5; Some 6] true in
  exists G' G'',
    transpose G = Ok G' /\ transpose G' = Ok G'' /\
    data G' = [Some 1; Some 4; Some 2; Some 5; Some 3; Some 6] /\
    data G'' = data G.
Proof.
  intros G.
  assert (Hinv : grid_inv G) by (unfold grid_inv; simpl; lia).
  destruct (transpose_swaps_and_involutive G Hinv)
    as (G' & G'' & Ht & _ & _ & _ & Ht' & Hdata & _).
  exists G', G''. split; [exact Ht|]. split; [exact Ht'|].
  split; [|exact Hdata].
  vm_compute in Ht. injection Ht as <-. reflexivity.
Defined.

Lemma rotate_four_times_witness :
  let G := mkGrid 3 2 [Some 1; Some 2; Some 3; Some 4; Some 5; Some 6] true in
  exists G1 G4,
    rotate G = Ok G1 /\
    data G1 = [Some 4; Some 1; Some 5; Some 2; Some 6; Some 3] /\
    data G4 = data G /\ Grid_eq G4 G = true.
Proof.
  intros G.
  assert (Hinv : grid_inv G) by (unfold grid_inv; simpl; lia).
  destruct (rotate_four_times G Hinv)
    as (G1 & G2 & G3 & G4 & Hr1 & _ & _ & _ & _ & _ & _ & Hdata & _ & _ & Heq).
  exists G1, G4. split; [exact Hr1|].
  split; [|split; [exact Hdata|exact Heq]].
  vm_compute in Hr1. injection Hr1 as <-. reflexivity.
Defined.

(** ** Walks *)

Section Walks.

Context {A : Type}.
Implicit Types (R : A -> A -> Prop) (l : list A).

Lemma walk_mono R R' s l p :
  (forall a b, R a b -> R' a b) -> walk R s l p -> walk R' s l p.
Proof.
  intros HR Hw. induction Hw as [|l p q _ IH Hpq].
  - constructor.
  - econstructor; [exact IH|apply HR, Hpq].
Qed.

Lemma walk_length R s l p : walk R s l p -> (1 <= length l)%nat.
Proof.
  intros Hw. destruct Hw; [simpl; lia|]. rewrite length_app. simpl. lia.
Qed.

Lemma walk_ends R s l p : walk R s l p -> head l = Some s /\ last l = Some p.
Proof.
  intros Hw. induction Hw as [|l p q Hw [IHh IHl] Hpq]; [split; reflexivity|].
  split; [|apply last_snoc].
  destruct l as [|a l]; [discriminate|exact IHh].
Qed.

Lemma walk_rtc R s l p : walk R s l p -> rtc R s p.
Proof.
  intros Hw. induction Hw as [|l p q _ IH Hpq]; [reflexivity|].
  eapply rtc_r; eassumption.
Qed.

Lemma rtc_walk R s p : rtc R s p -> exists l, walk R s l p.
Proof.
  revert p. apply rtc_ind_r.
  - eexists. constructor.
  - intros p q _ Hpq [l IH]. eexists. econstructor; eassumption.
Qed.

(** Consecutive points of a walk are one step apart. *)
Lemma walk_steps R s l p i a b :
  walk R s l p -> l !! i = Some a -> l !! S i = Some b -> R a b.
Proof.
  intros Hw. revert i a b.
  induction Hw as [|l p q Hw IH Hpq]; intros i a b Ha Hb.
  - destruct i; discriminate.
  - pose proof (walk_length _ _ _ _ Hw) as Hlen.
    destruct (decide (S i < length l)%nat) as [Hlt|Hge].
    + rewrite lookup_app_l in Ha, Hb by lia. eapply IH; eassumption.
    + assert (Hi : S i = length l).
      { apply lookup_lt_Some in Hb. rewrite length_app in Hb. simpl in Hb. lia. }
      rewrite lookup_app_l in Ha by lia.
      rewrite Hi, list_lookup_middle in Hb by reflexivity.
      injection Hb as <-.
      destruct (walk_ends _ _ _ _ Hw) as [_ Hlast].
      rewrite last_lookup in Hlast.
      replace (Nat.pred (length l)) with i in Hlast by lia.
      rewrite Ha in Hlast. injection Hlast as ->. exact Hpq.
Qed.

End Walks.

(** ** The invariant of the search loop *)

Section SearchInvariant.

Variable step : Point -> Point -> Prop.
Variables s t : Point.
Implicit Types (queue visited : list Point) (seen : gset Point).
Implicit Types (preds : gmap Point (option Point)) (dep : Point -> nat).

Lemma tree_step_insert preds n c a b :
  preds !! n = None -> tree_step step preds a b ->
  tree_step step (<[n := Some c]> preds) a b.
Proof.
  intros Hn [Hb Hs]. split; [|exact Hs].
  rewrite lookup_insert_ne; [exact Hb|]. intros ->. congruence.
Qed.

Lemma search_inv_init :
  search_inv step s t None [] [s] {[s]} {[s := None]} (fun _ => 0%nat) 0.
Proof.
  constructor.
  - intros p. rewrite elem_of_singleton. split.
    + intros ->. rewrite lookup_singleton_eq. eauto.
    + intros [v Hv]. apply lookup_singleton_Some in Hv. symmetry. tauto.
  - apply lookup_singleton_eq.
  - reflexivity.
  - intros q ->%list_elem_of_singleton. apply elem_of_singleton. reflexivity.
  - intros p ->%elem_of_singleton. exists [s]. split; [constructor|reflexivity].
  - intros p q ->%elem_of_singleton Hq. destruct Hq. apply list_elem_of_here.
  - repeat constructor.
  - intros a _. lia.
  - intros p _ _. lia.
  - intros ->%elem_of_singleton. left. apply list_elem_of_here.
  - intros c [=].
Qed.

Lemma search_inv_pop visited c queue seen preds dep d :
  search_inv step s t None visited (c :: queue) seen preds dep d ->
  search_inv step s t (Some c) [] queue seen preds dep (dep c).
Proof.
  intros [Hdom Hroot Hdr Hq Hchain Hclosed Hsorted Hlevel Hdone Htarget Hcur].
  apply StronglySorted_cons in Hsorted as [Hhead Hsorted].
  rewrite Forall_forall in Hhead.
  pose proof (Hlevel c (list_elem_of_here _ _)) as Hc.
  constructor; try assumption.
  - intros q Hin. apply Hq. right. exact Hin.
  - intros p q Hp Hnq Hne. apply Hclosed; [exact Hp| |discriminate].
    intros [->|Hin]%elem_of_cons; [congruence|contradiction].
  - intros a Ha. specialize (Hhead a Ha).
    specialize (Hlevel a (list_elem_of_further _ _ _ Ha)). lia.
  - intros p Hp Hnq. destruct (decide (p = c)) as [->|Hne]; [lia|].
    enough (dep p <= d)%nat by lia. apply Hdone; [exact Hp|].
    intros [->|Hin]%elem_of_cons; [congruence|contradiction].
  - intros Ht. destruct (Htarget Ht) as [[->|Hin]%elem_of_cons|[=]]; auto.
  - intros c' [= <-]. split; [apply Hq, list_elem_of_here|].
    split; [reflexivity|]. intros n Hn. apply elem_of_nil in Hn. destruct Hn.
Qed.

Lemma search_inv_skip visited c n queue seen preds dep d :
  search_inv step s t (Some c) visited queue seen preds dep d ->
  n ∈ seen ->
  search_inv step s t (Some c) (visited ++ [n]) queue seen preds dep d.
Proof.
  intros [Hdom Hroot Hdr Hq Hchain Hclosed Hsorted Hlevel Hdone Htarget Hcur] Hn.
  constructor; try assumption.
  intros c' Hc'. destruct (Hcur c' Hc') as (Hc & Hd & Hvis).
  split; [exact Hc|]. split; [exact Hd|].
  intros m [Hm| ->%list_elem_of_singleton]%elem_of_app; [apply Hvis, Hm|].
  split; [exact Hn|].
  destruct (decide (n ∈ queue)) as [Hin|Hnin].
  - apply Hlevel in Hin. lia.
  - specialize (Hdone n Hn Hnin). lia.
Qed.

Lemma search_inv_discover visited c n queue seen preds dep d :
  search_inv step s t (Some c) visited queue seen preds dep d ->
  step c n -> n ∉ seen ->
  search_inv step s t (Some c) (visited ++ [n]) (queue ++ [n])
    ({[n]} ∪ seen) (<[n := Some c]> preds)
    (fun p => if decide (p = n) then S d else dep p) d.
Proof.
  intros [Hdom Hroot Hdr Hq Hchain Hclosed Hsorted Hlevel Hdone Htarget Hcur]
    Hstep Hn.
  destruct (Hcur c eq_refl) as (Hc & Hdc & Hvis).
  assert (Hnone : preds !! n = None).
  { apply eq_None_not_Some. rewrite <- Hdom. exact Hn. }
  assert (Hother : forall p, p ∈ seen -> p <> n) by (intros p Hp ->; auto).
  assert (Hdep : forall p, p ∈ seen ->
            (if decide (p = n) then S d else dep p) = dep p).
  { intros p Hp. destruct (decide (p = n)); [|reflexivity].
    destruct (Hother p Hp). assumption. }
  assert (Hsn : s ∈ seen) by (apply Hdom; rewrite Hroot; eauto).
  constructor.
  - intros p. rewrite elem_of_union, elem_of_singleton, Hdom, lookup_insert.
    destruct (decide (n = p)) as [->|Hne].
    + split; [eauto|auto].
    + split; [intros [->|Hp]; [congruence|exact Hp]|auto].
  - rewrite lookup_insert_ne; [exact Hroot|]. intros ->. auto.
  - rewrite Hdep by exact Hsn. exact Hdr.
  - intros q [Hin| ->%list_elem_of_singleton]%elem_of_app.
    + apply elem_of_union. right. apply Hq, Hin.
    + apply elem_of_union. left. apply elem_of_singleton. reflexivity.
  - intros p [->%elem_of_singleton|Hp]%elem_of_union.
    + destruct (Hchain c Hc) as (l & Hl & Hlen).
      exists (l ++ [n]). split.
      * econstructor.
        -- eapply walk_mono; [|exact Hl].
           intros a b. apply tree_step_insert, Hnone.
        -- split; [apply lookup_insert_eq|exact Hstep].
      * rewrite length_app, Hlen, Hdc. simpl.
        destruct (decide (n = n)); [lia|congruence].
    + destruct (Hchain p Hp) as (l & Hl & Hlen).
      exists l. split.
      * eapply walk_mono; [|exact Hl].
        intros a b. apply tree_step_insert, Hnone.
      * rewrite Hdep by exact Hp. exact Hlen.
  - intros p q Hp Hnq Hne Hpq.
    assert (Hpn : p <> n).
    { intros ->. apply Hnq, elem_of_app. right. apply list_elem_of_here. }
    assert (Hps : p ∈ seen).
    { apply elem_of_union in Hp as [->%elem_of_singleton|Hp]; [congruence|auto]. }
    destruct (Hclosed p q Hps) as [Hqs Hle]; [|exact Hne|exact Hpq|].
    { intros Hin. apply Hnq, elem_of_app. left. exact Hin. }
    split; [apply elem_of_union; right; exact Hqs|].
    rewrite !Hdep by assumption. exact Hle.
  - apply StronglySorted_app. split; [|split].
    + intros a b Ha ->%list_elem_of_singleton.
      rewrite Hdep by (apply Hq, Ha).
      destruct (decide (n = n)); [|congruence].
      apply Hlevel in Ha. lia.
    + clear -Hsorted Hq Hdep.
      induction Hsorted as [|a l Hl IH Ha]; constructor.
      * apply IH. intros q Hin. apply Hq. right. exact Hin.
      * rewrite Forall_forall in Ha |- *. intros b Hb.
        rewrite !Hdep; [apply Ha, Hb| |].
        -- apply Hq. right. exact Hb.
        -- apply Hq. left.
    + repeat constructor.
  - intros a [Ha| ->%list_elem_of_singleton]%elem_of_app.
    + rewrite Hdep by (apply Hq, Ha). apply Hlevel, Ha.
    + destruct (decide (n = n)); [lia|congruence].
  - intros p Hp Hnq.
    assert (Hpn : p <> n).
    { intros ->. apply Hnq, elem_of_app. right. apply list_elem_of_here. }
    assert (Hps : p ∈ seen).
    { apply elem_of_union in Hp as [->%elem_of_singleton|Hp]; [congruence|auto]. }
    rewrite Hdep by exact Hps. apply Hdone; [exact Hps|].
    intros Hin. apply Hnq, elem_of_app. left. exact Hin.
  - intros [->%elem_of_singleton|Ht]%elem_of_union.
    + left. apply elem_of_app. right. apply list_elem_of_here.
    + destruct (Htarget Ht) as [Hin|Heq]; [|auto].
      left. apply elem_of_app. left. exact Hin.
  - intros c' [= <-].
    split; [apply elem_of_union; right; exact Hc|].
    split; [rewrite Hdep by exact Hc; exact Hdc|].
    intros m [Hm| ->%list_elem_of_singleton]%elem_of_app.
    + destruct (Hvis m Hm) as [Hms Hmd].
      split; [apply elem_of_union; right; exact Hms|].
      rewrite Hdep by exact Hms. exact Hmd.
    + split; [apply elem_of_union; left; apply elem_of_singleton; reflexivity|].
      destruct (decide (n = n)); [lia|congruence].
Qed.

Lemma search_inv_finish visited c queue seen preds dep d :
  search_inv step s t (Some c) visited queue seen preds dep d ->
  c <> t -> (forall q, step c q -> q ∈ visited) ->
  search_inv step s t None [] queue seen preds dep d.
Proof.
  intros [Hdom Hroot Hdr Hq Hchain Hclosed Hsorted Hlevel Hdone Htarget Hcur]
    Hct Hall.
  destruct (Hcur c eq_refl) as (Hc & Hdc & Hvis).
  constructor; try assumption.
  - intros p q Hp Hnq _ Hpq. destruct (decide (p = c)) as [->|Hne].
    + rewrite Hdc. apply Hvis, Hall, Hpq.
    + apply (Hclosed p q Hp Hnq); [congruence|exact Hpq].
  - intros Ht. destruct (Htarget Ht) as [Hin|[= ->]]; [auto|congruence].
  - intros c' [=].
Qed.

(** While [c] is being expanded, every point with a walk shorter than the
    current depth has been seen, at a depth below the length of the walk. *)
Lemma search_inv_short_walk visited c queue seen preds dep d l x :
  search_inv step s t (Some c) visited queue seen preds dep d ->
  walk step s l x -> (length l <= d)%nat ->
  x ∈ seen /\ (dep x < length l)%nat.
Proof.
  intros [Hdom Hroot Hdr Hq Hchain Hclosed Hsorted Hlevel Hdone Htarget Hcur] Hw.
  destruct (Hcur c eq_refl) as (Hc & Hdc & Hvis).
  induction Hw as [|l p q Hw IH Hpq]; intros Hlen.
  - split; [apply Hdom; rewrite Hroot; eauto|]. rewrite Hdr. simpl. lia.
  - rewrite length_app in Hlen |- *. simpl in Hlen |- *.
    destruct IH as [Hp Hdp]; [lia|].
    destruct (Hclosed p q Hp) as [Hqs Hle]; [| |exact Hpq|].
    + intros Hin. apply Hlevel in Hin. lia.
    + intros [= ->]. lia.
    + split; [exact Hqs|lia].
Qed.

Lemma search_inv_cur_nearest visited c queue seen preds dep d l :
  search_inv step s t (Some c) visited queue seen preds dep d ->
  walk step s l c -> (S d <= length l)%nat.
Proof.
  intros Hinv Hw.
  destruct (decide (length l <= d)%nat) as [Hle|]; [|lia].
  destruct (search_inv_short_walk _ _ _ _ _ _ _ _ _ Hinv Hw Hle) as [_ Hlt].
  destruct (inv_cur _ _ _ _ _ _ _ _ _ _ Hinv c eq_refl) as (_ & Hdc & _). lia.
Qed.

Lemma search_inv_target_far visited c queue seen preds dep d l :
  search_inv step s t (Some c) visited queue seen preds dep d ->
  walk step s l t -> (S d <= length l)%nat.
Proof.
  intros Hinv Hw.
  destruct (decide (length l <= d)%nat) as [Hle|]; [|lia].
  destruct (search_inv_short_walk _ _ _ _ _ _ _ _ _ Hinv Hw Hle) as [Ht Hlt].
  destruct (inv_target _ _ _ _ _ _ _ _ _ _ Hinv Ht) as [Hin|[= ->]].
  - apply (inv_level _ _ _ _ _ _ _ _ _ _ Hinv) in Hin. lia.
  - eapply search_inv_cur_nearest; eassumption.
Qed.

End SearchInvariant.

(** Handling the neighbours of the current point, one [discover] each. *)
Section Discover.

Variable step : Point -> Point -> Prop.
Variables s t : Point.

Lemma discover_fold (c : Point) (ns visited queue : list Point)
    (seen : gset Point)
    (preds : gmap Point (option Point)) (dep : Point -> nat) (d : nat) :
  search_inv step s t (Some c) visited queue seen preds dep d ->
  (forall n, n ∈ ns -> step c n) ->
  exists queue' seen' preds' dep',
    foldl (discover c) (queue, seen, preds) ns = (queue', seen', preds') /\
    search_inv step s t (Some c) (visited ++ ns) queue' seen' preds' dep' d /\
    seen ⊆ seen' /\
    (forall p, p ∈ seen' -> p ∈ seen \/ p ∈ ns) /\
    (size seen' + length queue = size seen + length queue')%nat.
Proof.
  revert visited queue seen preds dep.
  induction ns as [|n ns IH]; intros visited queue seen preds dep Hinv Hns.
  - exists queue, seen, preds, dep. rewrite app_nil_r.
    split; [reflexivity|]. split; [exact Hinv|].
    split; [reflexivity|]. split; [auto|reflexivity].
  - assert (Hn : step c n) by apply Hns, list_elem_of_here.
    assert (Hns' : forall m, m ∈ ns -> step c m)
      by (intros m Hm; apply Hns, list_elem_of_further, Hm).
    cbn [foldl]. change (discover c (queue, seen, preds) n) with
      (if decide (n ∈ seen) then (queue, seen, preds)
       else (queue ++ [n], {[n]} ∪ seen, <[n := Some c]> preds)).
    replace (visited ++ n :: ns) with ((visited ++ [n]) ++ ns)
      by (rewrite <- app_assoc; reflexivity).
    destruct (decide (n ∈ seen)) as [Hin|Hnin].
    + destruct (IH _ _ _ _ _ (search_inv_skip _ _ _ _ _ _ _ _ _ _ _ Hinv Hin) Hns')
        as (q' & s' & p' & dep' & Hfold & Hinv' & Hsub & Hnew & Hsize).
      exists q', s', p', dep'. split; [exact Hfold|]. split; [exact Hinv'|].
      split; [exact Hsub|]. split; [|exact Hsize].
      intros p Hp. destruct (Hnew p Hp); [auto|].
      right. apply list_elem_of_further. assumption.
    + destruct (IH _ _ _ _ _
                  (search_inv_discover _ _ _ _ _ _ _ _ _ _ _ Hinv Hn Hnin) Hns')
        as (q' & s' & p' & dep' & Hfold & Hinv' & Hsub & Hnew & Hsize).
      exists q', s', p', dep'. split; [exact Hfold|]. split; [exact Hinv'|].
      split; [set_solver|]. split.
      * intros p Hp. destruct (Hnew p Hp) as [Hp'|Hp'].
        -- apply elem_of_union in Hp' as [->%elem_of_singleton|Hp'];
             [right; apply list_elem_of_here|auto].
        -- right. apply list_elem_of_further. assumption.
      * rewrite size_union, size_singleton, length_app in Hsize by set_solver.
        simpl in Hsize. lia.
Qed.

End Discover.

(** ** shortest_path *)

Section ShortestPath.

Context {T : Type} `{EqDecision T}.
Variable order : bool -> list Direction.
Variable G : Grid T.
Variables exclude include : option (filter T).
Variable include_diagonal : bool.
Variable overflow : option bool.
Variables s t : Point.

Local Abbreviation step :=
  (step_to order G exclude include include_diagonal overflow).
Local Abbreviation run fuel :=
  (search order fuel G t exclude include include_diagonal overflow).

Lemma search_mono (fuel fuel' : nat) (queue : list Point) (seen : gset Point)
    (preds : gmap Point (option Point)) r :
  run fuel queue seen preds = Some r -> (fuel <= fuel')%nat ->
  run fuel' queue seen preds = Some r.
Proof.
  revert fuel' queue seen preds.
  induction fuel as [|fuel IH]; intros fuel' queue seen preds Hr Hle;
    [discriminate|].
  destruct fuel' as [|fuel']; [lia|]. simpl in Hr |- *.
  destruct queue as [|c queue]; [exact Hr|].
  destruct (decide (c = t)); [exact Hr|].
  destruct (neighbors order G c exclude include overflow include_diagonal)
    as [ns|e]; [|exact Hr].
  destruct (foldl (discover c) (queue, seen, preds) ((fun n => n.1.1) <$> ns))
    as [[q' s'] p'].
  apply IH; [exact Hr|lia].
Qed.

Lemma backtrack_mono (fuel fuel' : nat) (preds : gmap Point (option Point))
    (step_ : option Point) (path : list Point) r :
  backtrack fuel preds step_ path = Some r -> (fuel <= fuel')%nat ->
  backtrack fuel' preds step_ path = Some r.
Proof.
  revert fuel' step_ path.
  induction fuel as [|fuel IH]; intros fuel' step_ path Hr Hle.
  - destruct step_; [discriminate|]. destruct fuel'; exact Hr.
  - destruct fuel' as [|fuel']; [lia|]. simpl in Hr |- *.
    destruct step_ as [p|]; [|exact Hr].
    destruct (preds !! p) as [nxt|]; [|exact Hr].
    apply IH; [exact Hr|lia].
Qed.

(** What the loop hands over when it stops. *)
Lemma search_sound (fuel : nat) (visited queue : list Point)
    (seen : gset Point) (preds : gmap Point (option Point))
    (dep : Point -> nat) (d : nat) preds' :
  search_inv step s t None visited queue seen preds dep d ->
  run fuel queue seen preds = Some (Ok preds') ->
  preds' !! s = Some None /\
  ((preds' !! t = None /\
    ~ connected order G exclude include include_diagonal overflow s t) \/
   (exists l, walk (tree_step step preds') s l t /\
              forall lt, walk step s lt t -> (length l <= length lt)%nat)).
Proof.
  revert visited queue seen preds dep d.
  induction fuel as [|fuel IH]; intros visited queue seen preds dep d Hinv Hr;
    [discriminate|].
  simpl in Hr. destruct queue as [|c queue].
  - injection Hr as <-. split; [apply (inv_root _ _ _ _ _ _ _ _ _ _ Hinv)|].
    left.
    assert (Hclosed : forall p, rtc step s p -> p ∈ seen).
    { apply rtc_ind_r.
      - apply (inv_dom _ _ _ _ _ _ _ _ _ _ Hinv).
        rewrite (inv_root _ _ _ _ _ _ _ _ _ _ Hinv). eauto.
      - intros p q _ Hpq Hp.
        apply (inv_closed _ _ _ _ _ _ _ _ _ _ Hinv p q Hp); [|discriminate|exact Hpq].
        intros Hin. apply elem_of_nil in Hin. exact Hin. }
    assert (Ht : t ∉ seen).
    { intros Ht. destruct (inv_target _ _ _ _ _ _ _ _ _ _ Hinv Ht) as [Hin|[=]].
      apply elem_of_nil in Hin. exact Hin. }
    split.
    + apply eq_None_not_Some. rewrite <- (inv_dom _ _ _ _ _ _ _ _ _ _ Hinv).
      exact Ht.
    + intros Hconn. apply Ht, Hclosed, Hconn.
  - pose proof (search_inv_pop _ _ _ _ _ _ _ _ _ _ Hinv) as Hpop.
    destruct (decide (c = t)) as [->|Hct].
    + injection Hr as <-. split; [apply (inv_root _ _ _ _ _ _ _ _ _ _ Hinv)|].
      right.
      destruct (inv_cur _ _ _ _ _ _ _ _ _ _ Hpop t eq_refl) as (Ht & _).
      destruct (inv_chain _ _ _ _ _ _ _ _ _ _ Hpop t Ht) as (l & Hl & Hlen).
      exists l. split; [exact Hl|]. intros lt Hlt. rewrite Hlen.
      eapply search_inv_cur_nearest; eassumption.
    + destruct (neighbors order G c exclude include overflow include_diagonal)
        as [ns|e] eqn:Hns; [|discriminate].
      destruct (discover_fold step s t c ((fun n => n.1.1) <$> ns)
                  _ _ _ _ _ _ Hpop)
        as (q' & s' & p' & dep' & Hfold & Hinv' & _).
      { intros n Hn. exists ns. auto. }
      rewrite Hfold in Hr. eapply IH; [|exact Hr].
      eapply search_inv_finish; [exact Hinv'|exact Hct|].
      intros q (ns' & Hns' & Hq). simpl. congruence.
Qed.

(** The loop stops within a bounded number of rounds when what it can
    discover lies in a finite set [U]. *)
Lemma search_terminates (U : gset Point) (fuel : nat)
    (visited queue : list Point) (seen : gset Point)
    (preds : gmap Point (option Point)) (dep : Point -> nat) (d : nat) :
  (forall p, is_Ok
     (neighbors order G p exclude include overflow include_diagonal)) ->
  (forall c q l, walk step s l c ->
     (forall lt, walk step s lt t -> (length l <= length lt)%nat) ->
     step c q -> q ∈ U) ->
  search_inv step s t None visited queue seen preds dep d ->
  seen ⊆ U ->
  (size U - size seen + length queue < fuel)%nat ->
  exists preds', run fuel queue seen preds = Some (Ok preds').
Proof.
  intros Htotal HU.
  revert visited queue seen preds dep d.
  induction fuel as [|fuel IH]; intros visited queue seen preds dep d
    Hinv Hsub Hfuel; [lia|].
  simpl. destruct queue as [|c queue]; [eauto|].
  destruct (decide (c = t)) as [->|Hct]; [eauto|].
  pose proof (search_inv_pop _ _ _ _ _ _ _ _ _ _ Hinv) as Hpop.
  specialize (Htotal c).
  destruct (neighbors order G c exclude include overflow include_diagonal)
    as [ns|e] eqn:Hns; [|destruct Htotal].
  assert (Hstep : forall n, n ∈ (fun n => n.1.1) <$> ns -> step c n).
  { intros n Hn. exists ns. auto. }
  destruct (discover_fold step s t c _ _ _ _ _ _ _ Hpop Hstep)
    as (q' & s' & p' & dep' & Hfold & Hinv' & Hsub' & Hnew & Hsize).
  rewrite Hfold.
  assert (HsU : s' ⊆ U).
  { intros p Hp. destruct (Hnew p Hp) as [Hold|Hin]; [apply Hsub, Hold|].
    destruct (inv_cur _ _ _ _ _ _ _ _ _ _ Hpop c eq_refl) as (Hc & _).
    destruct (inv_chain _ _ _ _ _ _ _ _ _ _ Hpop c Hc) as (l & Hl & Hlen).
    apply (HU c p l).
    - eapply walk_mono; [|exact Hl]. intros a b [_ Hab]. exact Hab.
    - intros lt Hlt. rewrite Hlen.
      eapply search_inv_target_far; eassumption.
    - apply Hstep, Hin. }
  eapply IH.
  - eapply search_inv_finish; [exact Hinv'|exact Hct|].
    intros q (ns' & Hns' & Hq). simpl. congruence.
  - exact HsU.
  - pose proof (subseteq_size _ _ HsU). pose proof (subseteq_size _ _ Hsub).
    simpl in Hfuel. lia.
Qed.

Lemma backtrack_chain (preds : gmap Point (option Point)) (l : list Point)
    (p : Point) :
  walk (tree_step step preds) s l p -> preds !! s = Some None ->
  forall (fuel : nat) (acc : list Point), (length l <= fuel)%nat ->
    backtrack fuel preds (Some p) acc = Some (Ok (acc ++ reverse l)).
Proof.
  intros Hw Hroot. induction Hw as [|l p q Hw IH [Hq _]]; intros fuel acc Hlen.
  - destruct fuel as [|fuel]; [simpl in Hlen; lia|].
    simpl. rewrite Hroot. destruct fuel; reflexivity.
  - rewrite length_app in Hlen. simpl in Hlen.
    destruct fuel as [|fuel]; [lia|]. simpl. rewrite Hq.
    rewrite IH by lia. rewrite reverse_app, <- app_assoc. reflexivity.
Qed.

Lemma backtrack_raises (fuel : nat) (preds : gmap Point (option Point))
    (step_ : option Point) (path : list Point) e :
  backtrack fuel preds step_ path = Some (Raise e) -> e = KeyError.
Proof.
  revert step_ path. induction fuel as [|fuel IH]; intros step_ path Hr.
  - destruct step_; discriminate.
  - simpl in Hr. destruct step_ as [p|]; [|discriminate].
    destruct (preds !! p) as [nxt|]; [eapply IH, Hr|congruence].
Qed.

Lemma search_raises (fuel : nat) (queue : list Point) (seen : gset Point)
    (preds : gmap Point (option Point)) e :
  run fuel queue seen preds = Some (Raise e) ->
  exists p, neighbors order G p exclude include overflow include_diagonal
            = Raise e.
Proof.
  revert queue seen preds.
  induction fuel as [|fuel IH]; intros queue seen preds Hr; [discriminate|].
  simpl in Hr. destruct queue as [|c queue]; [discriminate|].
  destruct (decide (c = t)); [discriminate|].
  destruct (neighbors order G c exclude include overflow include_diagonal)
    as [ns|e'] eqn:Hns; [|injection Hr as ->; eauto].
  destruct (foldl (discover c) (queue, seen, preds) ((fun n => n.1.1) <$> ns))
    as [[q' s'] p'].
  eapply IH, Hr.
Qed.

(** A tree walk that ends in [p] has [p] among the predecessors' keys. *)
Lemma tree_walk_key (preds : gmap Point (option Point)) (l : list Point)
    (p : Point) :
  walk (tree_step step preds) s l p -> preds !! s = Some None ->
  is_Some (preds !! p).
Proof. intros Hw Hroot. destruct Hw as [|l p q _ [Hq _]]; eauto. Qed.

Local Abbreviation path_of fuel :=
  (shortest_path order fuel G (inl s) (inl t) exclude include include_diagonal
     overflow).

Lemma shortest_path_Ok (fuel : nat) (path : list Point) :
  path_of fuel = Some (Ok path) ->
  walk step s path t /\
  forall lt, walk step s lt t -> (length path <= length lt)%nat.
Proof.
  unfold shortest_path. simpl.
  destruct (run fuel [s] {[s]} {[s := None]}) as [[preds'|e]|] eqn:Hrun;
    [|discriminate..].
  destruct (search_sound _ _ _ _ _ _ _ _ (search_inv_init step s t) Hrun)
    as [Hroot [[Hnone _]|(l & Hl & Hmin)]].
  { rewrite Hnone. discriminate. }
  destruct (preds' !! t); [|discriminate].
  destruct (backtrack fuel preds' (Some t) []) as [[p0|e]|] eqn:Hback;
    [|discriminate..].
  intros [= <-].
  pose proof (backtrack_chain _ _ _ Hl Hroot (max fuel (length l)) []) as Hb.
  rewrite (backtrack_mono _ _ _ _ _ _ Hback) in Hb by lia.
  specialize (Hb ltac:(lia)). injection Hb as ->.
  simpl. rewrite reverse_involutive. split; [|exact Hmin].
  eapply walk_mono; [|exact Hl]. intros a b [_ Hab]. exact Hab.
Qed.

Lemma shortest_path_NoPathFound (fuel : nat) :
  (forall p, is_Ok
     (neighbors order G p exclude include overflow include_diagonal)) ->
  path_of fuel = Some (Raise NoPathFound) ->
  ~ connected order G exclude include include_diagonal overflow s t.
Proof.
  intros Htotal. unfold shortest_path. simpl.
  destruct (run fuel [s] {[s]} {[s := None]}) as [[preds'|e]|] eqn:Hrun;
    [| |discriminate].
  - destruct (search_sound _ _ _ _ _ _ _ _ (search_inv_init step s t) Hrun)
      as [Hroot [[Hnone Hnot]|(l & Hl & Hmin)]]; [intros _; exact Hnot|].
    destruct (tree_walk_key _ _ _ Hl Hroot) as [v ->].
    destruct (backtrack fuel preds' (Some t) []) as [[p0|e]|] eqn:Hback;
      [discriminate| |discriminate].
    apply backtrack_raises in Hback as ->. discriminate.
  - apply search_raises in Hrun as [p Hp].
    specialize (Htotal p). rewrite Hp in Htotal. destruct Htotal.
Qed.

(** With a finite set [U] around what can be discovered the search ends,
    and what it returns is settled by reachability alone. *)
Lemma shortest_path_settles (U : gset Point) :
  (forall p, is_Ok
     (neighbors order G p exclude include overflow include_diagonal)) ->
  (forall c q l, walk step s l c ->
     (forall lt, walk step s lt t -> (length l <= length lt)%nat) ->
     step c q -> q ∈ U) ->
  s ∈ U ->
  exists n r, (forall fuel, (n <= fuel)%nat -> path_of fuel = Some r) /\
    match r with
    | Ok path => connected order G exclude include include_diagonal overflow s t
    | Raise e =>
        e = NoPathFound /\
        ~ connected order G exclude include include_diagonal overflow s t
    end.
Proof.
  intros Htotal HU HsU.
  destruct (search_terminates U (S (size U)) [] [s] {[s]} {[s := None]}
              _ _ Htotal HU (search_inv_init step s t)) as [preds' Hrun].
  { apply singleton_subseteq_l, HsU. }
  { rewrite size_singleton. simpl.
    assert (1 <= size U)%nat; [|lia].
    rewrite <- (size_singleton (C := gset Point) s).
    apply subseteq_size, singleton_subseteq_l, HsU. }
  destruct (search_sound _ _ _ _ _ _ _ _ (search_inv_init step s t) Hrun)
    as [Hroot [[Hnone Hnot]|(l & Hl & Hmin)]].
  - exists (S (size U)), (Raise NoPathFound). split; [|auto].
    intros fuel Hfuel. unfold shortest_path. simpl.
    rewrite (search_mono _ _ _ _ _ _ Hrun Hfuel), Hnone. reflexivity.
  - exists (max (S (size U)) (length l)), (Ok l). split.
    + intros fuel Hfuel. unfold shortest_path. simpl.
      rewrite (search_mono _ _ _ _ _ _ Hrun) by lia.
      destruct (tree_walk_key _ _ _ Hl Hroot) as [v ->].
      rewrite (backtrack_chain _ _ _ Hl Hroot) by lia.
      simpl. rewrite reverse_involutive. reflexivity.
    + eapply walk_rtc, walk_mono; [|exact Hl]. intros a b [_ Hab]. exact Hab.
Qed.

End ShortestPath.

(** ** The neighbour relation on a grid of the data model *)

Section GridSteps.

Context {T : Type} `{EqDecision T}.
Variable order : bool -> list Direction.
Variable G : Grid T.
Variables exclude include : option (filter T).
Variable include_diagonal : bool.
Variable overflow : option bool.

Local Abbreviation step :=
  (step_to order G exclude include include_diagonal overflow).

Lemma at_wrap_total (p : Point) :
  grid_inv G -> exists c, at_ G p (Some true) = Ok c.
Proof.
  intros (Hw & Hh & Htile). destruct p as [x y]. unfold at_, py_mod. simpl.
  destruct (Z.eqb_spec (w G) 0); [lia|].
  destruct (Z.eqb_spec (h G) 0); [lia|]. simpl.
  destruct (py_getitem_lookup (data G) (y mod h G * w G + x mod w G))
    as (c & _ & Hc); [|eauto].
  rewrite <- Htile. apply cell_index_bound; apply Z.mod_pos_bound; lia.
Qed.

Lemma get_total (p : Point) (default : cell T) (ov : option bool) :
  grid_inv G -> exists c, get G p default ov = Ok c.
Proof.
  intros Hinv. unfold get. destruct (inbounds G p) eqn:Hin.
  - rewrite at_inbounds by exact Hin. destruct p as [x y].
    apply inbounds_spec in Hin. destruct Hinv as (Hw & Hh & Htile).
    destruct (py_getitem_lookup (data G) (y * w G + x)) as (c & _ & Hc);
      [|eauto].
    rewrite <- Htile. apply cell_index_bound; tauto.
  - destruct (_allow_overflow G ov); [apply at_wrap_total, Hinv|eauto].
Qed.

Lemma neighbors_among_total (candidates : list (Point * Direction)) :
  grid_inv G ->
  is_Ok (neighbors_among G candidates exclude include overflow).
Proof.
  intros Hinv. induction candidates as [|[q d] candidates IH]; simpl; [exact I|].
  destruct (get_total q None overflow Hinv) as [v ->]. simpl.
  destruct (neighbors_among G candidates exclude include overflow);
    [|destruct IH]. simpl.
  destruct v; [destruct (_should_include _ _ _ _)|]; exact I.
Qed.

Lemma neighbors_total (p : Point) :
  grid_inv G ->
  is_Ok (neighbors order G p exclude include overflow include_diagonal).
Proof. apply neighbors_among_total. Qed.

(** A step leads to the neighbour in one of the enumerated directions,
    whose cell holds a value that passes the filters; on a grid of the data
    model every such neighbour is a step. *)
Lemma step_to_inv (p q : Point) :
  step p q ->
  exists d c, d ∈ order include_diagonal /\ q = neighbor p d /\
              get G q None overflow = Ok (Some c) /\
              _should_include q (Some c) exclude include = true.
Proof.
  intros (ns & Hns & Hq).
  apply list_elem_of_fmap in Hq as ([[q' v] d] & -> & Hin). simpl.
  apply (neighbors_among_elem _ _ _ _ _ _ q' v d Hns) in Hin
    as (Hcand & Hget & Hv & Hinc).
  apply list_elem_of_fmap in Hcand as (d' & [= -> ->] & Hd).
  destruct v as [c|]; [|contradiction]. eauto 10.
Qed.

Lemma step_to_intro (p : Point) (d : Direction) (c : T) :
  grid_inv G -> d ∈ order include_diagonal ->
  get G (neighbor p d) None overflow = Ok (Some c) ->
  _should_include (neighbor p d) (Some c) exclude include = true ->
  step p (neighbor p d).
Proof.
  intros Hinv Hd Hget Hinc.
  pose proof (neighbors_total p Hinv) as Htot.
  destruct (neighbors order G p exclude include overflow include_diagonal)
    as [ns|e] eqn:Hns; [|destruct Htot].
  exists ns. split; [exact Hns|].
  apply list_elem_of_fmap. exists (neighbor p d, Some c, d). split; [reflexivity|].
  apply (neighbors_among_elem _ _ _ _ _ _ _ _ _ Hns).
  split; [|split; [exact Hget|split; [discriminate|exact Hinc]]].
  apply list_elem_of_fmap. eauto.
Qed.

Lemma step_to_inbounds (p q : Point) :
  _allow_overflow G overflow = false -> step p q -> inbounds G q = true.
Proof.
  intros Hov (d & c & _ & _ & Hget & _)%step_to_inv.
  eapply get_Some_inbounds; eassumption.
Qed.

Lemma step_to_near (p q : Point) :
  step p q -> Z.abs (q.1 - p.1) <= 1 /\ Z.abs (q.2 - p.2) <= 1.
Proof.
  intros (d & c & _ & -> & _)%step_to_inv. destruct p as [x y].
  destruct d; simpl; lia.
Qed.

Lemma walk_near (s c : Point) (l : list Point) :
  walk step s l c ->
  Z.abs (c.1 - s.1) <= Z.of_nat (length l) - 1 /\
  Z.abs (c.2 - s.2) <= Z.of_nat (length l) - 1.
Proof.
  intros Hw. induction Hw as [|l p q Hw IH Hpq]; [simpl; lia|].
  apply step_to_near in Hpq. rewrite length_app. simpl. lia.
Qed.

End GridSteps.

Lemma elem_of_box (p q : Point) (r : Z) :
  Z.abs (q.1 - p.1) <= r -> Z.abs (q.2 - p.2) <= r -> q ∈ box p r.
Proof.
  intros Hx Hy. destruct q as [x y]. simpl in *. unfold box.
  apply list_elem_of_bind. exists x. split.
  - apply list_elem_of_fmap. exists y. split; [reflexivity|].
    apply elem_of_seqZ. lia.
  - apply elem_of_seqZ. lia.
Qed.

Lemma elem_of_grid_points {T : Type} (G : Grid T) (q : Point) :
  inbounds G q = true -> q ∈ grid_points G.
Proof.
  destruct q as [x y]. intros Hin%inbounds_spec. unfold grid_points.
  apply list_elem_of_bind. exists y. split.
  - apply list_elem_of_fmap. exists x. split; [reflexivity|].
    apply elem_of_range. tauto.
  - apply elem_of_range. tauto.
Qed.


Section ShortestPathSpec.

Context {T : Type} `{EqDecision T}.
Variable order : bool -> list Direction.
Variable G : Grid T.
Variables exclude include : option (filter T).
Variable include_diagonal : bool.
Variable overflow : option bool.
Variables s t : Point.

Local Abbreviation step :=
  (step_to order G exclude include include_diagonal overflow).
Local Abbreviation linked :=
  (connected order G exclude include include_diagonal overflow s t).
Local Abbreviation path_of fuel :=
  (shortest_path order fuel G (inl s) (inl t) exclude include include_diagonal
     overflow).

Lemma shortest_path_found :
  grid_inv G -> linked ->
  exists n path, forall fuel, (n <= fuel)%nat -> path_of fuel = Some (Ok path).
Proof.
  intros Hinv Hlinked. destruct (rtc_walk _ _ _ Hlinked) as [lt0 Hlt0].
  destruct (shortest_path_settles order G exclude include include_diagonal
              overflow s t (list_to_set (box s (Z.of_nat (length lt0)))))
    as (n & r & Hrun & Hr).
  - intros p. apply neighbors_total, Hinv.
  - intros c q l Hl Hmin Hcq. apply elem_of_list_to_set.
    specialize (Hmin lt0 Hlt0).
    apply walk_near in Hl. apply step_to_near in Hcq.
    apply elem_of_box; lia.
  - apply elem_of_list_to_set, elem_of_box; lia.
  - destruct r as [path|e]; [eauto|]. destruct Hr as [_ Hnot]. contradiction.
Qed.

Lemma shortest_path_not_found :
  grid_inv G -> _allow_overflow G overflow = false -> ~ linked ->
  exists n, forall fuel, (n <= fuel)%nat ->
    path_of fuel = Some (Raise NoPathFound).
Proof.
  intros Hinv Hov Hnot.
  destruct (shortest_path_settles order G exclude include include_diagonal
              overflow s t ({[s]} ∪ list_to_set (grid_points G)))
    as (n & r & Hrun & Hr).
  - intros p. apply neighbors_total, Hinv.
  - intros c q l _ _ Hcq. apply elem_of_union. right.
    apply elem_of_list_to_set, elem_of_grid_points.
    exact (step_to_inbounds order G exclude include include_diagonal overflow
             c q Hov Hcq).
  - apply elem_of_union. left. apply elem_of_singleton. reflexivity.
  - destruct r as [path|e]; [contradiction|].
    destruct Hr as [-> _]. eauto.
Qed.

(** C4, as the code has it: on a grid of the data model, with source and
    target given as points, [shortest_path] raises "No path found" only if
    the target is not reachable from the source through the filtered
    neighbour relation, and, when overflow is not in effect, whenever the
    target is not reachable; when a path exists it returns one, which runs
    from the source to the target inclusive, each point a neighbour step
    from the one before, and no path is shorter. *)
Theorem shortest_path_raises_iff_unreachable :
  grid_inv G ->
  (forall fuel, path_of fuel = Some (Raise NoPathFound) -> ~ linked) /\
  (forall fuel path, path_of fuel = Some (Ok path) ->
     linked /\ walk step s path t /\
     head path = Some s /\ last path = Some t /\
     forall lt, walk step s lt t -> (length path <= length lt)%nat) /\
  (linked ->
   exists n path, forall fuel, (n <= fuel)%nat ->
     path_of fuel = Some (Ok path)) /\
  (_allow_overflow G overflow = false -> ~ linked ->
   exists n, forall fuel, (n <= fuel)%nat ->
     path_of fuel = Some (Raise NoPathFound)).
Proof.
  intros Hinv. split; [|split; [|split]].
  - intros fuel. apply shortest_path_NoPathFound.
    intros p. apply neighbors_total, Hinv.
  - intros fuel path Hpath.
    destruct (shortest_path_Ok _ _ _ _ _ _ _ _ _ _ Hpath) as [Hwalk Hmin].
    split; [eapply walk_rtc, Hwalk|]. split; [exact Hwalk|].
    destruct (walk_ends _ _ _ _ Hwalk) as [Hhead Hlast]. auto.
  - apply shortest_path_found, Hinv.
  - apply shortest_path_not_found, Hinv.
Qed.

End ShortestPathSpec.

Lemma shortest_path_raises_iff_unreachable_witness :
  let G := mkGrid 2 2 [Some 1; Some 2; Some 3; Some 4] false in
  let order := fun b : bool =>
    if b then all_directions else cardinal_directions in
  shortest_path order 8 G (inl (0, 0)) (inl (1, 1)) None None false None
    = Some (Ok [(0, 0); (0, 1); (1, 1)]) /\
  walk (step_to order G None None false None) (0, 0)
    [(0, 0); (0, 1); (1, 1)] (1, 1).
Proof.
  intros G order.
  assert (Hinv : grid_inv G) by (unfold grid_inv; simpl; lia).
  split; [reflexivity|].
  apply (proj1 (proj2
    (shortest_path_raises_iff_unreachable order G None None false None
       (0, 0) (1, 1) Hinv)) 8%nat _ eq_refl).
Defined.

(** ** A search that never ends *)

Lemma foldl_discover_seen (c : Point) (l queue : list Point)
    (seen : gset Point) (preds : gmap Point (option Point)) :
  (forall q, q ∈ l -> q ∈ seen) ->
  foldl (discover c) (queue, seen, preds) l = (queue, seen, preds).
Proof.
  induction l as [|q l IH]; intros Hl; [reflexivity|].
  cbn [foldl]. unfold discover at 2.
  destruct (decide (q ∈ seen)) as [_|Hq].
  - apply IH. intros q' Hq'. apply Hl, list_elem_of_further, Hq'.
  - destruct Hq. apply Hl, list_elem_of_here.
Qed.

Lemma foldl_discover_single (c a : Point) (l queue : list Point)
    (seen : gset Point) (preds : gmap Point (option Point)) :
  a ∉ seen -> a ∈ l -> (forall q, q ∈ l -> q = a \/ q ∈ seen) ->
  foldl (discover c) (queue, seen, preds) l
  = (queue ++ [a], {[a]} ∪ seen, <[a := Some c]> preds).
Proof.
  intros Ha. induction l as [|q l IH]; intros Hin Hl.
  - apply elem_of_nil in Hin. destruct Hin.
  - cbn [foldl]. unfold discover at 2.
    destruct (decide (q ∈ seen)) as [Hq|Hq].
    + apply IH.
      * apply elem_of_cons in Hin as [Heq|Hin']; [congruence|exact Hin'].
      * intros q' Hq'. apply Hl, list_elem_of_further, Hq'.
    + destruct (Hl q (list_elem_of_here _ _)) as [->|Hq']; [|contradiction].
      apply foldl_discover_seen. intros q' Hq'.
      apply elem_of_union.
      destruct (Hl q' (list_elem_of_further _ _ _ Hq')) as [->|Hs];
        [left; apply elem_of_singleton; reflexivity|right; exact Hs].
Qed.

Section Endless.

Variable order : bool -> list Direction.
Hypothesis order_canonical : canonical_order order.

(** The 1x1 grid with overflow on, and a filter that leaves the upper
    half of the column x = 0 passable. *)
Local Abbreviation G1 := (mkGrid 1 1 [Some 0] true).
Local Abbreviation column :=
  (Some (Callable (fun (p : Point) (_ : cell Z) =>
                     negb ((p.1 =? 0) && (0 <=? p.2))))).
Local Abbreviation step1 := (step_to order G1 column None false None).

Lemma G1_inv : grid_inv G1.
Proof. unfold grid_inv. simpl. lia. Qed.

Lemma G1_get (q : Point) : get G1 q None None = Ok (Some 0).
Proof.
  destruct q as [x y]. unfold get.
  destruct (inbounds G1 (x, y)) eqn:Hin.
  - apply inbounds_spec in Hin. simpl in Hin.
    replace x with 0 by lia. replace y with 0 by lia. reflexivity.
  - unfold at_, py_mod. simpl. rewrite !Z.mod_1_r. reflexivity.
Qed.

Lemma step1_iff (p q : Point) :
  step1 p q <->
  (exists d, d ∈ cardinal_directions /\ q = neighbor p d) /\
  q.1 = 0 /\ 0 <= q.2.
Proof.
  destruct order_canonical as [Hcard _]. split.
  - intros (d & c & Hd & -> & _ & Hinc)%step_to_inv.
    rewrite Hcard in Hd. split; [eauto|].
    unfold _should_include in Hinc. simpl in Hinc.
    rewrite andb_true_r, negb_involutive in Hinc.
    apply andb_true_iff in Hinc as [Hx%Z.eqb_eq Hy%Z.leb_le]. auto.
  - intros [(d & Hd & ->) [Hx Hy]].
    apply (step_to_intro order G1 column None false None p d 0 G1_inv).
    + rewrite Hcard. exact Hd.
    + apply G1_get.
    + unfold _should_include. simpl.
      rewrite andb_true_r, negb_involutive.
      apply andb_true_iff. split; [apply Z.eqb_eq|apply Z.leb_le]; assumption.
Qed.

Lemma step1_from_column (n : Z) (q : Point) :
  0 <= n ->
  (step1 (0, n) q <-> q = (0, n + 1) \/ (1 <= n /\ q = (0, n - 1))).
Proof.
  intros Hn. rewrite step1_iff. split.
  - intros [(d & Hd & ->) [Hx Hy]]. unfold cardinal_directions in Hd.
    repeat (apply elem_of_cons in Hd as [->|Hd]); simpl in *;
      try (apply elem_of_nil in Hd; destruct Hd);
      try discriminate.
    + right. split; [lia|reflexivity].
    + left. reflexivity.
  - intros [->|[Hn1 ->]]; simpl.
    + split; [|lia]. exists DOWN. split; [set_solver|reflexivity].
    + split; [|lia]. exists UP. split; [set_solver|reflexivity].
Qed.

Lemma column_closed (p : Point) : rtc step1 (0, 0) p -> p.1 = 0.
Proof.
  revert p. apply rtc_ind_r; [reflexivity|].
  intros p q _ Hpq _. apply step1_iff in Hpq. tauto.
Qed.

Lemma search_climbs (fuel : nat) (n : Z) (seen : gset Point)
    (preds : gmap Point (option Point)) :
  0 <= n ->
  (forall p : Point, p ∈ seen <-> p.1 = 0 /\ 0 <= p.2 <= n) ->
  search order fuel G1 (1, 0) column None false None [(0, n)] seen preds
  = None.
Proof.
  revert n seen preds.
  induction fuel as [|fuel IH]; intros n seen preds Hn Hseen; [reflexivity|].
  simpl. destruct (decide ((0, n) = (1, 0))) as [[=]|_].
  pose proof (neighbors_total order G1 column None false None (0, n) G1_inv)
    as Htot.
  destruct (neighbors order G1 (0, n) column None None false)
    as [ns|e] eqn:Hns; [|destruct Htot].
  assert (Hstep : forall q, q ∈ (fun m => m.1.1) <$> ns <-> step1 (0, n) q).
  { intros q. split; [intros Hq; exists ns; auto|].
    intros (ns' & Hns' & Hq). congruence. }
  rewrite (foldl_discover_single (0, n) (0, n + 1)).
  - apply IH; [lia|]. intros [x y].
    rewrite elem_of_union, elem_of_singleton, Hseen. simpl.
    split; [intros [[= -> ->]|?]; lia|].
    intros [-> Hy]. destruct (decide (y = n + 1)) as [->|]; [auto|right; lia].
  - rewrite Hseen. simpl. lia.
  - apply Hstep, step1_from_column; auto.
  - intros q Hq%Hstep%step1_from_column; [|exact Hn].
    destruct Hq as [->|[Hn1 ->]]; [auto|].
    right. apply Hseen. simpl. lia.
Qed.

End Endless.

(** C4 as stated fails: on a 1x1 grid with overflow on, the neighbours are
    unwrapped points, the passable ones here the upper half of a column;
    the target lies off that column and is not reachable, yet the search
    never stops and so never raises. *)
Lemma shortest_path_unreachable_never_raises :
  grid_inv (mkGrid 1 1 [Some 0] true) /\
  forall order, canonical_order order ->
    let G := mkGrid 1 1 [Some 0] true in
    let exclude :=
      Some (Callable (fun (p : Point) (_ : cell Z) =>
                        negb ((p.1 =? 0) && (0 <=? p.2)))) in
    ~ connected order G exclude None false None (0, 0) (1, 0) /\
    forall fuel,
      shortest_path order fuel G (inl (0, 0)) (inl (1, 0)) exclude None
        false None = None.
Proof.
  split; [apply G1_inv|].
  intros order Horder G exclude. split.
  - intros Hconn. apply (column_closed order Horder) in Hconn. discriminate.
  - intros fuel. unfold shortest_path. simpl.
    rewrite (search_climbs order Horder fuel 0); [reflexivity|lia|].
    intros [x y]. rewrite elem_of_singleton. simpl.
    split; [intros [= -> ->]; lia|]. intros [-> Hy]. f_equal. lia.
Qed.

(** ** The all-passable 3x3 grid *)

Section Passable.

Context {T : Type} `{EqDecision T}.
Variable order : bool -> list Direction.
Hypothesis order_canonical : canonical_order order.
Variable G : Grid T.
Hypothesis G_inv : grid_inv G.
Hypothesis G_passable : Forall (fun c => c <> None) (data G).
Variables exclude include : option (filter T).
Hypothesis no_filter :
  forall p c, _should_include p c exclude include = true.
Variable overflow : option bool.

Lemma get_passable (q : Point) :
  inbounds G q = true -> exists c, get G q None overflow = Ok (Some c).
Proof.
  intros Hin. rewrite get_inbounds, at_inbounds by exact Hin.
  destruct q as [x y]. apply inbounds_spec in Hin.
  destruct G_inv as (_ & _ & Htile).
  destruct (py_getitem_lookup (data G) (y * w G + x)) as (c & Hc & Hget).
  { rewrite <- Htile. apply cell_index_bound; tauto. }
  rewrite Forall_forall in G_passable.
  destruct c as [c|]; [eauto|].
  destruct (G_passable None); [|reflexivity].
  eapply list_elem_of_lookup_2, Hc.
Qed.

Lemma step_passable (diag : bool) (p : Point) (d : Direction) :
  d ∈ order diag -> inbounds G (neighbor p d) = true ->
  step_to order G exclude include diag overflow p (neighbor p d).
Proof.
  intros Hd Hin. destruct (get_passable _ Hin) as [c Hc].
  eapply step_to_intro; [exact G_inv|exact Hd|exact Hc|apply no_filter].
Qed.

Lemma step_manhattan (p q : Point) :
  step_to order G exclude include false overflow p q ->
  Z.abs (q.1 - p.1) + Z.abs (q.2 - p.2) <= 1.
Proof.
  intros (d & c & Hd & -> & _)%step_to_inv.
  destruct order_canonical as [Hcard _]. rewrite Hcard in Hd.
  destruct p as [x y]. unfold cardinal_directions in Hd.
  repeat (apply elem_of_cons in Hd as [->|Hd]); simpl;
    try (apply elem_of_nil in Hd; destruct Hd); lia.
Qed.

Lemma walk_manhattan (s c : Point) (l : list Point) :
  walk (step_to order G exclude include false overflow) s l c ->
  Z.abs (c.1 - s.1) + Z.abs (c.2 - s.2) <= Z.of_nat (length l) - 1.
Proof.
  intros Hw. induction Hw as [|l p q Hw IH Hpq]; [simpl; lia|].
  apply step_manhattan in Hpq. rewrite length_app. simpl. lia.
Qed.

End Passable.

Section ThreeByThree.

Context {T : Type} `{EqDecision T}.
Variable order : bool -> list Direction.
Hypothesis order_canonical : canonical_order order.
Variable G : Grid T.
Hypothesis G_w : w G = 3.
Hypothesis G_h : h G = 3.
Hypothesis G_len : length (data G) = 9%nat.
Hypothesis G_passable : Forall (fun c => c <> None) (data G).
Variables exclude include : option (filter T).
Hypothesis no_filter :
  forall p c, _should_include p c exclude include = true.

Lemma G3_inv : grid_inv G.
Proof. unfold grid_inv. rewrite G_w, G_h, G_len. lia. Qed.

Lemma G3_inbounds (x y : Z) :
  0 <= x < 3 -> 0 <= y < 3 -> inbounds G (x, y) = true.
Proof. intros Hx Hy. apply inbounds_spec. rewrite G_w, G_h. auto. Qed.

Lemma G3_step (diag : bool) (p : Point) (d : Direction) :
  d ∈ order diag ->
  0 <= (neighbor p d).1 < 3 -> 0 <= (neighbor p d).2 < 3 ->
  step_to order G exclude include diag None p (neighbor p d).
Proof.
  intros Hd Hx Hy.
  apply (step_passable order G G3_inv G_passable exclude include no_filter);
    [exact Hd|].
  destruct (neighbor p d) as [x y]. apply G3_inbounds; assumption.
Qed.

Lemma G3_walk_orthogonal :
  walk (step_to order G exclude include false None) (0, 0)
    [(0, 0); (1, 0); (2, 0); (2, 1); (2, 2)] (2, 2).
Proof.
  destruct order_canonical as [Hcard _].
  assert (Hright : RIGHT ∈ order false) by (rewrite Hcard; set_solver).
  assert (Hdown : DOWN ∈ order false) by (rewrite Hcard; set_solver).
  apply (walk_snoc _ _ [(0, 0); (1, 0); (2, 0); (2, 1)] (2, 1) (2, 2));
    [|apply (G3_step false (2, 1) DOWN Hdown); simpl; lia].
  apply (walk_snoc _ _ [(0, 0); (1, 0); (2, 0)] (2, 0) (2, 1));
    [|apply (G3_step false (2, 0) DOWN Hdown); simpl; lia].
  apply (walk_snoc _ _ [(0, 0); (1, 0)] (1, 0) (2, 0));
    [|apply (G3_step false (1, 0) RIGHT Hright); simpl; lia].
  apply (walk_snoc _ _ [(0, 0)] (0, 0) (1, 0));
    [|apply (G3_step false (0, 0) RIGHT Hright); simpl; lia].
  constructor.
Qed.

Lemma G3_walk_diagonal :
  walk (step_to order G exclude include true None) (0, 0)
    [(0, 0); (1, 1); (2, 2)] (2, 2).
Proof.
  destruct order_canonical as [_ Hall].
  assert (Hd : BOTTOM_RIGHT ∈ order true) by (rewrite Hall; set_solver).
  apply (walk_snoc _ _ [(0, 0); (1, 1)] (1, 1) (2, 2));
    [|apply (G3_step true (1, 1) BOTTOM_RIGHT Hd); simpl; lia].
  apply (walk_snoc _ _ [(0, 0)] (0, 0) (1, 1));
    [|apply (G3_step true (0, 0) BOTTOM_RIGHT Hd); simpl; lia].
  constructor.
Qed.

(** C3: on a 3x3 grid whose nine cells all hold a value and whose filters
    reject nothing, [shortest_path] from (0,0) to (2,2) returns, once the
    fuel suffices, a sequence of exactly 5 points from (0,0) to (2,2)
    without diagonals and of exactly 3 points with them, whatever the
    canonical direction order and the grid's overflow flag. *)
Theorem shortest_path_3x3 :
  (exists n path,
     (forall fuel, (n <= fuel)%nat ->
        shortest_path order fuel G (inl (0, 0)) (inl (2, 2)) exclude include
          false None = Some (Ok path)) /\
     length path = 5%nat /\
     head path = Some (0, 0) /\ last path = Some (2, 2)) /\
  (exists n path,
     (forall fuel, (n <= fuel)%nat ->
        shortest_path order fuel G (inl (0, 0)) (inl (2, 2)) exclude include
          true None = Some (Ok path)) /\
     length path = 3%nat /\
     head path = Some (0, 0) /\ last path = Some (2, 2)).
Proof.
  split.
  - destruct (shortest_path_found order G exclude include false None
                (0, 0) (2, 2) G3_inv) as (n & path & Hrun).
    { eapply walk_rtc, G3_walk_orthogonal. }
    exists n, path. split; [exact Hrun|].
    destruct (shortest_path_Ok _ _ _ _ _ _ _ _ _ _ (Hrun n (le_n n)))
      as [Hwalk Hmin].
    destruct (walk_ends _ _ _ _ Hwalk) as [Hhead Hlast].
    split; [|auto].
    specialize (Hmin _ G3_walk_orthogonal). simpl in Hmin.
    apply (walk_manhattan order order_canonical) in Hwalk.
    simpl in Hwalk. lia.
  - destruct (shortest_path_found order G exclude include true None
                (0, 0) (2, 2) G3_inv) as (n & path & Hrun).
    { eapply walk_rtc, G3_walk_diagonal. }
    exists n, path. split; [exact Hrun|].
    destruct (shortest_path_Ok _ _ _ _ _ _ _ _ _ _ (Hrun n (le_n n)))
      as [Hwalk Hmin].
    destruct (walk_ends _ _ _ _ Hwalk) as [Hhead Hlast].
    split; [|auto].
    specialize (Hmin _ G3_walk_diagonal). simpl in Hmin.
    apply walk_near in Hwalk. simpl in Hwalk. lia.
Qed.

End ThreeByThree.

Lemma shortest_path_3x3_witness :
  let G := mkGrid 3 3 (Some <$> [1; 2; 3; 4; 5; 6; 7; 8; 9]) false in
  let order := fun b : bool =>
    if b then all_directions else cardinal_directions in
  exists n path,
    (forall fuel, (n <= fuel)%nat ->
       shortest_path order fuel G (inl (0, 0)) (inl (2, 2)) None None
         false None = Some (Ok path)) /\
    length path = 5%nat.
Proof.
  intros G order.
  assert (Horder : canonical_order order) by (split; reflexivity).
  assert (Hpass : Forall (fun c : cell Z => c <> None) (data G))
    by (repeat constructor; discriminate).
  destruct (shortest_path_3x3 order Horder G eq_refl eq_refl eq_refl Hpass
              None None (fun _ _ => eq_refl))
    as [(n & path & Hrun & Hlen & _) _].
  exists n, path. split; [exact Hrun|exact Hlen].
Defined.

(** ** reachable *)

Lemma forall_orders_sound (universe : list Direction)
    (P : list Direction -> bool) (n : nat) (prefix l : list Direction) :
  forall_orders universe n prefix P = true ->
  length l = n -> (forall d, d ∈ l -> d ∈ universe) ->
  NoDup (prefix ++ l) -> P (prefix ++ l) = true.
Proof.
  revert prefix l. induction n as [|n IH]; intros prefix l Hall Hlen Hsub Hnd.
  - destruct l; [|discriminate]. rewrite app_nil_r. exact Hall.
  - destruct l as [|d l]; [discriminate|]. simpl in Hall, Hlen.
    rewrite forallb_forall in Hall.
    specialize (Hall d). rewrite <- list_elem_of_In in Hall.
    specialize (Hall (Hsub d (list_elem_of_here _ _))).
    rewrite bool_decide_eq_false_2 in Hall.
    + replace (prefix ++ d :: l) with ((prefix ++ [d]) ++ l)
        by (rewrite <- app_assoc; reflexivity).
      apply IH; [exact Hall|lia| |].
      * intros d' Hd'. apply Hsub, list_elem_of_further, Hd'.
      * rewrite <- app_assoc. exact Hnd.
    + apply NoDup_app in Hnd as (_ & Hdisj & _).
      intros Hd. apply (Hdisj d Hd), list_elem_of_here.
Qed.

Lemma forall_orders_permutation (universe : list Direction)
    (P : list Direction -> bool) (l : list Direction) :
  NoDup universe ->
  forall_orders universe (length universe) [] P = true ->
  l ≡ₚ universe -> P l = true.
Proof.
  intros Hnd Hall Hperm.
  apply (forall_orders_sound universe P (length universe) [] l Hall).
  - rewrite Hperm. reflexivity.
  - intros d Hd. rewrite <- Hperm. exact Hd.
  - simpl. rewrite Hperm. exact Hnd.
Qed.

Section Reachable.

Context {T : Type} `{EqDecision T}.
Implicit Types (G : Grid T) (exclude include : option (filter T)).

Lemma neighbors_among_no_filter G candidates exclude include overflow :
  (forall p c, _should_include p c exclude include = true) ->
  neighbors_among G candidates exclude include overflow
  = neighbors_among G candidates None None overflow.
Proof.
  intros Hno. induction candidates as [|[q d] candidates IH]; [reflexivity|].
  simpl. rewrite IH.
  destruct (get G q None overflow) as [[c|]|e]; simpl; try reflexivity.
  rewrite Hno. reflexivity.
Qed.

Lemma reachable_loop_ext (order order' : bool -> list Direction)
    (fuel : nat) G exclude include
    (exclude' include' : option (filter T)) (min_steps : Z) (max_steps : option Z) (diag : bool)
    (overflow : option bool) (queue : list (Point * Z)) (seen : gset Point) :
  (forall p, neighbors order G p exclude include overflow diag
             = neighbors order' G p exclude' include' overflow diag) ->
  reachable_loop order fuel G exclude include min_steps max_steps diag
    overflow queue seen
  = reachable_loop order' fuel G exclude' include' min_steps max_steps diag
      overflow queue seen.
Proof.
  intros Hext. revert queue seen.
  induction fuel as [|fuel IH]; intros queue seen; [reflexivity|].
  simpl. destruct queue as [|[p steps] queue]; [reflexivity|].
  rewrite IH, Hext.
  destruct (neighbors order' G p exclude' include' overflow diag)
    as [ns|e]; [|reflexivity].
  destruct (foldl (discover_step steps) (queue, seen) ((fun n => n.1.1) <$> ns))
    as [q' s'].
  rewrite IH. reflexivity.
Qed.

Lemma reachable_loop_mono (order : bool -> list Direction)
    (fuel fuel' : nat) G exclude include
    (min_steps : Z) (max_steps : option Z) (diag : bool)
    (overflow : option bool) (queue : list (Point * Z)) (seen : gset Point)
    (ys : list (Point * Z)) (e : ending) :
  reachable_loop order fuel G exclude include min_steps max_steps diag
    overflow queue seen = (ys, e) ->
  e <> Running -> (fuel <= fuel')%nat ->
  reachable_loop order fuel' G exclude include min_steps max_steps diag
    overflow queue seen = (ys, e).
Proof.
  revert fuel' queue seen ys.
  induction fuel as [|fuel IH]; intros fuel' queue seen ys Hr He Hle.
  - injection Hr as <- <-. congruence.
  - destruct fuel' as [|fuel']; [lia|]. simpl in Hr |- *.
    destruct queue as [|[p steps] queue]; [exact Hr|].
    destruct (match max_steps with Some m => m <? steps | None => false end).
    + apply IH; [exact Hr|exact He|lia].
    + destruct (neighbors order G p exclude include overflow diag)
        as [ns|err]; [|exact Hr].
      destruct (foldl (discover_step steps) (queue, seen)
                  ((fun n => n.1.1) <$> ns)) as [q' s'].
      destruct (reachable_loop order fuel G exclude include min_steps
                  max_steps diag overflow q' s') as [later e'] eqn:Hlater.
      injection Hr as <- <-.
      rewrite (IH fuel' q' s' later Hlater He) by lia. reflexivity.
Qed.

End Reachable.

Section ReachableThreeByThree.

Context {T : Type} `{EqDecision T}.

Lemma orders_checked_3x3 (a0 a1 a2 a3 a4 a5 a6 a7 a8 : T) (flag : bool) :
  forall_orders cardinal_directions (length cardinal_directions) []
    (reachable_check 32
       (mkGrid 3 3
          [Some a0; Some a1; Some a2; Some a3; Some a4; Some a5;
           Some a6; Some a7; Some a8] flag)) = true.
Proof. destruct flag; vm_compute; reflexivity. Qed.

Lemma any_order_checked_3x3 (order : bool -> list Direction)
    (a0 a1 a2 a3 a4 a5 a6 a7 a8 : T) (flag : bool) :
  order false ≡ₚ cardinal_directions ->
  reachable_check 32
    (mkGrid 3 3
       [Some a0; Some a1; Some a2; Some a3; Some a4; Some a5;
        Some a6; Some a7; Some a8] flag) (order false) = true.
Proof.
  intros Hcard.
  assert (Hnd : NoDup cardinal_directions)
    by (apply (bool_decide_unpack _); vm_compute; exact I).
  exact (forall_orders_permutation cardinal_directions _ (order false) Hnd
           (orders_checked_3x3 a0 a1 a2 a3 a4 a5 a6 a7 a8 flag) Hcard).
Qed.

Lemma reachable_check_sound (fuel0 : nat) (order : bool -> list Direction)
    (G : Grid T) (exclude include : option (filter T)) :
  (forall p c, _should_include p c exclude include = true) ->
  reachable_check fuel0 G (order false) = true ->
  exists ys,
    (forall fuel, (fuel0 <= fuel)%nat ->
       reachable order fuel G (1, 1) exclude include 1 (Some 1) false None
       = (ys, Exhausted)) /\
    ys ≡ₚ [((1, 0), 1); ((0, 1), 1); ((2, 1), 1); ((1, 2), 1)] /\
    forall k, ((1, 1), k) ∉ ys.
Proof.
  intros Hno Hall.
  unfold reachable_check in Hall. unfold reachable in Hall |- *.
  rewrite (reachable_loop_ext (fun _ => order false) order fuel0 _ None None
             exclude include) in Hall.
  2:{ intros p. unfold neighbors. symmetry.
      apply neighbors_among_no_filter, Hno. }
  match type of Hall with
  | context [reachable_loop ?o ?f ?g ?ex ?inc ?mi ?ma ?dg ?ov ?q ?sn] =>
      destruct (reachable_loop o f g ex inc mi ma dg ov q sn)
        as [ys e] eqn:Hrun
  end.
  destruct e; try discriminate.
  apply bool_decide_eq_true in Hall.
  exists ys. split; [|split; [exact Hall|]].
  - intros fuel Hfuel.
    apply (reachable_loop_mono _ _ _ _ _ _ _ _ _ _ _ _ _ _ Hrun);
      [discriminate|lia].
  - intros k Hk. rewrite Hall in Hk.
    repeat (apply elem_of_cons in Hk as [[=]|Hk]).
    apply elem_of_nil in Hk. exact Hk.
Qed.

(** C5: on a 3x3 grid whose nine cells all hold a value and whose filters
    reject nothing, [reachable((1,1), max_steps=1, include_diagonal=False)]
    runs to exhaustion and yields the four orthogonal neighbours of (1,1),
    each once and each with step count 1, and never the point (1,1),
    whatever the canonical direction order and the overflow flag. *)
Theorem reachable_3x3 (order : bool -> list Direction) (G : Grid T)
    (exclude include : option (filter T)) :
  canonical_order order ->
  w G = 3 -> h G = 3 -> length (data G) = 9%nat ->
  Forall (fun c => c <> None) (data G) ->
  (forall p c, _should_include p c exclude include = true) ->
  exists ys,
    (forall fuel, (32 <= fuel)%nat ->
       reachable order fuel G (1, 1) exclude include 1 (Some 1) false None
       = (ys, Exhausted)) /\
    ys ≡ₚ [((1, 0), 1); ((0, 1), 1); ((2, 1), 1); ((1, 2), 1)] /\
    forall k, ((1, 1), k) ∉ ys.
Proof.
  intros [Hcard _] Hw Hh Hlen Hpass Hno.
  destruct G as [wd ht cells flag]. simpl in Hw, Hh, Hlen, Hpass. subst wd ht.
  do 9 (destruct cells as [|[?|] cells];
        [discriminate| |apply Forall_cons in Hpass as [[] _]; reflexivity];
        apply Forall_cons in Hpass as [_ Hpass]).
  destruct cells; [|discriminate].
  apply reachable_check_sound; [exact Hno|].
  apply any_order_checked_3x3, Hcard.
Qed.

End ReachableThreeByThree.

Lemma reachable_3x3_witness :
  let G := mkGrid 3 3 (Some <$> [1; 2; 3; 4; 5; 6; 7; 8; 9]) true in
  let order := fun b : bool =>
    if b then all_directions else cardinal_directions in
  exists ys,
    reachable order 32 G (1, 1) None None 1 (Some 1) false None
      = (ys, Exhausted) /\
    ys ≡ₚ [((1, 0), 1); ((0, 1), 1); ((2, 1), 1); ((1, 2), 1)].
Proof.
  intros G order.
  assert (Horder : canonical_order order) by (split; reflexivity).
  assert (Hpass : Forall (fun c : cell Z => c <> None) (data G))
    by (repeat constructor; discriminate).
  destruct (reachable_3x3 order G None None Horder eq_refl eq_refl eq_refl
              Hpass (fun _ _ => eq_refl)) as (ys & Hrun & Hperm & _).
  exists ys. split; [apply Hrun; lia|exact Hperm].
Defined.

(** * Further properties of the grid *)

(** ** fill *)

Lemma py_repeat_singleton {A} (v : A) (n : Z) :
  py_repeat [v] n = replicate (Z.to_nat n) v.
Proof.
  unfold py_repeat. induction (Z.to_nat n) as [|k IH]; [reflexivity|].
  simpl. rewrite IH. reflexivity.
Qed.

Lemma py_repeat_replicate {A} (v : A) (k : nat) (n : Z) :
  py_repeat (replicate k v) n = replicate (Z.to_nat n * k) v.
Proof.
  unfold py_repeat. induction (Z.to_nat n) as [|m IH]; [reflexivity|].
  simpl. rewrite IH, replicate_add. reflexivity.
Qed.

Section Fill.

Context {T : Type} `{EqDecision T}.

(** X1: [fill] keeps the shape and the flag, leaves data that tile the shape
    whatever the data were before, and every point inside the grid then
    reads the value. *)
Theorem fill_spec (G : Grid T) (value : cell T) :
  0 <= w G -> 0 <= h G ->
  w (fill G value) = w G /\ h (fill G value) = h G /\
  allow_overflow (fill G value) = allow_overflow G /\
  tiles (fill G value) /\
  data (fill G value) = replicate (Z.to_nat (w G * h G)) value /\
  forall p overflow, inbounds G p = true ->
    at_ (fill G value) p overflow = Ok value.
Proof.
  intros Hw Hh.
  assert (Hdata : data (fill G value)
                  = replicate (Z.to_nat (w G * h G)) value).
  { simpl. rewrite py_repeat_singleton, py_repeat_replicate.
    f_equal. rewrite Z2Nat.inj_mul by lia. lia. }
  do 3 (split; [reflexivity|]).
  split; [|split; [exact Hdata|]].
  - unfold tiles. rewrite Hdata, length_replicate. simpl. nia.
  - intros [x y] overflow Hin.
    rewrite at_inbounds by exact Hin.
    apply inbounds_spec in Hin. simpl fst. simpl snd.
    change (w (fill G value)) with (w G).
    destruct (py_getitem_lookup (data (fill G value)) (y * w G + x))
      as (c & Hc & ->).
    { rewrite Hdata, length_replicate.
      pose proof (cell_index_bound (w G) (h G) x y). lia. }
    rewrite Hdata in Hc. apply lookup_replicate in Hc as [-> _]. reflexivity.
Qed.

End Fill.

Lemma fill_spec_witness :
  let G := mkGrid 2 2 [Some 1; None] true in
  tiles (fill G (Some 7)) /\
  at_ (fill G (Some 7)) (1, 1) None = Ok (Some 7).
Proof.
  intros G.
  destruct (fill_spec G (Some 7)) as (_ & _ & _ & Htiles & _ & Hat);
    [simpl; lia|simpl; lia|].
  split; [exact Htiles|apply Hat; reflexivity].
Defined.

(** ** iter, find and findall *)

Lemma traverse_all_raise {A B} (f : A -> result B) (e : exn) (l : list A) :
  l <> [] -> (forall a, a ∈ l -> f a = Raise e) -> traverse f l = Raise e.
Proof.
  destruct l as [|a l]; [congruence|]. intros _ Hf. simpl.
  rewrite Hf by apply list_elem_of_here. reflexivity.
Qed.

Lemma mjoin_singletons {A B} (P : B -> bool) (g : A -> B) (l : list A) :
  mjoin ((fun a => if P (g a) then [g a] else []) <$> l)
  = base.filter (fun b => P b = true) (g <$> l).
Proof.
  induction l as [|a l IH]; [reflexivity|]. csimpl.
  rewrite filter_cons, IH. destruct (P (g a)) eqn:HP.
  - rewrite decide_True by reflexivity. reflexivity.
  - rewrite decide_False by discriminate. reflexivity.
Qed.

Lemma filter_all {A} (P : A -> Prop) `{!forall a, Decision (P a)}
    (l : list A) :
  (forall a, a ∈ l -> P a) -> base.filter P l = l.
Proof.
  induction l as [|a l IH]; intros Hall; [reflexivity|].
  rewrite filter_cons_True by apply Hall, list_elem_of_here.
  rewrite IH; [reflexivity|]. intros b Hb. apply Hall, list_elem_of_further, Hb.
Qed.

Section Iteration.

Context {T : Type} `{EqDecision T}.
Implicit Types (G : Grid T) (exclude include : option (filter T)).

(** The pairs of every flat index, in row-major order. *)
Local Abbreviation cells_of G :=
  (imap (fun i c => (point_of_index G i, c)) (data G)).
Local Abbreviation passes exclude include :=
  (fun pc : Point * cell T => _should_include pc.1 pc.2 exclude include = true).

Lemma point_of_index_inbounds G (i : nat) :
  grid_inv G -> (i < length (data G))%nat ->
  inbounds G (point_of_index G i) = true /\
  index_of_point G (point_of_index G i) = i.
Proof.
  intros (Hw & Hh & Htile) Hi. unfold point_of_index, index_of_point. simpl.
  pose proof (Z.mod_pos_bound (Z.of_nat i) (w G) Hw) as Hx.
  pose proof (Z.div_mod (Z.of_nat i) (w G) ltac:(lia)) as Hdm.
  split.
  - apply inbounds_spec. split; [exact Hx|]. nia.
  - rewrite (Z.mul_comm (Z.of_nat i / w G)). lia.
Qed.

Lemma index_of_point_inbounds G (p : Point) :
  grid_inv G -> inbounds G p = true ->
  (index_of_point G p < length (data G))%nat /\
  point_of_index G (index_of_point G p) = p /\
  at_ G p None = py_getitem (data G) (Z.of_nat (index_of_point G p)).
Proof.
  intros (Hw & Hh & Htile) Hin. rewrite at_inbounds by exact Hin.
  destruct p as [x y]. apply inbounds_spec in Hin.
  unfold point_of_index, index_of_point. simpl.
  pose proof (cell_index_bound (w G) (h G) x y) as Hb.
  rewrite Z2Nat.id by lia. split; [lia|]. split; [|reflexivity].
  f_equal.
  - rewrite Z.add_comm, Z.mod_add by lia. apply Z.mod_small. lia.
  - rewrite Z.add_comm, Z.div_add by lia. rewrite Z.div_small by lia. lia.
Qed.

Lemma iter_Ok G (reversed : bool) exclude include :
  w G <> 0 ->
  iter G reversed exclude include
  = Ok (base.filter (passes exclude include)
          (if reversed then reverse (cells_of G) else cells_of G)).
Proof.
  intros Hw. unfold iter.
  set (indexed := imap (fun i c => (i, c)) (data G)).
  set (l := if reversed then reverse indexed else indexed).
  rewrite (traverse_Ok _
    (fun ic : nat * cell T =>
       if _should_include (point_of_index G ic.1) ic.2 exclude include
       then [(point_of_index G ic.1, ic.2)] else [])).
  - simpl. f_equal.
    rewrite (mjoin_singletons
               (fun pc : Point * cell T =>
                  _should_include pc.1 pc.2 exclude include)
               (fun ic : nat * cell T => (point_of_index G ic.1, ic.2))).
    f_equal. unfold l, indexed. destruct reversed.
    + rewrite fmap_reverse, fmap_imap. reflexivity.
    + rewrite fmap_imap. reflexivity.
  - intros [i c] _. unfold iter_item, py_mod, py_floordiv. simpl.
    destruct (Z.eqb_spec (w G) 0); [contradiction|]. reflexivity.
Qed.

Lemma iter_zero_width G (reversed : bool) exclude include :
  w G = 0 ->
  iter G reversed exclude include
  = match data G with [] => Ok [] | _ => Raise ZeroDivisionError end.
Proof.
  intros Hw. unfold iter.
  destruct (data G) as [|c cells] eqn:Hdata.
  - destruct reversed; reflexivity.
  - rewrite (traverse_all_raise _ ZeroDivisionError); [reflexivity| |].
    + destruct reversed; [|discriminate].
      intros Hrev. apply (f_equal length) in Hrev.
      rewrite length_reverse in Hrev. discriminate.
    + intros [i c'] _. unfold iter_item, py_mod. simpl.
      rewrite Hw. reflexivity.
Qed.

(** X2: Iterating backwards yields what iterating forwards yields, in the
    opposite order, and the filters only select among what the unfiltered
    iteration yields: both hold for every grid and every filter, the
    division by a zero width included. *)
Theorem iter_reverse_and_filters G (reversed : bool) exclude include :
  iter G true exclude include
  = (do l <- iter G false exclude include; Ok (reverse l)) /\
  iter G reversed exclude include
  = (do l <- iter G reversed None None;
     Ok (base.filter (passes exclude include) l)).
Proof.
  destruct (decide (w G = 0)) as [Hw|Hw].
  - rewrite !iter_zero_width by exact Hw.
    destruct (data G); split; reflexivity.
  - rewrite !iter_Ok by exact Hw. simpl. split.
    + rewrite filter_reverse. reflexivity.
    + f_equal. f_equal. symmetry. apply filter_all.
      intros pc _. reflexivity.
Qed.

Lemma iter_cells G :
  grid_inv G ->
  exists items,
    iter G false None None = Ok items /\
    length items = length (data G) /\
    NoDup (items.*1) /\
    (forall (i : nat) p c, items !! i = Some (p, c) ->
       index_of_point G p = i /\ data G !! i = Some c) /\
    (forall p c, (p, c) ∈ items <->
       inbounds G p = true /\ at_ G p None = Ok c).
Proof.
  intros Hinv. pose proof Hinv as (Hw & Hh & Htile).
  exists (cells_of G).
  assert (Hlook : forall (i : nat) p c, cells_of G !! i = Some (p, c) <->
            p = point_of_index G i /\ data G !! i = Some c).
  { intros i p c. rewrite list_lookup_imap.
    destruct (data G !! i) as [c'|]; simpl; [|split; [discriminate|intros [_ [=]]]].
    split; [intros [= <- <-]; auto|intros [-> [= ->]]; reflexivity]. }
  split; [|split; [apply length_imap|split; [|split]]].
  - rewrite iter_Ok by lia. f_equal. apply filter_all.
    intros pc _. reflexivity.
  - apply NoDup_alt. intros i j p Hi Hj.
    apply list_lookup_fmap_Some in Hi as ([p1 c1] & -> & Hi).
    apply list_lookup_fmap_Some in Hj as ([p2 c2] & Heq & Hj).
    simpl in Heq. subst p2.
    apply Hlook in Hi as [Hp1 Hi]. apply Hlook in Hj as [Hp2 Hj].
    apply lookup_lt_Some in Hi, Hj.
    rewrite <- (proj2 (point_of_index_inbounds G i Hinv Hi)).
    rewrite <- (proj2 (point_of_index_inbounds G j Hinv Hj)).
    congruence.
  - intros i p c [-> Hc]%Hlook. split; [|exact Hc].
    apply point_of_index_inbounds; [exact Hinv|].
    eapply lookup_lt_Some, Hc.
  - intros p c. rewrite list_elem_of_lookup. split.
    + intros [i [-> Hc]%Hlook].
      pose proof (lookup_lt_Some _ _ _ Hc) as Hi.
      destruct (point_of_index_inbounds G i Hinv Hi) as [Hin Hidx].
      split; [exact Hin|].
      destruct (index_of_point_inbounds G _ Hinv Hin) as (_ & _ & ->).
      rewrite Hidx. unfold py_getitem.
      rewrite py_index_nonneg by lia. simpl.
      rewrite Nat2Z.id, Hc. reflexivity.
    + intros [Hin Hat].
      destruct (index_of_point_inbounds G p Hinv Hin) as (Hi & Hp & Hat').
      exists (index_of_point G p). apply Hlook. split; [auto|].
      rewrite Hat' in Hat. unfold py_getitem in Hat.
      rewrite py_index_nonneg in Hat by lia. simpl in Hat.
      rewrite Nat2Z.id in Hat.
      destruct (data G !! index_of_point G p); congruence.
Qed.

(** X3: On a grid of the data model the unfiltered iteration visits every
    point inside the grid exactly once, in row-major order, each with the
    cell [at] reads there. *)
Theorem iter_row_major G :
  grid_inv G ->
  exists items,
    iter G false None None = Ok items /\
    length items = length (data G) /\
    NoDup (items.*1) /\
    (forall (i : nat) p c, items !! i = Some (p, c) ->
       index_of_point G p = i /\ data G !! i = Some c) /\
    (forall p c, (p, c) ∈ items <->
       inbounds G p = true /\ at_ G p None = Ok c).
Proof. apply iter_cells. Qed.

End Iteration.

Lemma iter_row_major_witness :
  let G := mkGrid 2 2 [Some 1; Some 2; Some 3; Some 4] false in
  iter G false None None
  = Ok [((0, 0), Some 1); ((1, 0), Some 2); ((0, 1), Some 3); ((1, 1), Some 4)]
  /\ exists items, iter G false None None = Ok items /\ NoDup (items.*1).
Proof.
  intros G. split; [reflexivity|].
  assert (Hinv : grid_inv G) by (unfold grid_inv; simpl; lia).
  destruct (iter_row_major G Hinv) as (items & Hiter & _ & Hnd & _).
  exists items. split; [exact Hiter|exact Hnd].
Defined.

Section Finding.

Context {T : Type} `{EqDecision T}.
Implicit Types (G : Grid T) (value : cell T).

Lemma head_filter_imap (f : nat -> cell T -> Point * cell T)
    (l : list (cell T)) value :
  (forall i c, (f i c).2 = c) ->
  head ((base.filter (fun pc : Point * cell T => pc.2 = value) (imap f l)).*1)
  = (fun ic : nat * cell T => (f ic.1 ic.2).1)
      <$> list_find (fun c => c = value) l.
Proof.
  revert f. induction l as [|c l IH]; intros f Hf; [reflexivity|].
  rewrite imap_cons, filter_cons. csimpl. rewrite Hf.
  destruct (decide (c = value)) as [Hc|Hc]; [reflexivity|].
  rewrite (IH (f ∘ S)) by (intros i c'; apply Hf).
  destruct (list_find (fun c0 => c0 = value) l) as [[i c']|]; reflexivity.
Qed.

Lemma at_index G (p : Point) value :
  grid_inv G -> inbounds G p = true ->
  (at_ G p None = Ok value <-> data G !! index_of_point G p = Some value).
Proof.
  intros Hinv Hin.
  destruct (index_of_point_inbounds G p Hinv Hin) as (Hi & _ & ->).
  unfold py_getitem. rewrite py_index_nonneg by lia. simpl.
  rewrite Nat2Z.id.
  destruct (data G !! index_of_point G p); split; congruence.
Qed.

(** X4: On a grid of the data model [find] raises ValueError exactly when no
    cell equals the value; otherwise it returns a point inside the grid
    whose cell is the value and which comes first in row-major order among
    such points.  [findall] yields all of them, each once, and [find]
    returns the first point [findall] yields. *)
Theorem find_first_of_findall G value :
  grid_inv G ->
  (find G value = Raise ValueError <-> value ∉ data G) /\
  (forall p, find G value = Ok p ->
     inbounds G p = true /\ at_ G p None = Ok value /\
     forall q, inbounds G q = true -> at_ G q None = Ok value ->
       (index_of_point G p <= index_of_point G q)%nat) /\
  exists ps,
    findall G value = Ok ps /\ NoDup ps /\
    (forall q, q ∈ ps <-> inbounds G q = true /\ at_ G q None = Ok value) /\
    find G value = match ps with
                   | p :: _ => Ok p
                   | [] => Raise ValueError
                   end.
Proof.
  intros Hinv. pose proof Hinv as (Hw & Hh & Htile).
  assert (Hfind : find G value
            = match list_find (fun c => c = value) (data G) with
              | Some (i, _) => Ok (point_of_index G i)
              | None => Raise ValueError
              end).
  { unfold find, py_mod, py_floordiv.
    destruct (list_find _ (data G)) as [[i c]|]; [|reflexivity].
    destruct (Z.eqb_spec (w G) 0); [lia|]. reflexivity. }
  split; [|split].
  - rewrite Hfind.
    destruct (list_find _ (data G)) as [[i c]|] eqn:Hlf.
    + split; [discriminate|]. intros Hnot.
      apply list_find_Some in Hlf as (Hc & -> & _).
      destruct Hnot. eapply list_elem_of_lookup_2, Hc.
    + split; [|reflexivity]. intros _ Hin.
      apply list_find_None in Hlf. rewrite Forall_forall in Hlf.
      apply (Hlf value Hin). reflexivity.
  - intros p. rewrite Hfind.
    destruct (list_find _ (data G)) as [[i c]|] eqn:Hlf; [|discriminate].
    intros [= <-]. apply list_find_Some in Hlf as (Hc & -> & Hfirst).
    pose proof (lookup_lt_Some _ _ _ Hc) as Hi.
    destruct (point_of_index_inbounds G i Hinv Hi) as [Hin Hidx].
    split; [exact Hin|]. split.
    + apply at_index; [exact Hinv|exact Hin|]. rewrite Hidx. exact Hc.
    + intros q Hq Hat. rewrite Hidx.
      apply at_index in Hat; [|exact Hinv|exact Hq].
      destruct (decide (index_of_point G q < i)%nat) as [Hlt|]; [|lia].
      destruct (Hfirst _ _ Hat Hlt). reflexivity.
  - destruct (iter_cells G Hinv) as (items & Hiter & _ & Hnd & Hidx & Hmem).
    exists ((base.filter (fun pc : Point * cell T => pc.2 = value) items).*1).
    split; [unfold findall; rewrite Hiter; reflexivity|].
    split; [|split].
    + apply NoDup_fmap_fst.
      * intros p c1 c2 [_ H1]%list_elem_of_filter [_ H2]%list_elem_of_filter.
        apply Hmem in H1 as [_ H1]. apply Hmem in H2 as [_ H2]. congruence.
      * apply NoDup_filter. eapply NoDup_fmap_1, Hnd.
    + intros q. rewrite list_elem_of_fmap. split.
      * intros ([q' c] & -> & [Hc Hin]%list_elem_of_filter).
        simpl in Hc. subst c. apply Hmem, Hin.
      * intros Hq. exists (q, value). split; [reflexivity|].
        apply list_elem_of_filter. split; [reflexivity|apply Hmem, Hq].
    + assert (Hitems : items = imap (fun i c => (point_of_index G i, c)) (data G)).
      { rewrite iter_Ok in Hiter by lia. injection Hiter as <-.
        apply filter_all. intros pc _. reflexivity. }
      pose proof (head_filter_imap (fun i c => (point_of_index G i, c))
                    (data G) value (fun _ _ => eq_refl)) as Hhead.
      rewrite <- Hitems in Hhead. rewrite Hfind.
      destruct (list_find _ (data G)) as [[i c]|];
        destruct ((base.filter _ items).*1); simpl in Hhead; congruence.
Qed.

End Finding.

Lemma find_first_of_findall_witness :
  let G := mkGrid 2 2 [Some 1; Some 2; Some 2; Some 4] false in
  find G (Some 2) = Ok (1, 0) /\
  findall G (Some 2) = Ok [(1, 0); (0, 1)] /\
  (find G (Some 9) = Raise ValueError <-> Some 9 ∉ data G).
Proof.
  intros G. split; [reflexivity|]. split; [reflexivity|].
  assert (Hinv : grid_inv G) by (unfold grid_inv; simpl; lia).
  apply (proj1 (find_first_of_findall G (Some 9) Hinv)).
Defined.

(** ** swap *)

Lemma py_getitem_nat {A} (l : list A) (i : nat) (a : A) :
  l !! i = Some a -> py_getitem l (Z.of_nat i) = Ok a.
Proof.
  intros Ha. unfold py_getitem.
  rewrite py_index_nonneg by (apply lookup_lt_Some in Ha; lia).
  simpl. rewrite Nat2Z.id, Ha. reflexivity.
Qed.

Lemma py_setitem_nat {A} (l : list A) (i : nat) (a : A) :
  (i < length l)%nat -> py_setitem l (Z.of_nat i) a = Ok (<[i := a]> l).
Proof.
  intros Hi. unfold py_setitem. rewrite py_index_nonneg by lia.
  simpl. rewrite Nat2Z.id. reflexivity.
Qed.

Lemma list_swap_lookup {A} (l : list A) (i j k : nat) (a b : A) :
  l !! i = Some a -> l !! j = Some b ->
  <[j := a]> (<[i := b]> l) !! k
  = if decide (k = j) then Some a
    else if decide (k = i) then Some b else l !! k.
Proof.
  intros Ha Hb.
  pose proof (lookup_lt_Some _ _ _ Ha). pose proof (lookup_lt_Some _ _ _ Hb).
  destruct (decide (k = j)) as [->|Hkj].
  - apply list_lookup_insert_eq. rewrite length_insert. assumption.
  - rewrite list_lookup_insert_ne by congruence.
    destruct (decide (k = i)) as [->|Hki].
    + apply list_lookup_insert_eq. assumption.
    + apply list_lookup_insert_ne. congruence.
Qed.

Section Swap.

Context {T : Type} `{EqDecision T}.
Implicit Types (G : Grid T).

Lemma flat_index G (p : Point) :
  grid_inv G -> inbounds G p = true ->
  p.2 * w G + p.1 = Z.of_nat (index_of_point G p) /\
  (index_of_point G p < length (data G))%nat.
Proof.
  intros (Hw & Hh & Htile) Hin. destruct p as [x y].
  apply inbounds_spec in Hin. unfold index_of_point. simpl.
  pose proof (cell_index_bound (w G) (h G) x y). lia.
Qed.

Lemma index_of_point_inj G (p q : Point) :
  grid_inv G -> inbounds G p = true -> inbounds G q = true ->
  index_of_point G p = index_of_point G q -> p = q.
Proof.
  intros Hinv Hp Hq Heq.
  rewrite <- (proj1 (proj2 (index_of_point_inbounds G p Hinv Hp))).
  rewrite <- (proj1 (proj2 (index_of_point_inbounds G q Hinv Hq))).
  congruence.
Qed.

(** X5: On a grid of the data model, with both points inside the grid (the
    second given as a point or as a direction from the first), [swap]
    exchanges the two cells, leaves every other cell, the shape and the
    flag alone, returns the second point, only permutes the data, and is
    undone by swapping again. *)
Theorem swap_exchanges G (p1 : Point) (target : Point + Direction) :
  let p2 := match target with inl p => p | inr d => neighbor p1 d end in
  grid_inv G -> inbounds G p1 = true -> inbounds G p2 = true ->
  exists G',
    swap G p1 target = Ok (G', p2) /\
    w G' = w G /\ h G' = h G /\ allow_overflow G' = allow_overflow G /\
    grid_inv G' /\ data G' ≡ₚ data G /\
    at_ G' p1 None = at_ G p2 None /\ at_ G' p2 None = at_ G p1 None /\
    (forall q, inbounds G q = true -> q <> p1 -> q <> p2 ->
       at_ G' q None = at_ G q None) /\
    swap G' p1 target = Ok (G, p2).
Proof.
  intros p2 Hinv Hin1 Hin2.
  destruct (flat_index G p1 Hinv Hin1) as [Hz1 Hi1].
  destruct (flat_index G p2 Hinv Hin2) as [Hz2 Hi2].
  set (i1 := index_of_point G p1) in *. set (i2 := index_of_point G p2) in *.
  destruct (lookup_lt_is_Some_2 _ _ Hi1) as [v1 Hv1].
  destruct (lookup_lt_is_Some_2 _ _ Hi2) as [v2 Hv2].
  set (cells := <[i2 := v1]> (<[i1 := v2]> (data G))).
  assert (Hcells : forall k, cells !! k
            = if decide (k = i2) then Some v1
              else if decide (k = i1) then Some v2 else data G !! k)
    by (intros k; apply list_swap_lookup; assumption).
  assert (Hlen : length cells = length (data G))
    by (unfold cells; rewrite !length_insert; reflexivity).
  set (G' := mkGrid (w G) (h G) cells (allow_overflow G)).
  assert (Hswap : forall (H : Grid T) c1 c2,
            w H = w G -> length (data H) = length (data G) ->
            data H !! i1 = Some c1 -> data H !! i2 = Some c2 ->
            swap H p1 target
            = Ok (mkGrid (w H) (h H) (<[i2 := c1]> (<[i1 := c2]> (data H)))
                    (allow_overflow H), p2)).
  { intros H c1 c2 HwH HlenH Hc1 Hc2. unfold swap. fold p2.
    rewrite HwH, Hz1, Hz2.
    rewrite (py_getitem_nat _ _ _ Hc2), (py_getitem_nat _ _ _ Hc1). simpl.
    rewrite py_setitem_nat by lia. simpl.
    rewrite py_setitem_nat by (rewrite length_insert; lia). reflexivity. }
  assert (Hinv' : grid_inv G').
  { destruct Hinv as (Hw & Hh & Htile). unfold grid_inv. simpl.
    rewrite Hlen. auto. }
  assert (Hat : forall q, inbounds G q = true ->
            at_ G' q None
            = match cells !! index_of_point G q with
              | Some c => Ok c | None => Raise IndexError end).
  { intros q Hq. destruct (flat_index G q Hinv Hq) as [Hzq Hiq].
    rewrite at_inbounds by exact Hq. simpl w. rewrite Hzq.
    unfold py_getitem. simpl data. rewrite py_index_nonneg by lia.
    simpl. rewrite Nat2Z.id. reflexivity. }
  assert (Hat0 : forall q c, inbounds G q = true ->
            data G !! index_of_point G q = Some c -> at_ G q None = Ok c).
  { intros q c Hq Hc. apply at_index; assumption. }
  exists G'. split; [apply (Hswap G v1 v2); auto|].
  do 3 (split; [reflexivity|]). split; [exact Hinv'|].
  split; [apply Permutation_insert_swap; assumption|].
  split; [|split; [|split]].
  - rewrite (Hat p1 Hin1), Hcells. fold i1.
    rewrite (Hat0 p2 v2 Hin2 Hv2).
    destruct (decide (i1 = i2)) as [Heq|_]; [|rewrite decide_True; auto].
    rewrite Heq in Hv1. congruence.
  - rewrite (Hat p2 Hin2), Hcells. fold i2.
    rewrite decide_True by reflexivity.
    rewrite (Hat0 p1 v1 Hin1 Hv1). reflexivity.
  - intros q Hq Hq1 Hq2. rewrite (Hat q Hq), Hcells.
    rewrite !decide_False
      by (intros Heq; eapply index_of_point_inj in Heq; eauto).
    destruct (flat_index G q Hinv Hq) as [_ Hiq].
    destruct (lookup_lt_is_Some_2 _ _ Hiq) as [c Hc].
    rewrite Hc. symmetry. apply Hat0; assumption.
  - rewrite (Hswap G' (if decide (i1 = i2) then v1 else v2) v1);
      [|reflexivity|exact Hlen| |].
    + f_equal. f_equal. destruct G as [wd ht cells0 flag]. simpl in *.
      f_equal. apply list_eq. intros k.
      rewrite (list_swap_lookup cells i1 i2 k
                 (if decide (i1 = i2) then v1 else v2) v1).
      * destruct (decide (k = i2)) as [->|Hk2].
        -- destruct (decide (i1 = i2)) as [Heq|_]; [|congruence].
           rewrite Heq in Hv1. congruence.
        -- destruct (decide (k = i1)) as [->|Hk1]; [congruence|].
           rewrite Hcells, !decide_False by assumption. reflexivity.
      * rewrite Hcells. destruct (decide (i1 = i2)); [reflexivity|].
        rewrite decide_True by reflexivity. reflexivity.
      * rewrite Hcells, decide_True by reflexivity. reflexivity.
    + simpl. rewrite Hcells. destruct (decide (i1 = i2)); [reflexivity|].
      rewrite decide_True by reflexivity. reflexivity.
    + simpl. rewrite Hcells, decide_True by reflexivity. reflexivity.
Qed.

End Swap.

Lemma swap_exchanges_witness :
  let G := mkGrid 2 2 [Some 1; Some 2; Some 3; Some 4] false in
  exists G',
    swap G (0, 0) (inr DOWN) = Ok (G', (0, 1)) /\
    data G' ≡ₚ data G /\ swap G' (0, 0) (inr DOWN) = Ok (G, (0, 1)).
Proof.
  intros G.
  assert (Hinv : grid_inv G) by (unfold grid_inv; simpl; lia).
  destruct (swap_exchanges G (0, 0) (inr DOWN) Hinv eq_refl eq_refl)
    as (G' & Hswap & _ & _ & _ & _ & Hperm & _ & _ & _ & Hback).
  exists G'. split; [exact Hswap|]. split; [exact Hperm|exact Hback].
Defined.

(** ** Rows, columns, copies and transform *)

Section RowsAndCopies.

Context {T : Type} `{EqDecision T}.
Implicit Types (G : Grid T) (f : Z -> Z -> cell T).

Lemma iter_rows_Ok G f :
  represents G f ->
  iter_rows G = Ok ((fun r => (fun c => f c r) <$> range (w G)) <$> range (h G)).
Proof.
  intros (Hw & Hh & Htile & Hf). unfold iter_rows.
  apply traverse_Ok. intros r Hr%elem_of_range.
  apply traverse_Ok. intros c Hc%elem_of_range.
  destruct (py_getitem_lookup (data G) (r * w G + c)) as (v & Hv & ->).
  { rewrite Htile. apply cell_index_bound; assumption. }
  rewrite Hf in Hv by assumption. congruence.
Qed.

Lemma mjoin_rows G f :
  represents G f ->
  mjoin ((fun r => (fun c => f c r) <$> range (w G)) <$> range (h G)) = data G.
Proof.
  intros Hrep. pose proof Hrep as (Hw & Hh & _).
  destruct (Grid_init_columns (h G) (w G) (fun r c => f c r) Hh Hw)
    as (G' & Hinit & Hw' & Hh' & _ & Hrep').
  apply Grid_init_inv in Hinit as (_ & <- & _).
  apply (represents_ext G' G _ _ Hrep' Hrep Hw' Hh').
  reflexivity.
Qed.

(** X6: On a grid of the data model [rows] returns [h] rows of [w] cells whose
    concatenation is the flat data, [cols] returns [w] columns of [h]
    cells, and the columns of a grid are the rows of its transpose (and
    its rows the transpose's columns). *)
Theorem rows_and_cols G :
  grid_inv G ->
  exists rs cs G',
    rows G = Ok rs /\ cols G = Ok cs /\ transpose G = Ok G' /\
    mjoin rs = data G /\ length rs = Z.to_nat (h G) /\
    Forall (fun r => length r = Z.to_nat (w G)) rs /\
    mjoin cs = data G' /\ length cs = Z.to_nat (w G) /\
    Forall (fun c => length c = Z.to_nat (h G)) cs /\
    rows G' = Ok cs /\ cols G' = Ok rs.
Proof.
  intros Hrep%grid_inv_represents.
  destruct (transpose_represents G _ Hrep) as (G' & Ht & Hw' & Hh' & Hrep').
  eexists _, _, G'.
  split; [unfold rows; apply (iter_rows_Ok G _ Hrep)|].
  split; [unfold cols; apply (iter_cols_Ok G _ Hrep)|].
  split; [exact Ht|]. split; [apply mjoin_rows, Hrep|].
  split; [rewrite length_fmap; apply length_seqZ|]. split.
  { apply Forall_fmap, Forall_forall. intros r _. simpl.
    rewrite length_fmap. apply length_seqZ. }
  split.
  { rewrite <- (mjoin_rows G' _ Hrep'), Hw', Hh'. reflexivity. }
  split; [rewrite length_fmap; apply length_seqZ|]. split.
  { apply Forall_fmap, Forall_forall. intros r _. simpl.
    rewrite length_fmap. apply length_seqZ. }
  split.
  - unfold rows. rewrite (iter_rows_Ok G' _ Hrep'), Hw', Hh'. reflexivity.
  - unfold cols. rewrite (iter_cols_Ok G' _ Hrep'), Hw', Hh'. reflexivity.
Qed.

Lemma Grid_init_again G (b : bool) :
  tiles G ->
  Grid_init (data G) (Some (w G)) (Some (h G)) b
  = if (w G =? 0) && (h G =? 0) then Raise ZeroDivisionError
    else Ok (mkGrid (w G) (h G) (data G) b).
Proof.
  unfold tiles. intros Htile. unfold Grid_init, Grid_dims, truthy.
  destruct (Z.eqb_spec (h G) 0) as [Hh|Hh].
  - rewrite Hh in *. simpl. unfold py_floordiv.
    destruct (Z.eqb_spec (w G) 0) as [Hw|Hw]; [reflexivity|]. simpl.
    replace (Z.of_nat (length (data G))) with 0 by lia.
    rewrite Z.div_0_l, Z.mul_0_r by exact Hw. reflexivity.
  - rewrite andb_false_r.
    destruct (h G) eqn:Hh'; [congruence| |]; simpl;
      rewrite <- Htile, Z.eqb_refl; reflexivity.
Qed.

(** X7: [copy] of a grid whose dimensions tile its data: the deep copy is the
    grid itself; the shallow copy, which goes through the constructor, is
    the grid itself too, except on the empty 0x0 grid, where the
    constructor takes the height 0 for missing and divides by the width 0. *)
Theorem copy_spec G :
  tiles G ->
  copy G true = Ok G /\
  copy G false = if (w G =? 0) && (h G =? 0) then Raise ZeroDivisionError
                 else Ok G.
Proof.
  intros Htile. split; [reflexivity|].
  unfold copy. rewrite Grid_init_again by exact Htile.
  destruct G. reflexivity.
Qed.

End RowsAndCopies.

Lemma rows_and_cols_witness :
  let G := mkGrid 3 2 [Some 1; Some 2; Some 3; Some 4; Some 5; Some 6] true in
  rows G = Ok [[Some 1; Some 2; Some 3]; [Some 4; Some 5; Some 6]] /\
  cols G = Ok [[Some 1; Some 4]; [Some 2; Some 5]; [Some 3; Some 6]] /\
  exists rs, rows G = Ok rs /\ mjoin rs = data G.
Proof.
  intros G. split; [reflexivity|]. split; [reflexivity|].
  assert (Hinv : grid_inv G) by (unfold grid_inv; simpl; lia).
  destruct (rows_and_cols G Hinv) as (rs & _ & _ & Hrs & _ & _ & Hjoin & _).
  exists rs. split; [exact Hrs|exact Hjoin].
Defined.

Lemma copy_spec_witness :
  copy (mkGrid 0 0 ([] : list (cell Z)) false) false = Raise ZeroDivisionError /\
  copy (mkGrid 0 0 ([] : list (cell Z)) false) true
    = Ok (mkGrid 0 0 [] false) /\
  copy (mkGrid 1 2 [Some 1; Some 2] true) false
    = Ok (mkGrid 1 2 [Some 1; Some 2] true).
Proof.
  split; [|split].
  - apply (proj2 (copy_spec (mkGrid 0 0 ([] : list (cell Z)) false) eq_refl)).
  - apply (proj1 (copy_spec (mkGrid 0 0 ([] : list (cell Z)) false) eq_refl)).
  - apply (proj2 (copy_spec (mkGrid 1 2 [Some 1; Some 2] true) eq_refl)).
Defined.

Section Transform.

Context {T U V : Type} `{EqDecision T} `{EqDecision U} `{EqDecision V}.

Lemma py_getitem_fmap {A B} (g : A -> B) (l : list A) (i : Z) :
  py_getitem (g <$> l) i = (do a <- py_getitem l i; Ok (g a)).
Proof.
  unfold py_getitem. rewrite length_fmap.
  destruct (py_index (Z.of_nat (length l)) i) as [n|e]; [|reflexivity].
  simpl. rewrite list_lookup_fmap. destruct (l !! n); reflexivity.
Qed.

(** X8: [transform] on a grid whose dimensions tile its data and are not both
    zero keeps the shape and the flag, reads at every point, wrapped or
    not, the function applied to what the source reads there, and two
    transforms in a row are the transform by the composed function; on the
    0x0 grid it raises ZeroDivisionError. *)
Theorem transform_spec (G : Grid T) (func : cell T -> cell U)
    (func' : cell U -> cell V) :
  tiles G ->
  ((w G =? 0) && (h G =? 0) = true ->
   transform func G = Raise ZeroDivisionError) /\
  ((w G =? 0) && (h G =? 0) = false ->
   exists G',
     transform func G = Ok G' /\
     w G' = w G /\ h G' = h G /\ allow_overflow G' = allow_overflow G /\
     data G' = func <$> data G /\ tiles G' /\
     (forall p overflow,
        at_ G' p overflow = (do c <- at_ G p overflow; Ok (func c))) /\
     transform func' G' = transform (func' ∘ func) G).
Proof.
  intros Htile.
  set (G1 := mkGrid (w G) (h G) (func <$> data G) (allow_overflow G)).
  assert (Htile1 : tiles G1)
    by (unfold tiles; simpl; rewrite length_fmap; exact Htile).
  assert (Hinit : transform func G
            = if (w G =? 0) && (h G =? 0) then Raise ZeroDivisionError
              else Ok G1).
  { unfold transform. apply (Grid_init_again G1 (allow_overflow G) Htile1). }
  split; intros Hzero; rewrite Hinit, Hzero; [reflexivity|].
  exists G1. split; [reflexivity|]. do 4 (split; [reflexivity|]).
  split; [exact Htile1|]. split.
  - intros [x y] overflow. unfold at_.
    change (_allow_overflow G1 overflow) with (_allow_overflow G overflow).
    change (w G1) with (w G). change (h G1) with (h G).
    change (data G1) with (func <$> data G).
    destruct (_allow_overflow G overflow); simpl.
    + destruct (py_mod x (w G)) as [x'|e]; simpl; [|reflexivity].
      destruct (py_mod y (h G)) as [y'|e]; simpl; [|reflexivity].
      apply py_getitem_fmap.
    + apply py_getitem_fmap.
  - unfold transform. simpl. rewrite <- list_fmap_compose. reflexivity.
Qed.

End Transform.

Lemma transform_spec_witness :
  let G := mkGrid 2 1 [Some 1; None] true in
  let double := fun c : cell Z => (fun n => 2 * n) <$> c in
  exists G',
    transform double G = Ok G' /\ data G' = [Some 2; None] /\
    at_ G' (3, 0) None = Ok None.
Proof.
  intros G double.
  destruct (proj2 (transform_spec (V := Z) G double double eq_refl) eq_refl)
    as (G' & Ht & _ & _ & _ & Hdata & _ & Hat & _).
  exists G'. split; [exact Ht|]. split; [exact Hdata|].
  rewrite Hat. reflexivity.
Defined.

(** ** reachable in general *)

Section ReachInvariant.

Variable step : Point -> Point -> Prop.
Variable s : Point.
Variable max_steps : option Z.
Implicit Types (queue : list (Point * Z)) (seen : gset Point).
Implicit Types (dep : Point -> Z) (c a b x : Point).

Lemma within_le (k k' : Z) :
  within max_steps k -> k' <= k -> within max_steps k'.
Proof. unfold within. destruct max_steps; [lia|auto]. Qed.

Lemma elem_of_points queue a :
  a ∈ queue.*1 <-> exists k, (a, k) ∈ queue.
Proof.
  rewrite list_elem_of_fmap. split.
  - intros ([a' k] & -> & Hin). eauto.
  - intros (k & Hin). exists (a, k). auto.
Qed.

Lemma reach_inv_init :
  reach_inv step s max_steps [(s, 0)] {[s]} (fun _ => 0) 0.
Proof.
  constructor.
  - split; [apply elem_of_singleton|]; reflexivity.
  - intros q k [= -> ->]%list_elem_of_singleton.
    split; [apply elem_of_singleton|]; reflexivity.
  - apply NoDup_singleton.
  - intros a ->%elem_of_singleton. exists [s]. split; [constructor|reflexivity].
  - intros a b ->%elem_of_singleton Hq. destruct Hq. apply list_elem_of_here.
  - repeat constructor.
  - intros q k [= -> ->]%list_elem_of_singleton. lia.
  - intros a ->%elem_of_singleton Hq. destruct Hq. apply list_elem_of_here.
Qed.

(** The level can be taken to be the step count of the head of the queue. *)
Lemma reach_inv_head c k queue seen dep d :
  reach_inv step s max_steps ((c, k) :: queue) seen dep d ->
  d <= k /\ reach_inv step s max_steps ((c, k) :: queue) seen dep k.
Proof.
  intros [Hroot Hq Hnd Hwalk Hclosed Hsorted Hlevel Hdone].
  pose proof (Hlevel c k (list_elem_of_here _ _)) as Hk.
  split; [lia|]. constructor; try assumption.
  - intros q k' Hin. specialize (Hlevel q k' Hin).
    apply elem_of_cons in Hin as [[= -> ->]|Hin]; [lia|].
    rewrite fmap_cons in Hsorted.
    apply StronglySorted_cons in Hsorted as [Hhead _].
    rewrite Forall_forall in Hhead.
    assert (k <= k'); [|lia].
    apply Hhead, list_elem_of_fmap. exists (q, k'). auto.
  - intros a Ha Hna. specialize (Hdone a Ha Hna). lia.
Qed.

Lemma reach_inv_empty seen dep d d' :
  reach_inv step s max_steps [] seen dep d -> d <= d' ->
  reach_inv step s max_steps [] seen dep d'.
Proof.
  intros [Hroot Hq Hnd Hwalk Hclosed Hsorted Hlevel Hdone] Hd.
  constructor; try assumption.
  - intros q k Hin. apply elem_of_nil in Hin. destruct Hin.
  - intros a Ha Hna. specialize (Hdone a Ha Hna). lia.
Qed.

(** Every point with a walk no longer than the current level allows has
    been seen, at a step count no more than the steps of the walk. *)
Lemma reach_inv_short_walk queue seen dep d l x :
  reach_inv step s max_steps queue seen dep d ->
  walk step s l x ->
  Z.of_nat (length l) <= d + 1 ->
  within max_steps (Z.of_nat (length l) - 2) ->
  x ∈ seen /\ dep x + 1 <= Z.of_nat (length l).
Proof.
  intros [Hroot Hq Hnd Hwalk Hclosed Hsorted Hlevel Hdone] Hw.
  induction Hw as [|l p q Hw IH Hpq]; intros Hlen Hmax.
  - destruct Hroot as [Hs ->]. split; [exact Hs|simpl; lia].
  - rewrite length_app in Hlen, Hmax |- *. simpl in Hlen, Hmax |- *.
    destruct IH as [Hp Hdp]; [lia|eapply within_le; [exact Hmax|lia]|].
    destruct (Hclosed p q Hp) as [Hqs Hle]; [| |exact Hpq|].
    + intros (k & Hin)%elem_of_points.
      destruct (Hq p k Hin) as [_ Hk]. apply Hlevel in Hin. lia.
    + eapply within_le; [exact Hmax|lia].
    + split; [exact Hqs|lia].
Qed.

(** A popped entry beyond [max_steps] is dropped. *)
Lemma reach_inv_skip c k queue seen dep :
  reach_inv step s max_steps ((c, k) :: queue) seen dep k ->
  ~ within max_steps k ->
  reach_inv step s max_steps queue seen dep k.
Proof.
  intros [Hroot Hq Hnd Hwalk Hclosed Hsorted Hlevel Hdone] Hmax.
  pose proof (Hq c k (list_elem_of_here _ _)) as [Hc Hdc].
  rewrite fmap_cons in Hnd. rewrite fmap_cons in Hsorted. apply NoDup_cons in Hnd as [Hcq Hnd].
  apply StronglySorted_cons in Hsorted as [_ Hsorted].
  constructor; try assumption.
  - intros q k' Hin. apply (Hq q k'). right. exact Hin.
  - intros a b Ha Hna Hwa. destruct (decide (a = c)) as [->|Hne].
    + rewrite Hdc in Hwa. contradiction.
    + apply Hclosed; [exact Ha| |exact Hwa].
      simpl. intros [->|Hin]%elem_of_cons; [congruence|contradiction].
  - intros q k' Hin. apply (Hlevel q k'). right. exact Hin.
  - intros a Ha Hna. destruct (decide (a = c)) as [->|Hne]; [lia|].
    apply Hdone; [exact Ha|].
    simpl. intros [->|Hin]%elem_of_cons; [congruence|contradiction].
Qed.

(** What the loop over the neighbours leaves: the new points, each once, at
    the end of the queue and in [seen]. *)
Lemma foldl_discover_step (k : Z) (ns : list Point) queue seen :
  exists news,
    foldl (discover_step k) (queue, seen) ns
    = (queue ++ ((fun n => (n, k + 1)) <$> news), list_to_set news ∪ seen) /\
    NoDup news /\
    (forall n, n ∈ news -> n ∈ ns /\ n ∉ seen) /\
    (forall n, n ∈ ns -> n ∈ seen \/ n ∈ news).
Proof.
  revert queue seen. induction ns as [|n ns IH]; intros queue seen.
  - exists []. simpl. rewrite app_nil_r, (left_id_L ∅ (∪)).
    split; [reflexivity|]. split; [constructor|].
    split; intros n Hn; apply elem_of_nil in Hn; destruct Hn.
  - cbn [foldl]. unfold discover_step at 2.
    destruct (decide (n ∈ seen)) as [Hin|Hnin].
    + destruct (IH queue seen) as (news & Hfold & Hnd & Hnew & Hall).
      exists news. split; [exact Hfold|]. split; [exact Hnd|]. split.
      * intros m Hm. destruct (Hnew m Hm). split; [right|]; assumption.
      * intros m [->|Hm]%elem_of_cons; [left; exact Hin|apply Hall, Hm].
    + destruct (IH (queue ++ [(n, k + 1)]) ({[n]} ∪ seen))
        as (news & Hfold & Hnd & Hnew & Hall).
      exists (n :: news). split; [|split; [|split]].
      * rewrite Hfold, <- app_assoc. simpl.
        rewrite (assoc_L (∪)), (comm_L (∪) (list_to_set news) {[n]}).
        reflexivity.
      * constructor; [|exact Hnd]. intros Hm. destruct (Hnew n Hm) as [_ Hn].
        apply Hn, elem_of_union. left. apply elem_of_singleton. reflexivity.
      * intros m [->|Hm]%elem_of_cons; [split; [left|exact Hnin]|].
        destruct (Hnew m Hm) as [Hmn Hms]. split; [right; exact Hmn|].
        intros Hs. apply Hms, elem_of_union. right. exact Hs.
      * intros m [->|Hm]%elem_of_cons; [right; left|].
        destruct (Hall m Hm) as [[Hm'%elem_of_singleton|Hm']%elem_of_union|Hm'].
        -- subst m. right. left.
        -- left. exact Hm'.
        -- right. right. exact Hm'.
Qed.

Lemma fmap_tagged (k : Z) (news : list Point) :
  ((fun n => (n, k)) <$> news).*1 = news.
Proof.
  induction news as [|n l IH]; [reflexivity|].
  rewrite !fmap_cons, IH. reflexivity.
Qed.

(** A popped entry within [max_steps] is expanded. *)
Lemma reach_inv_expand c k queue seen dep (ns news : list Point) :
  reach_inv step s max_steps ((c, k) :: queue) seen dep k ->
  within max_steps k ->
  (forall n, step c n <-> n ∈ ns) ->
  NoDup news ->
  (forall n, n ∈ news -> n ∈ ns /\ n ∉ seen) ->
  (forall n, n ∈ ns -> n ∈ seen \/ n ∈ news) ->
  reach_inv step s max_steps (queue ++ ((fun n => (n, k + 1)) <$> news))
    (list_to_set news ∪ seen)
    (fun a => if decide (a ∈ seen) then dep a else k + 1) k.
Proof.
  intros [Hroot Hq Hnd Hwalk Hclosed Hsorted Hlevel Hdone] Hmax Hns Hndn
    Hnew Hall.
  pose proof (Hq c k (list_elem_of_here _ _)) as [Hc Hdc].
  rewrite fmap_cons in Hnd. rewrite fmap_cons in Hsorted. apply NoDup_cons in Hnd as [Hcq Hnd].
  apply StronglySorted_cons in Hsorted as [_ Hsorted].
  assert (Hpts : forall a,
            a ∈ (queue ++ ((fun n => (n, k + 1)) <$> news)).*1
            <-> a ∈ queue.*1 \/ a ∈ news).
  { intros a. rewrite fmap_app, elem_of_app, fmap_tagged. tauto. }
  assert (Hold : forall a, a ∈ list_to_set news ∪ seen ->
            a ∉ (queue ++ ((fun n => (n, k + 1)) <$> news)).*1 ->
            a ∈ seen /\ (a = c \/ a ∉ ((c, k) :: queue).*1)).
  { intros a Ha Hna. rewrite Hpts in Hna.
    apply elem_of_union in Ha as [Ha%elem_of_list_to_set|Ha]; [tauto|].
    split; [exact Ha|]. destruct (decide (a = c)) as [->|Hne]; [auto|].
    right. simpl. intros [->|Hin]%elem_of_cons; [congruence|tauto]. }
  assert (Hup : forall b, b ∈ seen -> dep b <= k + 1).
  { intros b Hb. destruct (decide (b ∈ ((c, k) :: queue).*1)) as [Hin|Hnin].
    - apply elem_of_points in Hin as (k' & Hin).
      destruct (Hq b k' Hin) as [_ ->]. apply Hlevel in Hin. lia.
    - specialize (Hdone b Hb Hnin). lia. }
  constructor.
  - destruct Hroot as [Hs Hds]. split; [apply elem_of_union; right; exact Hs|].
    destruct (decide (s ∈ seen)); [exact Hds|contradiction].
  - intros q k' [Hin|Hin]%elem_of_app.
    + destruct (Hq q k' (list_elem_of_further _ _ _ Hin)) as [Hqs Hdq].
      split; [apply elem_of_union; right; exact Hqs|].
      destruct (decide (q ∈ seen)); [exact Hdq|contradiction].
    + apply list_elem_of_fmap in Hin as (n & [= -> ->] & Hn).
      destruct (Hnew n Hn) as [_ Hns'].
      split; [apply elem_of_union; left; apply elem_of_list_to_set, Hn|].
      destruct (decide (n ∈ seen)); [contradiction|reflexivity].
  - rewrite fmap_app, fmap_tagged.
    apply NoDup_app. split; [exact Hnd|]. split; [|exact Hndn].
    intros a (k' & Hin)%elem_of_points Han.
    destruct (Hnew a Han) as [_ Has]. apply Has.
    apply (Hq a k'). right. exact Hin.
  - intros a [Ha%elem_of_list_to_set|Ha]%elem_of_union.
    + destruct (Hnew a Ha) as [Hans Has].
      destruct (Hwalk c Hc) as (l & Hl & Hlen).
      exists (l ++ [a]). split; [econstructor; [exact Hl|apply Hns, Hans]|].
      rewrite length_app. simpl.
      destruct (decide (a ∈ seen)); [contradiction|lia].
    + destruct (decide (a ∈ seen)); [apply Hwalk, Ha|contradiction].
  - intros a b Ha Hna Hwa Hab.
    destruct (Hold a Ha Hna) as [Has Hcase].
    destruct (decide (a ∈ seen)); [|contradiction].
    destruct Hcase as [->|Hnin].
    + apply Hns, Hall in Hab. destruct (decide (b ∈ seen)) as [Hbs|Hbs].
      * split; [apply elem_of_union; right; exact Hbs|].
        specialize (Hup b Hbs). lia.
      * destruct Hab as [?|Hbn]; [contradiction|].
        split; [apply elem_of_union; left; apply elem_of_list_to_set, Hbn|lia].
    + destruct (Hclosed a b Has Hnin Hwa Hab) as [Hbs Hle].
      split; [apply elem_of_union; right; exact Hbs|].
      destruct (decide (b ∈ seen)); [exact Hle|contradiction].
  - rewrite fmap_app. apply StronglySorted_app. split; [|split].
    + intros a b (q & Hin)%list_elem_of_fmap Hb. destruct Hin as [-> Hin].
      rewrite <- list_fmap_compose in Hb.
      apply list_elem_of_fmap in Hb as (n & -> & _). simpl.
      destruct q as [q k']. simpl.
      specialize (Hlevel q k' (list_elem_of_further _ _ _ Hin)). lia.
    + exact Hsorted.
    + rewrite <- list_fmap_compose. clear. induction news as [|n l IH].
      * constructor.
      * constructor; [exact IH|]. apply Forall_fmap, Forall_forall.
        intros m _. simpl. lia.
  - intros q k' [Hin|Hin]%elem_of_app.
    + apply (Hlevel q k'). right. exact Hin.
    + apply list_elem_of_fmap in Hin as (n & [= -> ->] & Hn). lia.
  - intros a Ha Hna. destruct (Hold a Ha Hna) as [Has Hcase].
    destruct (decide (a ∈ seen)); [|contradiction].
    destruct Hcase as [->|Hnin]; [lia|apply Hdone; assumption].
Qed.

End ReachInvariant.

Section ReachableSpec.

Context {T : Type} `{EqDecision T}.
Variable order : bool -> list Direction.
Variable G : Grid T.
Variables exclude include : option (filter T).
Variable min_steps : Z.
Variable max_steps : option Z.
Variable include_diagonal : bool.
Variable overflow : option bool.
Variable s : Point.

Local Abbreviation step :=
  (step_to order G exclude include include_diagonal overflow).
Local Abbreviation loop fuel :=
  (reachable_loop order fuel G exclude include min_steps max_steps
     include_diagonal overflow).
Local Abbreviation inv := (reach_inv step s max_steps).

Lemma beyond_max (k : Z) :
  match max_steps with Some m => m <? k | None => false end = false
  <-> within max_steps k.
Proof.
  unfold within. destruct max_steps as [m|]; [|tauto].
  rewrite Z.ltb_ge. tauto.
Qed.

Lemma neighbors_step (c : Point) ns :
  neighbors order G c exclude include overflow include_diagonal = Ok ns ->
  forall n, step c n <-> n ∈ (fun n => n.1.1) <$> ns.
Proof.
  intros Hns n. split.
  - intros (ns' & Hns' & Hn). congruence.
  - intros Hn. exists ns. auto.
Qed.

(** The popped entry, when it is within [max_steps], sits at its true
    distance from the start. *)
Lemma head_nearest c k queue seen dep :
  inv ((c, k) :: queue) seen dep k -> within max_steps k ->
  nearest step s c k.
Proof.
  intros Hinv Hmax.
  destruct (rinv_queue _ _ _ _ _ _ _ Hinv c k (list_elem_of_here _ _))
    as [Hc Hdc].
  split.
  - destruct (rinv_walk _ _ _ _ _ _ _ Hinv c Hc) as (l & Hl & Hlen).
    exists l. split; [exact Hl|lia].
  - intros l Hl.
    destruct (Z_le_gt_dec (k + 1) (Z.of_nat (length l))) as [|Hshort];
      [assumption|].
    destruct (reach_inv_short_walk _ _ _ _ _ _ _ _ _ Hinv Hl) as [_ Hle];
      [lia|eapply within_le; [exact Hmax|lia]|lia].
Qed.

(** A point at distance [k] within [max_steps] that sits in the queue sits
    there with the step count [k]. *)
Lemma queued_nearest c kc queue seen dep q k0 k :
  inv ((c, kc) :: queue) seen dep kc ->
  (q, k0) ∈ (c, kc) :: queue -> nearest step s q k -> within max_steps k ->
  kc <= k.
Proof.
  intros Hinv Hin [(l & Hl & Hlen) _] Hmax.
  destruct (Z_le_gt_dec kc k) as [|Hshort]; [assumption|].
  destruct (reach_inv_short_walk _ _ _ _ _ _ _ _ _ Hinv Hl) as [_ Hle];
    [lia|eapply within_le; [exact Hmax|lia]|].
  destruct (rinv_queue _ _ _ _ _ _ _ Hinv q k0 Hin) as [_ Hdq].
  apply (rinv_level _ _ _ _ _ _ _ Hinv) in Hin. lia.
Qed.

Lemma loop_sound (fuel : nat) queue seen dep d :
  inv queue seen dep d ->
  NoDup (loop fuel queue seen).1.*1 /\
  StronglySorted Z.le (loop fuel queue seen).1.*2 /\
  forall q k, (q, k) ∈ (loop fuel queue seen).1 ->
    (q ∈ queue.*1 \/ q ∉ seen) /\ d <= k /\ min_steps <= k /\
    within max_steps k /\ nearest step s q k.
Proof.
  revert queue seen dep d.
  induction fuel as [|fuel IH]; intros queue seen dep d Hinv.
  { simpl. split; [constructor|]. split; [constructor|].
    intros q k Hin. apply elem_of_nil in Hin. destruct Hin. }
  simpl. destruct queue as [|[c kc] queue].
  { simpl. split; [constructor|]. split; [constructor|].
    intros q k Hin. apply elem_of_nil in Hin. destruct Hin. }
  apply reach_inv_head in Hinv as [Hd Hinv].
  destruct (match max_steps with Some m => m <? kc | None => false end)
    eqn:Htest.
  { assert (Hmax : ~ within max_steps kc)
      by (rewrite <- beyond_max, Htest; discriminate).
    destruct (IH _ _ _ _ (reach_inv_skip _ _ _ _ _ _ _ _ Hinv Hmax))
      as (Hnd & Hsorted & Hys).
    split; [exact Hnd|]. split; [exact Hsorted|].
    intros q k Hin. destruct (Hys q k Hin) as ([Hq|Hq] & Hk & Hrest).
    - split; [left; rewrite fmap_cons; right; exact Hq|]. split; [lia|exact Hrest].
    - split; [right; exact Hq|]. split; [lia|exact Hrest]. }
  apply beyond_max in Htest.
  pose proof (head_nearest _ _ _ _ _ Hinv Htest) as Hnear.
  set (yielded := if min_steps <=? kc then [(c, kc)] else []).
  assert (Hyield : forall q k, (q, k) ∈ yielded ->
            q = c /\ k = kc /\ min_steps <= k).
  { intros q k. unfold yielded. destruct (Z.leb_spec min_steps kc).
    - intros [= -> ->]%list_elem_of_singleton. auto.
    - intros Hin. apply elem_of_nil in Hin. destruct Hin. }
  assert (Hone : yielded = [] \/ yielded = [(c, kc)])
    by (unfold yielded; destruct (min_steps <=? kc); auto).
  assert (Hhere : forall q k, (q, k) ∈ yielded ->
            (q ∈ ((c, kc) :: queue).*1 \/ q ∉ seen) /\ d <= k /\
            min_steps <= k /\ within max_steps k /\ nearest step s q k).
  { intros q k (-> & -> & Hmin)%Hyield.
    split; [left; rewrite fmap_cons; left|]. auto. }
  destruct (neighbors order G c exclude include overflow include_diagonal)
    as [ns|e] eqn:Hns.
  2:{ simpl. split; [|split; [|exact Hhere]].
      - destruct Hone as [-> | ->]; [constructor|apply NoDup_singleton].
      - destruct Hone as [-> | ->]; repeat constructor. }
  destruct (foldl_discover_step kc ((fun n => n.1.1) <$> ns) queue seen)
    as (news & -> & Hndn & Hnew & Hall).
  pose proof (reach_inv_expand _ _ _ _ _ _ _ _ _ _ Hinv Htest
                (neighbors_step c ns Hns) Hndn Hnew Hall) as Hinv'.
  destruct (IH _ _ _ _ Hinv') as (Hnd & Hsorted & Hys).
  destruct (loop fuel _ _) as [later e]. simpl in Hnd, Hsorted, Hys |- *.
  destruct (rinv_queue _ _ _ _ _ _ _ Hinv c kc (list_elem_of_here _ _))
    as [Hc _].
  pose proof (rinv_nodup _ _ _ _ _ _ _ Hinv) as Hndq.
  rewrite fmap_cons in Hndq. apply NoDup_cons in Hndq as [Hcq _].
  assert (Hlater : forall q k, (q, k) ∈ later ->
            (q ∈ ((c, kc) :: queue).*1 \/ q ∉ seen) /\ q <> c).
  { intros q k Hin. destruct (Hys q k Hin) as (Hq & _).
    rewrite fmap_app, fmap_tagged, elem_of_app in Hq.
    destruct Hq as [[Hq|Hq]|Hq].
    - split; [left; rewrite fmap_cons; right; exact Hq|]. intros ->. auto.
    - destruct (Hnew q Hq) as [_ Hqs]. split; [right; exact Hqs|].
      intros ->. auto.
    - assert (Hqs : q ∉ seen)
        by (intros Hqs; apply Hq, elem_of_union; right; exact Hqs).
      split; [right; exact Hqs|]. intros ->. auto. }
  split; [|split].
  - rewrite fmap_app. apply NoDup_app. split; [|split; [|exact Hnd]].
    + destruct Hone as [-> | ->]; [constructor|apply NoDup_singleton].
    + intros q (k & Hin)%elem_of_points (k' & Hin')%elem_of_points.
      apply Hyield in Hin as (-> & _). apply Hlater in Hin' as [_ Hne].
      congruence.
  - rewrite fmap_app. apply StronglySorted_app. split; [|split; [|exact Hsorted]].
    + intros a b Ha (qk & -> & Hb)%list_elem_of_fmap.
      apply list_elem_of_fmap in Ha as ([q k] & -> & Ha).
      apply Hyield in Ha as (_ & -> & _). destruct qk as [q' k'].
      destruct (Hys q' k' Hb) as (_ & Hk & _). exact Hk.
    + destruct Hone as [-> | ->]; repeat constructor.
  - intros q k [Hin|Hin]%elem_of_app; [apply Hhere, Hin|].
    destruct (Hlater q k Hin) as [Hq _].
    destruct (Hys q k Hin) as (_ & Hk & Hrest).
    split; [exact Hq|]. split; [lia|exact Hrest].
Qed.

Lemma loop_complete (fuel : nat) queue seen dep d ys q k :
  inv queue seen dep d ->
  loop fuel queue seen = (ys, Exhausted) ->
  nearest step s q k -> min_steps <= k -> within max_steps k ->
  q ∈ queue.*1 \/ q ∉ seen ->
  (q, k) ∈ ys.
Proof.
  intros Hinv Hrun Hnear Hmin Hmax. revert queue seen dep d ys Hinv Hrun.
  induction fuel as [|fuel IH]; intros queue seen dep d ys Hinv Hrun Hq;
    [discriminate|].
  simpl in Hrun. destruct queue as [|[c kc] queue].
  { destruct Hq as [Hq|Hq]; [apply elem_of_nil in Hq; destruct Hq|].
    destruct Hnear as [(l & Hl & Hlen) _]. destruct Hq.
    apply (reach_inv_short_walk step s max_steps [] seen dep
             (Z.max d k) l q); [|exact Hl|lia|].
    - apply (reach_inv_empty _ _ _ _ _ _ _ Hinv). lia.
    - eapply within_le; [exact Hmax|lia]. }
  apply reach_inv_head in Hinv as [_ Hinv].
  assert (Hqc : q = c -> kc <= k).
  { intros ->.
    apply (queued_nearest _ _ _ _ _ _ _ _ Hinv (list_elem_of_here _ _) Hnear
             Hmax). }
  destruct (match max_steps with Some m => m <? kc | None => false end)
    eqn:Htest.
  { assert (Hbeyond : ~ within max_steps kc)
      by (rewrite <- beyond_max, Htest; discriminate).
    apply (IH _ _ _ _ _ (reach_inv_skip _ _ _ _ _ _ _ _ Hinv Hbeyond) Hrun).
    destruct Hq as [Hq|Hq]; [|right; exact Hq].
    rewrite fmap_cons in Hq. apply elem_of_cons in Hq as [Hq|Hq];
      [|left; exact Hq].
    destruct Hbeyond. eapply within_le; [exact Hmax|apply Hqc, Hq]. }
  apply beyond_max in Htest.
  destruct (neighbors order G c exclude include overflow include_diagonal)
    as [ns|e] eqn:Hns; [|discriminate].
  destruct (foldl_discover_step kc ((fun n => n.1.1) <$> ns) queue seen)
    as (news & Hfold & Hndn & Hnew & Hall).
  rewrite Hfold in Hrun.
  pose proof (reach_inv_expand _ _ _ _ _ _ _ _ _ _ Hinv Htest
                (neighbors_step c ns Hns) Hndn Hnew Hall) as Hinv'.
  destruct (loop fuel _ _) as [later e] eqn:Hlater.
  injection Hrun as <- ->. apply elem_of_app.
  destruct (decide (q = c)) as [->|Hne].
  - left. specialize (Hqc eq_refl).
    destruct (head_nearest _ _ _ _ _ Hinv Htest) as [(l & Hl & Hlen) _].
    destruct Hnear as [_ Hleast]. specialize (Hleast l Hl).
    assert (k = kc) as -> by lia.
    destruct (Z.leb_spec min_steps kc); [apply list_elem_of_here|lia].
  - right. apply (IH _ _ _ _ _ Hinv' Hlater).
    rewrite fmap_app, fmap_tagged, elem_of_app.
    destruct Hq as [Hq|Hq].
    + rewrite fmap_cons in Hq. apply elem_of_cons in Hq as [Hq|Hq];
        [contradiction|auto].
    + destruct (decide (q ∈ news)) as [Hin|Hnin]; [auto|].
      right. intros [Hin%elem_of_list_to_set|Hin]%elem_of_union; contradiction.
Qed.

Lemma loop_terminates (U : gset Point) :
  (forall p, is_Ok
     (neighbors order G p exclude include overflow include_diagonal)) ->
  (forall l c n, walk step s l c ->
     within max_steps (Z.of_nat (length l) - 1) -> step c n -> n ∈ U) ->
  forall (fuel : nat) queue seen dep d,
    inv queue seen dep d -> seen ⊆ U ->
    (size U - size seen + length queue < fuel)%nat ->
    (loop fuel queue seen).2 = Exhausted.
Proof.
  intros Htotal HU.
  induction fuel as [|fuel IH]; intros queue seen dep d Hinv Hsub Hfuel; [lia|].
  simpl. destruct queue as [|[c kc] queue]; [reflexivity|].
  apply reach_inv_head in Hinv as [_ Hinv]. simpl in Hfuel.
  destruct (match max_steps with Some m => m <? kc | None => false end)
    eqn:Htest.
  { assert (Hbeyond : ~ within max_steps kc)
      by (rewrite <- beyond_max, Htest; discriminate).
    apply (IH _ _ _ _ (reach_inv_skip _ _ _ _ _ _ _ _ Hinv Hbeyond) Hsub). lia. }
  apply beyond_max in Htest. specialize (Htotal c).
  destruct (neighbors order G c exclude include overflow include_diagonal)
    as [ns|e] eqn:Hns; [|destruct Htotal].
  destruct (foldl_discover_step kc ((fun n => n.1.1) <$> ns) queue seen)
    as (news & -> & Hndn & Hnew & Hall).
  pose proof (reach_inv_expand _ _ _ _ _ _ _ _ _ _ Hinv Htest
                (neighbors_step c ns Hns) Hndn Hnew Hall) as Hinv'.
  assert (HsU : list_to_set news ∪ seen ⊆ U).
  { intros n [Hn%elem_of_list_to_set|Hn]%elem_of_union; [|apply Hsub, Hn].
    destruct (rinv_queue _ _ _ _ _ _ _ Hinv c kc (list_elem_of_here _ _))
      as [Hc Hdc].
    destruct (rinv_walk _ _ _ _ _ _ _ Hinv c Hc) as (l & Hl & Hlen).
    apply (HU l c n Hl).
    - eapply within_le; [exact Htest|lia].
    - apply (neighbors_step c ns Hns). apply Hnew, Hn. }
  assert (Hsize : size (list_to_set news ∪ seen : gset Point)
                  = (length news + size seen)%nat).
  { rewrite size_union, size_list_to_set by
      (try exact Hndn; intros n Hn%elem_of_list_to_set Hs;
       destruct (Hnew n Hn); contradiction).
    reflexivity. }
  specialize (IH _ _ _ _ Hinv' HsU).
  destruct (loop fuel _ _) as [later e]. simpl in IH |- *. apply IH.
  pose proof (subseteq_size _ _ HsU). pose proof (subseteq_size _ _ Hsub).
  rewrite Hsize in *. rewrite length_app, length_fmap. lia.
Qed.

(** X9: Every pair [reachable] yields, however far it is run and however it
    ends, names a point within the step bounds together with its distance
    from the start: there is a walk of that many steps and none shorter.
    No point is yielded twice, the step counts never decrease along the
    output, and with [min_steps] at least 1 the start is not yielded. *)
Theorem reachable_yields_nearest (fuel : nat) :
  let ys := (reachable order fuel G s exclude include min_steps max_steps
               include_diagonal overflow).1 in
  NoDup ys.*1 /\
  StronglySorted Z.le ys.*2 /\
  (forall q k, (q, k) ∈ ys ->
     min_steps <= k /\ within max_steps k /\
     nearest (step_to order G exclude include include_diagonal overflow)
       s q k) /\
  (1 <= min_steps -> s ∉ ys.*1).
Proof.
  destruct (loop_sound fuel _ _ _ _ (reach_inv_init step s max_steps))
    as (Hnd & Hsorted & Hys).
  split; [exact Hnd|]. split; [exact Hsorted|]. split.
  - intros q k Hin. destruct (Hys q k Hin) as (_ & _ & Hrest). exact Hrest.
  - intros Hmin (k & Hin)%elem_of_points.
    destruct (Hys s k Hin) as (_ & _ & Hk & _ & _ & Hleast).
    specialize (Hleast [s] (walk_start _ _)). simpl in Hleast. lia.
Qed.

(** X10: On a grid of the data model, with [max_steps] given or overflow off,
    [reachable] runs to exhaustion and yields exactly the points within
    the step bounds, each with its distance from the start. *)
Theorem reachable_exhaustive :
  grid_inv G ->
  is_Some max_steps \/ _allow_overflow G overflow = false ->
  exists (fuel0 : nat) ys,
    (forall fuel, (fuel0 <= fuel)%nat ->
       reachable order fuel G s exclude include min_steps max_steps
         include_diagonal overflow = (ys, Exhausted)) /\
    forall q k, (q, k) ∈ ys <->
      min_steps <= k /\ within max_steps k /\
      nearest (step_to order G exclude include include_diagonal overflow)
        s q k.
Proof.
  intros Hinv Hbound.
  assert (HU : exists U : gset Point, s ∈ U /\
            forall l c n, walk step s l c ->
              within max_steps (Z.of_nat (length l) - 1) -> step c n -> n ∈ U).
  { destruct Hbound as [[m ->]|Hov].
    - exists ({[s]} ∪ list_to_set (box s (m + 1))).
      split; [apply elem_of_union; left; apply elem_of_singleton; reflexivity|].
      intros l c n Hl Hm Hcn. simpl in Hm.
      apply elem_of_union. right. apply elem_of_list_to_set.
      pose proof (walk_near _ _ _ _ _ _ _ _ _ (walk_snoc _ _ _ _ _ Hl Hcn))
        as Hnear.
      rewrite length_app in Hnear. simpl in Hnear.
      apply elem_of_box; lia.
    - exists ({[s]} ∪ list_to_set (grid_points G)).
      split; [apply elem_of_union; left; apply elem_of_singleton; reflexivity|].
      intros l c n _ _ Hcn.
      apply elem_of_union. right. apply elem_of_list_to_set.
      apply elem_of_grid_points.
      eapply step_to_inbounds; eassumption. }
  destruct HU as (U & HsU & HU).
  assert (Hsub : ({[s]} : gset Point) ⊆ U)
    by (intros a ->%elem_of_singleton; exact HsU).
  pose proof (loop_terminates U
                (fun p => neighbors_total order G exclude include
                            include_diagonal overflow p Hinv) HU
                (S (S (size U))) _ _ _ _ (reach_inv_init step s max_steps) Hsub)
    as Hend.
  destruct (loop (S (S (size U))) [(s, 0)] {[s]}) as [ys e] eqn:Hrun.
  simpl in Hend. specialize (Hend ltac:(lia)). subst e.
  exists (S (S (size U))), ys. split.
  - intros fuel Hfuel. unfold reachable.
    apply (reachable_loop_mono _ _ _ _ _ _ _ _ _ _ _ _ _ _ Hrun);
      [discriminate|exact Hfuel].
  - intros q k. split.
    + intros Hin.
      destruct (loop_sound (S (S (size U))) _ _ _ _
                  (reach_inv_init step s max_steps)) as (_ & _ & Hys).
      rewrite Hrun in Hys. destruct (Hys q k Hin) as (_ & _ & Hrest).
      exact Hrest.
    + intros (Hmin & Hmax & Hnear).
      apply (loop_complete _ _ _ _ _ _ _ _ (reach_inv_init step s max_steps)
               Hrun Hnear Hmin Hmax).
      destruct (decide (q = s)) as [->|Hne].
      * left. apply list_elem_of_here.
      * right. intros ->%elem_of_singleton. congruence.
Qed.

End ReachableSpec.

Lemma reachable_exhaustive_witness :
  let G := mkGrid 2 1 [Some 1; Some 2] false in
  let order := fun b : bool =>
    if b then all_directions else cardinal_directions in
  exists fuel0 ys,
    reachable order fuel0 G (0, 0) None None 1 None false None
      = (ys, Exhausted) /\
    forall q k, (q, k) ∈ ys ->
      nearest (step_to order G None None false None) (0, 0) q k.
Proof.
  intros G order.
  assert (Hinv : grid_inv G) by (unfold grid_inv; simpl; lia).
  destruct (reachable_exhaustive order G None None 1 None false None (0, 0)
              Hinv (or_intror eq_refl)) as (fuel0 & ys & Hrun & Hys).
  exists fuel0, ys. split; [apply Hrun; lia|].
  intros q k Hin. apply Hys, Hin.
Defined.

Lemma reachable_yields_nearest_witness :
  let G := mkGrid 2 2 [Some 1; Some 2; Some 3; None] true in
  let order := fun b : bool =>
    if b then all_directions else cardinal_directions in
  let ys :=
    (reachable order 3 G (0, 0) None None 1 (Some 2) false None).1 in
  NoDup ys.*1 /\ StronglySorted Z.le ys.*2 /\ (0, 0) ∉ ys.*1.
Proof.
  intros G order ys.
  destruct (reachable_yields_nearest order G None None 1 (Some 2) false None
              (0, 0) 3) as (Hnd & Hsorted & _ & Hstart).
  split; [exact Hnd|]. split; [exact Hsorted|]. apply Hstart. lia.
Defined.

(** ** Reading and writing across the border *)

Section Border.

Context {T : Type} `{EqDecision T}.
Implicit Types (G : Grid T) (p : Point) (overflow : option bool).

Lemma at_flat G x y overflow :
  _allow_overflow G overflow = false ->
  at_ G (x, y) overflow = py_getitem (data G) (y * w G + x).
Proof. intros Hov. unfold at_. rewrite Hov. reflexivity. Qed.

Lemma at_wrapped G x y overflow :
  grid_inv G -> _allow_overflow G overflow = true ->
  at_ G (x, y) overflow
  = py_getitem (data G) (y mod h G * w G + x mod w G).
Proof.
  intros (Hw & Hh & _) Hov. unfold at_, py_mod. rewrite Hov.
  destruct (Z.eqb_spec (w G) 0); [lia|].
  destruct (Z.eqb_spec (h G) 0); [lia|]. reflexivity.
Qed.

(** X11: With overflow in effect [at] and [get] read the cell of the point
    wrapped into the grid: they never raise, [get] never answers with its
    default, and shifting a point by whole widths and heights changes
    nothing. *)
Theorem at_overflow_periodic G x y overflow :
  grid_inv G -> _allow_overflow G overflow = true ->
  inbounds G (x mod w G, y mod h G) = true /\
  (exists c, at_ G (x, y) overflow = Ok c /\
             at_ G (x mod w G, y mod h G) None = Ok c /\
             forall default, get G (x, y) default overflow = Ok c) /\
  forall a b,
    at_ G (x + a * w G, y + b * h G) overflow = at_ G (x, y) overflow.
Proof.
  intros Hinv Hov. pose proof Hinv as (Hw & Hh & Htile).
  assert (Hin : inbounds G (x mod w G, y mod h G) = true).
  { apply inbounds_spec. split; apply Z.mod_pos_bound; lia. }
  split; [exact Hin|]. split.
  - rewrite (at_inbounds G _ None Hin). rewrite at_wrapped by assumption.
    cbn [fst snd].
    destruct (py_getitem_lookup (data G) (y mod h G * w G + x mod w G))
      as (c & _ & Hc).
    { rewrite <- Htile. apply cell_index_bound; apply Z.mod_pos_bound; lia. }
    exists c. split; [exact Hc|]. split; [exact Hc|].
    intros default. unfold get. rewrite Hov.
    destruct (inbounds G (x, y)) eqn:Hxy.
    + rewrite at_wrapped by assumption. exact Hc.
    + rewrite at_wrapped by (assumption || reflexivity). exact Hc.
  - intros a b. rewrite !at_wrapped by assumption.
    rewrite !Z_mod_plus_full. reflexivity.
Qed.

(** X12: With overflow not in effect [at] does no bounds check of its own: it
    indexes the flat data at [y * w + x], so that a point outside the
    grid raises IndexError only when that index is outside
    [-len, len); otherwise it reads the cell of another point, the one
    whose row-major index is [y * w + x] modulo the number of cells. *)
Theorem at_spills_without_overflow G x y overflow :
  grid_inv G -> _allow_overflow G overflow = false ->
  let len := Z.of_nat (length (data G)) in
  let i := y * w G + x in
  (- len <= i < len ->
   inbounds G ((i mod len) mod w G, (i mod len) / w G) = true /\
   exists c,
     at_ G (x, y) overflow = Ok c /\
     at_ G ((i mod len) mod w G, (i mod len) / w G) overflow = Ok c) /\
  (~ - len <= i < len -> at_ G (x, y) overflow = Raise IndexError).
Proof.
  intros (Hw & Hh & Htile) Hov len i.
  assert (Hlen : 0 < len) by (unfold len; nia).
  rewrite !at_flat by exact Hov. fold i. split.
  - intros Hi.
    assert (Hj : 0 <= i mod len < len) by (apply Z.mod_pos_bound; lia).
    assert (Hq : 0 <= i mod len / w G < h G).
    { split; [apply Z.div_pos; lia|].
      apply Z.div_lt_upper_bound; [lia|]. rewrite Htile. exact (proj2 Hj). }
    split.
    { apply inbounds_spec. split; [apply Z.mod_pos_bound; lia|exact Hq]. }
    replace (i mod len / w G * w G + i mod len mod w G) with (i mod len)
      by (rewrite (Z.div_mod (i mod len) (w G)) at 1; lia).
    destruct (py_getitem_lookup (data G) (i mod len) Hj) as (c & Hc & Hget).
    exists c. split; [|exact Hget].
    unfold py_getitem, py_index. fold len.
    destruct (Z.leb_spec 0 i), (Z.ltb_spec i len); simpl.
    + rewrite Z.mod_small in Hc by lia. rewrite Hc. reflexivity.
    + lia.
    + destruct (Z.leb_spec (- len) i), (Z.ltb_spec i 0); simpl; try lia.
      replace (i mod len) with (len + i) in Hc.
      * rewrite Hc. reflexivity.
      * apply (Z.mod_unique_pos i len (-1)); lia.
    + lia.
  - intros Hi. unfold py_getitem, py_index. fold len.
    destruct (Z.leb_spec 0 i), (Z.ltb_spec i len); simpl; try lia;
      destruct (Z.leb_spec (- len) i), (Z.ltb_spec i 0); simpl;
      (reflexivity || lia).
Qed.

End Border.

Lemma at_overflow_periodic_witness :
  let G := mkGrid 2 2 [Some 1; Some 2; Some 3; Some 4] true in
  at_ G (1 + 3 * 2, 0 + (-1) * 2) None = at_ G (1, 0) None /\
  get G (7, -2) (Some 0) None = Ok (Some 2).
Proof.
  intros G.
  assert (Hinv : grid_inv G) by (unfold grid_inv; simpl; lia).
  destruct (at_overflow_periodic G 1 0 None Hinv eq_refl)
    as (_ & _ & Hshift).
  split; [apply (Hshift 3 (-1))|reflexivity].
Defined.

Lemma at_spills_without_overflow_witness :
  let G := mkGrid 2 2 [Some 1; Some 2; Some 3; Some 4] false in
  at_ G (2, 0) None = Ok (Some 3) /\ at_ G (-1, 0) None = Ok (Some 4) /\
  at_ G (0, 2) None = Raise IndexError.
Proof.
  intros G.
  assert (Hinv : grid_inv G) by (unfold grid_inv; simpl; lia).
  split; [reflexivity|]. split; [reflexivity|].
  apply (proj2 (at_spills_without_overflow G 0 2 None Hinv eq_refl)).
  simpl. lia.
Defined.

(** ** neighbors in general *)

Section NeighboursSpec.

Context {T : Type} `{EqDecision T}.
Variable order : bool -> list Direction.
Implicit Types (G : Grid T) (p : Point) (exclude include : option (filter T)).

Lemma neighbors_among_sublist G candidates exclude include overflow ns :
  neighbors_among G candidates exclude include overflow = Ok ns ->
  (fun n => (n.1.1, n.2)) <$> ns `sublist_of` candidates.
Proof.
  revert ns. induction candidates as [|[q d] candidates IH]; simpl; intros ns.
  - intros [= <-]. constructor.
  - destruct (get G q None overflow) as [v|e]; simpl; [|discriminate].
    destruct (neighbors_among G candidates exclude include overflow)
      as [rest|e]; simpl; [|discriminate].
    specialize (IH rest eq_refl).
    destruct v as [c|]; [destruct (_should_include _ _ _ _)|];
      intros [= <-]; try (apply sublist_cons, IH).
    rewrite fmap_cons. apply sublist_skip, IH.
Qed.

(** X13: On a grid of the data model [neighbors] never raises.  It yields, in
    the order in which the directions are enumerated and at most one per
    direction, exactly the adjacent points whose cell, read with [get],
    holds a value other than None that passes the filters. *)
Theorem neighbors_spec G p exclude include overflow include_diagonal :
  grid_inv G ->
  exists ns,
    neighbors order G p exclude include overflow include_diagonal = Ok ns /\
    (fun n => n.2) <$> ns `sublist_of` order include_diagonal /\
    (length ns <= length (order include_diagonal))%nat /\
    forall q v d, (q, v, d) ∈ ns <->
      d ∈ order include_diagonal /\ q = neighbor p d /\
      get G q None overflow = Ok v /\ v <> None /\
      _should_include q v exclude include = true.
Proof.
  intros Hinv.
  pose proof (neighbors_total order G exclude include include_diagonal
                overflow p Hinv) as Htot.
  destruct (neighbors order G p exclude include overflow include_diagonal)
    as [ns|e] eqn:Hns; [|destruct Htot].
  exists ns. split; [reflexivity|].
  unfold neighbors, neighbors_with_direction in Hns.
  pose proof (neighbors_among_sublist _ _ _ _ _ _ Hns) as Hsub.
  assert (Hdirs : (fun n : Point * cell T * Direction => n.2) <$> ns
                  `sublist_of` order include_diagonal).
  { apply (fmap_sublist snd) in Hsub.
    rewrite <- !list_fmap_compose in Hsub.
    assert (Hid : forall l : list Direction,
              snd ∘ (fun d => (neighbor p d, d)) <$> l = l).
    { intros l. induction l as [|a l IH]; [reflexivity|].
      rewrite fmap_cons, IH. reflexivity. }
    rewrite Hid in Hsub. exact Hsub. }
  split; [exact Hdirs|]. split.
  - apply sublist_length in Hdirs. rewrite length_fmap in Hdirs. exact Hdirs.
  - intros q v d. rewrite (neighbors_among_elem _ _ _ _ _ _ q v d Hns).
    rewrite list_elem_of_fmap. split.
    + intros ((d' & [= -> ->] & Hd) & Hrest). tauto.
    + intros (Hd & -> & Hrest). split; [eauto|tauto].
Qed.

End NeighboursSpec.

Lemma neighbors_spec_witness :
  let G := mkGrid 2 2 [Some 1; None; Some 3; Some 4] false in
  let order := fun b : bool =>
    if b then all_directions else cardinal_directions in
  exists ns,
    neighbors order G (0, 0) None None None true = Ok ns /\
    (ns = [((0, 1), Some 3, DOWN); ((1, 1), Some 4, BOTTOM_RIGHT)]) /\
    (fun n => n.2) <$> ns `sublist_of` all_directions.
Proof.
  intros G order.
  assert (Hinv : grid_inv G) by (unfold grid_inv; simpl; lia).
  destruct (neighbors_spec order G (0, 0) None None None true Hinv)
    as (ns & Hns & Hsub & _).
  exists ns. split; [exact Hns|]. split; [|exact Hsub].
  vm_compute in Hns. injection Hns as <-. reflexivity.
Defined.

(** ** replace with overflow *)

Section ReplaceWraps.

Context {T : Type} `{EqDecision T}.
Variable markup : string -> T -> T.
Implicit Types (G : Grid T) (p : Point) (value : cell T).

(** X14: With overflow in effect [replace] without a colour writes the value,
    None included, at the point wrapped into the grid, whatever the cell
    held: it never raises on a grid of the data model, the value is read
    back at the point and at its wrapped image, and the shape, the flag
    and every other cell stay as they were. *)
Theorem replace_wraps G x y value overflow :
  grid_inv G -> _allow_overflow G overflow = true ->
  exists G',
    replace markup G (x, y) value None overflow = Ok G' /\
    w G' = w G /\ h G' = h G /\ allow_overflow G' = allow_overflow G /\
    grid_inv G' /\
    at_ G' (x, y) (Some true) = Ok value /\
    at_ G' (x mod w G, y mod h G) None = Ok value /\
    forall q, inbounds G q = true -> q <> (x mod w G, y mod h G) ->
      at_ G' q None = at_ G q None.
Proof.
  intros Hinv Hov. pose proof Hinv as (Hw & Hh & Htile).
  assert (Hx : 0 <= x mod w G < w G) by (apply Z.mod_pos_bound; lia).
  assert (Hy : 0 <= y mod h G < h G) by (apply Z.mod_pos_bound; lia).
  pose proof (cell_index_bound _ _ _ _ Hx Hy) as Hi. rewrite Htile in Hi.
  set (i := y mod h G * w G + x mod w G) in *.
  set (G' := mkGrid (w G) (h G) (<[Z.to_nat i := value]> (data G))
               (allow_overflow G)).
  assert (Hinv' : grid_inv G').
  { unfold grid_inv, G'. simpl. rewrite length_insert. auto. }
  assert (Hin' : forall q, inbounds G' q = inbounds G q) by (intros []; reflexivity).
  assert (Hwrapped : inbounds G (x mod w G, y mod h G) = true)
    by (apply inbounds_spec; auto).
  assert (Hread : py_getitem (data G') i = Ok value).
  { unfold py_getitem, G'. simpl. rewrite length_insert.
    rewrite py_index_nonneg by exact Hi. simpl.
    rewrite list_lookup_insert_eq by lia. reflexivity. }
  exists G'. split; [|split; [reflexivity|split; [reflexivity|split;
    [reflexivity|split; [exact Hinv'|split; [|split]]]]]].
  - unfold replace, py_mod. rewrite Hov.
    destruct (Z.eqb_spec (w G) 0); [lia|].
    destruct (Z.eqb_spec (h G) 0); [lia|]. simpl. fold i.
    unfold py_setitem. rewrite py_index_nonneg by exact Hi. reflexivity.
  - unfold at_, py_mod. simpl.
    destruct (Z.eqb_spec (w G) 0); [lia|].
    destruct (Z.eqb_spec (h G) 0); [lia|]. simpl. exact Hread.
  - rewrite at_inbounds by (rewrite Hin'; exact Hwrapped). exact Hread.
  - intros [qx qy] Hq Hne.
    rewrite !at_inbounds by (try rewrite Hin'; exact Hq). cbn [fst snd].
    apply inbounds_spec in Hq.
    pose proof (cell_index_bound _ _ _ _ (proj1 Hq) (proj2 Hq)) as Hj.
    rewrite Htile in Hj.
    unfold py_getitem, G'. simpl. rewrite length_insert.
    rewrite py_index_nonneg by exact Hj. simpl.
    rewrite list_lookup_insert_ne; [reflexivity|].
    intros Heq. apply Hne.
    assert (Hcell : y mod h G * w G + x mod w G = qy * w G + qx)
      by (unfold i in Heq; lia).
    apply cell_index_inj in Hcell; [|lia|lia].
    destruct Hcell as [-> ->]. reflexivity.
Qed.

End ReplaceWraps.

Lemma replace_wraps_witness :
  let G := mkGrid 2 2 [Some 1; Some 2; Some 3; None] true in
  exists G',
    replace (fun _ v => v) G (3, -1) (Some 9) None None = Ok G' /\
    data G' = [Some 1; Some 2; Some 3; Some 9] /\
    at_ G' (1, 1) None = Ok (Some 9).
Proof.
  intros G.
  assert (Hinv : grid_inv G) by (unfold grid_inv; simpl; lia).
  destruct (replace_wraps (fun _ v => v) G 3 (-1) (Some 9) None Hinv eq_refl)
    as (G' & Hrep & _ & _ & _ & _ & _ & Hat & _).
  exists G'. split; [exact Hrep|]. split; [|exact Hat].
  vm_compute in Hrep. injection Hrep as <-. reflexivity.
Defined.

(** ** A path from a point to itself *)

Section TrivialPath.

Context {T : Type} `{EqDecision T}.
Variable order : bool -> list Direction.

(** X15: [shortest_path] from a point to itself is the one-point path.  The
    loop stops at its first round, before any neighbour is looked at, so
    this holds on every grid and for every point, also one outside the
    grid or one the filters reject. *)
Theorem shortest_path_to_itself (fuel : nat) (G : Grid T) (p : Point)
    (exclude include : option (filter T)) (include_diagonal : bool)
    (overflow : option bool) :
  (2 <= fuel)%nat ->
  shortest_path order fuel G (inl p) (inl p) exclude include include_diagonal
    overflow = Some (Ok [p]).
Proof.
  intros Hfuel. destruct fuel as [|[|fuel]]; [lia|lia|].
  unfold shortest_path. cbn [resolve]. cbn [search].
  destruct (decide (p = p)) as [_|Hne]; [|congruence].
  rewrite lookup_singleton_eq. cbn [backtrack].
  rewrite lookup_singleton_eq. reflexivity.
Qed.

End TrivialPath.

Lemma shortest_path_to_itself_witness :
  shortest_path (fun _ => cardinal_directions) 2
    (mkGrid 1 1 [Some 7] false) (inl (5, 5)) (inl (5, 5))
    (Some (Literal 7)) None false None = Some (Ok [(5, 5)]).
Proof. apply shortest_path_to_itself. lia. Defined.

(** ** Grids from text *)

(** The grid [from_lines] builds from the rows of cells it has cut. *)
Lemma from_lines_rows (lines : list pystr) (delimiter : option pystr) :
  from_lines (inr lines) delimiter None
  = (do first <- py_getitem (line_cells delimiter <$> lines) 0;
     Grid_init (Some <$> mjoin (line_cells delimiter <$> lines))
       (Some (Z.of_nat (length first)))
       (Some (Z.of_nat (length (line_cells delimiter <$> lines)))) false).
Proof. reflexivity. Qed.

Lemma py_getitem_head {A} (l : list A) :
  py_getitem l 0 = match l with [] => Raise IndexError | a :: _ => Ok a end.
Proof.
  destruct l as [|a l]; [reflexivity|].
  unfold py_getitem. rewrite py_index_nonneg by (simpl; lia). reflexivity.
Qed.

Lemma Grid_init_given {T} (cells : list (cell T)) (wd ht : Z) (b : bool) :
  ht <> 0 ->
  Grid_init cells (Some wd) (Some ht) b
  = if wd * ht =? Z.of_nat (length cells) then Ok (mkGrid wd ht cells b)
    else Raise AssertionError.
Proof.
  intros Hht. unfold Grid_init, Grid_dims, truthy.
  destruct ht; [congruence| |]; reflexivity.
Qed.

Lemma rows_to_grid (rows : list (list pystr)) (first : list pystr)
    (rest : list (list pystr)) :
  rows = first :: rest ->
  (do first <- py_getitem rows 0;
   Grid_init (Some <$> mjoin rows) (Some (Z.of_nat (length first)))
     (Some (Z.of_nat (length rows))) false)
  = if bool_decide (length (mjoin rows) = (length first * length rows)%nat)
    then Ok (mkGrid (Z.of_nat (length first)) (Z.of_nat (length rows))
               (Some <$> mjoin rows) false)
    else Raise AssertionError.
Proof.
  intros ->. rewrite py_getitem_head. cbn [result_bind].
  rewrite Grid_init_given by (simpl; lia). rewrite length_fmap.
  destruct (Z.eqb_spec (Z.of_nat (length first)
                        * Z.of_nat (length (first :: rest)))
              (Z.of_nat (length (mjoin (first :: rest))))) as [Heq|Hne].
  - rewrite bool_decide_eq_true_2 by lia. reflexivity.
  - rewrite bool_decide_eq_false_2 by lia. reflexivity.
Qed.

Lemma length_mjoin_same {A} (n : nat) (ls : list (list A)) :
  Forall (fun l => length l = n) ls -> length (mjoin ls) = (n * length ls)%nat.
Proof.
  induction 1 as [|l ls Hl _ IH]; simpl; [lia|].
  rewrite length_app, IH, Hl. lia.
Qed.

(** A rectangle of rows becomes the grid that holds the cell [x] of the
    row [y] at the point [(x, y)]. *)
Lemma rectangle_to_grid (rows : list (list pystr)) (n : nat) :
  rows <> [] -> Forall (fun r => length r = n) rows ->
  exists G,
    (do first <- py_getitem rows 0;
     Grid_init (Some <$> mjoin rows) (Some (Z.of_nat (length first)))
       (Some (Z.of_nat (length rows))) false) = Ok G /\
    w G = Z.of_nat n /\ h G = Z.of_nat (length rows) /\
    allow_overflow G = false /\ tiles G /\
    data G = Some <$> mjoin rows /\
    forall (x y : nat) row c,
      rows !! y = Some row -> row !! x = Some c ->
      at_ G (Z.of_nat x, Z.of_nat y) None = Ok (Some c).
Proof.
  intros Hne Hall. destruct rows as [|first rest] eqn:Hrows; [congruence|].
  rewrite <- Hrows in *.
  assert (Hfirst : length first = n).
  { rewrite Hrows in Hall. apply Forall_cons in Hall as [Hf _]. exact Hf. }
  pose proof (length_mjoin_same n rows Hall) as Hlen.
  rewrite (rows_to_grid rows first rest Hrows), Hfirst.
  rewrite bool_decide_eq_true_2 by exact Hlen.
  eexists. split; [reflexivity|]. cbn [w h allow_overflow data].
  split; [reflexivity|]. split; [reflexivity|]. split; [reflexivity|].
  split; [unfold tiles; simpl; rewrite length_fmap; lia|].
  split; [reflexivity|].
  intros x y row c Hrow Hc. rewrite at_flat by reflexivity. simpl.
  replace (Z.of_nat y * Z.of_nat n + Z.of_nat x)
    with (Z.of_nat (y * n + x)) by lia.
  apply py_getitem_nat. rewrite list_lookup_fmap.
  assert (Hx : (x < n)%nat).
  { apply lookup_lt_Some in Hc. rewrite Forall_forall in Hall.
    rewrite (Hall row) in Hc; [exact Hc|].
    apply list_elem_of_lookup. eauto. }
  rewrite (proj2 (join_lookup_Some_same_length' n rows y x c Hall Hx));
    [reflexivity|eauto].
Qed.

(** X16: [from_lines] on lines that all cut into the same number of cells
    builds the grid of that width and of one row per line, with overflow
    off, which holds the cell [x] of the line [y] at the point [(x, y)];
    given no line at all it raises IndexError. *)
Theorem from_lines_rectangular (lines : list pystr)
    (delimiter : option pystr) (n : nat) :
  Forall (fun line => length (line_cells delimiter line) = n) lines ->
  (lines = [] ->
   from_lines (inr lines) delimiter None = Raise IndexError) /\
  (lines <> [] ->
   exists G,
     from_lines (inr lines) delimiter None = Ok G /\
     w G = Z.of_nat n /\ h G = Z.of_nat (length lines) /\
     allow_overflow G = false /\ tiles G /\
     forall (x y : nat) line c,
       lines !! y = Some line -> line_cells delimiter line !! x = Some c ->
       at_ G (Z.of_nat x, Z.of_nat y) None = Ok (Some c)).
Proof.
  intros Hall. split; [intros ->; reflexivity|]. intros Hne.
  rewrite from_lines_rows.
  destruct (rectangle_to_grid (line_cells delimiter <$> lines) n)
    as (G & HG & Hw & Hh & Hflag & Htile & _ & Hcells).
  - destruct lines; [congruence|discriminate].
  - apply Forall_fmap. exact Hall.
  - exists G. split; [exact HG|]. split; [exact Hw|].
    split; [rewrite Hh, length_fmap; reflexivity|].
    split; [exact Hflag|]. split; [exact Htile|].
    intros x y line c Hline Hc.
    apply (Hcells x y (line_cells delimiter line) c); [|exact Hc].
    rewrite list_lookup_fmap, Hline. reflexivity.
Qed.

(** X17: [from_lines] does not compare the rows with one another: given at
    least one line it succeeds exactly when the number of cells is the
    length of the first row times the number of rows, so that ragged rows
    whose lengths happen to add up pass, and their cells land row-major
    in a grid as wide as the first row; otherwise the constructor's
    assertion fails. *)
Theorem from_lines_accepts_by_count (line : pystr) (lines : list pystr)
    (delimiter : option pystr) :
  let rows := line_cells delimiter <$> line :: lines in
  let first := line_cells delimiter line in
  (length (mjoin rows) = (length first * length rows)%nat ->
   from_lines (inr (line :: lines)) delimiter None
   = Ok (mkGrid (Z.of_nat (length first)) (Z.of_nat (length rows))
           (Some <$> mjoin rows) false)) /\
  (length (mjoin rows) <> (length first * length rows)%nat ->
   from_lines (inr (line :: lines)) delimiter None = Raise AssertionError).
Proof.
  intros rows first. rewrite from_lines_rows. fold rows.
  rewrite (rows_to_grid rows first (fmap (M := list) (line_cells delimiter) lines)
             eq_refl).
  split; intros Hcount.
  - rewrite bool_decide_eq_true_2 by exact Hcount. reflexivity.
  - rewrite bool_decide_eq_false_2 by exact Hcount. reflexivity.
Qed.

Lemma from_lines_rectangular_witness :
  exists G,
    from_lines (inr [["a"; "b"]; ["c"; "d"]; ["e"; "f"]]%char) None None
      = Ok G /\
    w G = 2 /\ h G = 3 /\ at_ G (1, 2) None = Ok (Some ["f"%char]).
Proof.
  destruct (proj2 (from_lines_rectangular
                     [["a"; "b"]; ["c"; "d"]; ["e"; "f"]]%char None 2
                     ltac:(repeat constructor)) ltac:(discriminate))
    as (G & HG & Hw & Hh & _ & _ & Hcells).
  exists G. split; [exact HG|]. split; [exact Hw|]. split; [exact Hh|].
  apply (Hcells 1%nat 2%nat ["e"; "f"]%char ["f"%char]); reflexivity.
Defined.

Lemma from_lines_accepts_by_count_witness :
  from_lines (inr [["a"; "b"]; ["c"]; ["d"; "e"; "f"]]%char) None None
  = Ok (mkGrid 2 3 (Some <$> [["a"]; ["b"]; ["c"]; ["d"]; ["e"]; ["f"]]%char)
          false) /\
  from_lines (inr [["a"; "b"]; ["c"]]%char) None None = Raise AssertionError.
Proof.
  split.
  - apply (proj1 (from_lines_accepts_by_count ["a"; "b"]%char
                    [["c"]; ["d"; "e"; "f"]]%char None)).
    reflexivity.
  - apply (proj2 (from_lines_accepts_by_count ["a"; "b"]%char
                    [["c"]]%char None)).
    simpl. lia.
Defined.

(** The rows [from_lines] builds when a padding cell is given: a row of
    padding, the rows with a padding cell on either side, a row of
    padding. *)
Lemma from_lines_padded_rows (lines : list pystr) (delimiter : option pystr)
    (pad : pystr) (n : nat) :
  pad <> [] -> lines <> [] ->
  Forall (fun line => length (line_cells delimiter line) = n) lines ->
  from_lines (inr lines) delimiter (Some pad)
  = (let rows :=
       [replicate (S (S n)) pad]
       ++ ((fun line => [pad] ++ line_cells delimiter line ++ [pad]) <$> lines)
       ++ [replicate (S (S n)) pad] in
     do first <- py_getitem rows 0;
     Grid_init (Some <$> mjoin rows) (Some (Z.of_nat (length first)))
       (Some (Z.of_nat (length rows))) false).
Proof.
  intros Hpad Hne Hall. destruct pad as [|c p]; [congruence|].
  destruct lines as [|line lines]; [congruence|].
  apply Forall_cons in Hall as [Hline _].
  unfold from_lines. rewrite !fmap_cons, py_getitem_head. cbn [result_bind].
  rewrite py_getitem_head. cbn [result_bind].
  rewrite !py_repeat_singleton, !Nat2Z.id, length_replicate.
  rewrite length_app, length_app, Hline. cbn [length].
  replace (1 + (n + 1))%nat with (S (S n)) by lia.
  rewrite <- list_fmap_compose. reflexivity.
Qed.

(** X18: [from_lines] with a padding cell, on lines that all cut into [n]
    cells: the grid is two cells wider than the rows and two rows higher
    than the lines, every point of its outer frame holds the padding cell,
    and the cell [x] of the line [y] sits at [(x + 1, y + 1)].  Given no
    line at all it raises IndexError. *)
Theorem from_lines_padded (lines : list pystr) (delimiter : option pystr)
    (pad : pystr) (n : nat) :
  pad <> [] ->
  Forall (fun line => length (line_cells delimiter line) = n) lines ->
  (lines = [] ->
   from_lines (inr lines) delimiter (Some pad) = Raise IndexError) /\
  (lines <> [] ->
   exists G,
     from_lines (inr lines) delimiter (Some pad) = Ok G /\
     w G = Z.of_nat n + 2 /\ h G = Z.of_nat (length lines) + 2 /\
     allow_overflow G = false /\ tiles G /\
     (forall x y, inbounds G (x, y) = true ->
        x = 0 \/ x = w G - 1 \/ y = 0 \/ y = h G - 1 ->
        at_ G (x, y) None = Ok (Some pad)) /\
     (forall (x y : nat) line c,
        lines !! y = Some line -> line_cells delimiter line !! x = Some c ->
        at_ G (Z.of_nat x + 1, Z.of_nat y + 1) None = Ok (Some c))).
Proof.
  intros Hpad Hall. split.
  { intros ->. destruct pad; [congruence|reflexivity]. }
  intros Hne. rewrite (from_lines_padded_rows lines delimiter pad n Hpad Hne Hall).
  cbv zeta.
  set (middle := (fun line => [pad] ++ line_cells delimiter line ++ [pad])
                   <$> lines).
  set (rows := [replicate (S (S n)) pad] ++ middle ++ [replicate (S (S n)) pad]).
  assert (Hlen : length rows = S (S (length lines))).
  { unfold rows, middle. rewrite !length_app, length_fmap. simpl. lia. }
  assert (Hmid : forall y line, lines !! y = Some line ->
            rows !! S y = Some ([pad] ++ line_cells delimiter line ++ [pad])).
  { intros y line Hline. unfold rows. simpl.
    rewrite lookup_app_l
      by (unfold middle; rewrite length_fmap; eapply lookup_lt_Some, Hline).
    unfold middle. rewrite list_lookup_fmap, Hline. reflexivity. }
  destruct (rectangle_to_grid rows (S (S n)))
    as (G & HG & Hw & Hh & Hflag & Htile & _ & Hcells).
  { unfold rows. discriminate. }
  { unfold rows, middle. apply Forall_app. split; [|apply Forall_app; split].
    - repeat constructor. apply length_replicate.
    - apply Forall_fmap. eapply Forall_impl; [exact Hall|].
      intros line Hline. simpl. rewrite length_app, Hline. simpl. lia.
    - repeat constructor. apply length_replicate. }
  exists G. split; [exact HG|]. split; [lia|]. split; [lia|].
  split; [exact Hflag|]. split; [exact Htile|]. split.
  - intros x y Hin Hedge. apply inbounds_spec in Hin.
    rewrite Hw, Hh, Hlen in *.
    assert (Hrow : exists row, rows !! Z.to_nat y = Some row /\
              length row = S (S n) /\
              (y = 0 \/ y = Z.of_nat (S (S (length lines))) - 1 ->
               row = replicate (S (S n)) pad) /\
              row !! 0%nat = Some pad /\ row !! S n = Some pad).
    { destruct (Z.to_nat y) as [|k] eqn:Hy.
      - exists (replicate (S (S n)) pad). split; [reflexivity|].
        split; [apply length_replicate|]. split; [auto|].
        split; apply lookup_replicate_2; lia.
      - destruct (lines !! k) as [line|] eqn:Hline.
        + exists ([pad] ++ line_cells delimiter line ++ [pad]).
          split; [apply Hmid, Hline|].
          assert (Hn : length (line_cells delimiter line) = n).
          { rewrite Forall_forall in Hall. apply Hall.
            apply list_elem_of_lookup. eauto. }
          split; [simpl; rewrite length_app, Hn; simpl; lia|].
          split.
          { intros [Hy0|Hy1]; [lia|].
            apply lookup_lt_Some in Hline. lia. }
          split; [reflexivity|]. simpl.
          rewrite lookup_app_r by lia. rewrite Hn, Nat.sub_diag. reflexivity.
        + apply lookup_ge_None in Hline.
          assert (k = length lines) as -> by lia.
          exists (replicate (S (S n)) pad). split.
          { unfold rows. simpl. rewrite lookup_app_r
              by (unfold middle; rewrite length_fmap; lia).
            unfold middle. rewrite length_fmap, Nat.sub_diag. reflexivity. }
          split; [apply length_replicate|]. split; [auto|].
          split; apply lookup_replicate_2; lia. }
    destruct Hrow as (row & Hrow & Hrl & Hfull & Hleft & Hright).
    replace x with (Z.of_nat (Z.to_nat x)) by lia.
    replace y with (Z.of_nat (Z.to_nat y)) at 1 by lia.
    apply (Hcells _ _ row pad Hrow).
    destruct Hedge as [->|[->|Hy]].
    + exact Hleft.
    + replace (Z.to_nat (Z.of_nat (S (S n)) - 1)) with (S n) by lia.
      exact Hright.
    + rewrite Hfull by exact Hy. apply lookup_replicate_2. lia.
  - intros x y line c Hline Hc.
    replace (Z.of_nat x + 1) with (Z.of_nat (S x)) by lia.
    replace (Z.of_nat y + 1) with (Z.of_nat (S y)) by lia.
    apply (Hcells _ _ _ c (Hmid y line Hline)). simpl.
    rewrite lookup_app_l by (eapply lookup_lt_Some, Hc). exact Hc.
Qed.

Lemma from_lines_padded_witness :
  exists G,
    from_lines (inr [["a"; "b"]]%char) None (Some ["#"%char]) = Ok G /\
    w G = 4 /\ h G = 3 /\
    at_ G (0, 1) None = Ok (Some ["#"%char]) /\
    at_ G (2, 1) None = Ok (Some ["b"%char]).
Proof.
  destruct (proj2 (from_lines_padded [["a"; "b"]%char] None ["#"%char] 2
                     ltac:(discriminate) ltac:(repeat constructor))
              ltac:(discriminate))
    as (G & HG & Hw & Hh & _ & _ & Hframe & Hcells).
  exists G. split; [exact HG|]. split; [exact Hw|]. split; [exact Hh|].
  split.
  - apply Hframe; [|left; reflexivity].
    apply inbounds_spec. rewrite Hw, Hh. simpl. lia.
  - apply (Hcells 1%nat 0%nat ["a"; "b"]%char ["b"%char]); reflexivity.
Defined.

(** ** Printing a grid and reading it back *)

Lemma splitlines_from_plain (cur l rest : pystr) :
  Forall (fun c => linebreak c = false) l ->
  splitlines_from cur (l ++ rest) = splitlines_from (cur ++ l) rest.
Proof.
  intros Hl. revert cur. induction Hl as [|c l Hc _ IH]; intros cur.
  - rewrite app_nil_r. reflexivity.
  - simpl. rewrite Hc, IH, <- app_assoc. reflexivity.
Qed.

Lemma splitlines_from_newline (cur s : pystr) :
  splitlines_from cur ("010"%char :: s) = cur :: splitlines_from [] s.
Proof. destruct s; reflexivity. Qed.

(** Lines without line boundaries, the last of them not empty, are what
    [splitlines] finds in their join by newlines. *)
Lemma splitlines_join (ls : list pystr) :
  Forall (Forall (fun c => linebreak c = false)) ls ->
  last ls <> Some [] ->
  splitlines (py_join ["010"%char] ls) = ls.
Proof.
  unfold splitlines. induction ls as [|a ls IH]; intros Hplain Hlast;
    [reflexivity|].
  apply Forall_cons in Hplain as [Ha Hplain].
  destruct ls as [|b ls].
  - simpl. rewrite <- (app_nil_r a) at 1.
    rewrite splitlines_from_plain by exact Ha. simpl.
    destruct a; [simpl in Hlast; congruence|reflexivity].
  - change (py_join ["010"%char] (a :: b :: ls))
      with (a ++ "010"%char :: py_join ["010"%char] (b :: ls)).
    rewrite splitlines_from_plain by exact Ha. simpl app.
    rewrite splitlines_from_newline, IH; [reflexivity|exact Hplain|].
    exact Hlast.
Qed.

Section RoundTrip.

(** A cell that holds one character which is no line boundary. *)
Local Abbreviation plain_cell :=
  (fun cell : cell pystr => exists c, cell = Some [c] /\ linebreak c = false).

Lemma row_str_plain (r : list (cell pystr)) :
  Forall plain_cell r ->
  Forall (fun c => linebreak c = false) (mjoin (str_of_cell <$> r)) /\
  length (mjoin (str_of_cell <$> r)) = length r /\
  Some <$> line_cells None (mjoin (str_of_cell <$> r)) = r.
Proof.
  induction 1 as [|cell r (c & -> & Hc) _ (IH1 & IH2 & IH3)].
  - repeat split. constructor.
  - change (mjoin (str_of_cell <$> Some [c] :: r))
      with (c :: mjoin (str_of_cell <$> r)).
    split; [constructor; assumption|].
    split; [simpl; congruence|].
    cbn [line_cells] in IH3 |- *. rewrite !fmap_cons, IH3. reflexivity.
Qed.

Lemma fmap_mjoin {A B} (f : A -> B) (ls : list (list A)) :
  f <$> mjoin ls = mjoin (fmap f <$> ls).
Proof.
  induction ls as [|l ls IH]; [reflexivity|].
  simpl. rewrite fmap_app, IH. reflexivity.
Qed.

(** X19: A grid of the data model whose cells each hold one character, none of
    them a line boundary, is read back by [from_lines] from what [str]
    prints: same width, height and cells, with the overflow flag off. *)
Theorem from_lines_of_str (G : Grid pystr) :
  grid_inv G -> Forall plain_cell (data G) ->
  exists s,
    Grid_str str_of_cell G = Ok s /\
    from_lines (inl s) None None = Ok (with_overflow false G).
Proof.
  intros Hinv Hplain. pose proof Hinv as (Hw & Hh & Htile).
  pose proof (grid_inv_represents G Hinv) as Hrep.
  pose proof (mjoin_rows G _ Hrep) as Hjoin.
  pose proof (iter_rows_Ok G _ Hrep) as Hiter.
  remember ((fun r => (fun c => cell_at G c r) <$> range (w G))
              <$> range (h G)) as rs eqn:Hrs.
  assert (Hrows : Forall (fun r => Forall plain_cell r /\
                                   length r = Z.to_nat (w G)) rs).
  { apply Forall_forall. intros r Hr. split.
    - apply Forall_forall. intros cell Hcell.
      rewrite Forall_forall in Hplain. apply Hplain. rewrite <- Hjoin.
      apply list_elem_of_join. eauto.
    - rewrite Hrs in Hr. apply list_elem_of_fmap in Hr as (y & -> & _).
      rewrite length_fmap. apply length_seqZ. }
  assert (Hcount : length rs = Z.to_nat (h G))
    by (rewrite Hrs, length_fmap; apply length_seqZ).
  set (row_str := fun r : list (cell pystr) => mjoin (str_of_cell <$> r)).
  exists (py_join ["010"%char] (row_str <$> rs)). split.
  { unfold Grid_str. rewrite Hiter. reflexivity. }
  clear Hrs Hiter.
  unfold from_lines. rewrite splitlines_join.
  2:{ apply Forall_fmap. eapply Forall_impl; [exact Hrows|].
      intros r [Hr _]. apply (row_str_plain r Hr). }
  2:{ rewrite fmap_last. destruct (last rs) as [r|] eqn:Hlast; [|discriminate].
      simpl. intros [= Hnil].
      assert (Hr : r ∈ rs).
      { rewrite last_lookup in Hlast. apply list_elem_of_lookup. eauto. }
      rewrite Forall_forall in Hrows. destruct (Hrows r Hr) as [Hpl Hlen].
      destruct (row_str_plain r Hpl) as (_ & Hl & _).
      unfold row_str in Hnil. rewrite Hnil in Hl. simpl in Hl. lia. }
  cbn [result_bind]. rewrite <- list_fmap_compose.
  assert (Hdata : Some <$> mjoin (line_cells None ∘ row_str <$> rs) = data G).
  { rewrite fmap_mjoin, <- list_fmap_compose, <- Hjoin. f_equal.
    clear -Hrows. induction Hrows as [|r rs' [Hr _] _ IH]; [reflexivity|].
    rewrite fmap_cons, IH. f_equal. apply (row_str_plain r Hr). }
  destruct rs as [|r0 rs']; [simpl in Hcount; lia|].
  rewrite fmap_cons, py_getitem_head. cbn [result_bind].
  rewrite <- fmap_cons, Hdata.
  apply Forall_cons in Hrows as [[Hr0 Hlen0] _].
  destruct (row_str_plain r0 Hr0) as (_ & Hl0 & _).
  assert (Hwd : Z.of_nat (length ((line_cells None ∘ row_str) r0)) = w G).
  { unfold line_cells, compose. rewrite length_fmap.
    unfold row_str. rewrite Hl0, Hlen0. lia. }
  rewrite Hwd, length_fmap, Hcount, Z2Nat.id by lia.
  rewrite Grid_init_given by lia.
  destruct (Z.eqb_spec (w G * h G) (Z.of_nat (length (data G))));
    [reflexivity|contradiction].
Qed.

End RoundTrip.

Lemma from_lines_of_str_witness :
  let G := mkGrid 2 2 (Some <$> [["a"]; ["b"]; ["c"]; ["d"]]%char) false in
  Grid_str str_of_cell G = Ok ["a"; "b"; "010"; "c"; "d"]%char /\
  from_lines (inl ["a"; "b"; "010"; "c"; "d"]%char) None None = Ok G.
Proof.
  intros G.
  assert (Hinv : grid_inv G) by (unfold grid_inv; simpl; lia).
  assert (Hplain : Forall (fun cell : cell pystr =>
            exists c, cell = Some [c] /\ linebreak c = false) (data G)).
  { repeat constructor; eexists; (split; [reflexivity|reflexivity]). }
  destruct (from_lines_of_str G Hinv Hplain) as (s & Hs & Hread).
  split; [reflexivity|].
  assert (Heq : s = ["a"; "b"; "010"; "c"; "d"]%char).
  { vm_compute in Hs. injection Hs as <-. reflexivity. }
  rewrite <- Heq. exact Hread.
Defined.

(** ** colored_str without colours *)

Lemma fmap_const_seq {A} (a : A) (s k : nat) :
  (fun _ => a) <$> seq s k = replicate k a.
Proof.
  revert s. induction k as [|k IH]; intros s; [reflexivity|].
  simpl. rewrite IH. reflexivity.
Qed.

Section Uncoloured.

Variable G : Grid pystr.
Variable points_to_colors : gmap Point pystr.
Variable values_to_color : gmap pystr pystr.
Hypothesis G_inv : grid_inv G.
Hypothesis no_point_colour : map_Forall (fun _ c => c = []) points_to_colors.
Hypothesis no_value_colour : map_Forall (fun _ c => c = []) values_to_color.

Local Abbreviation wn := (Z.to_nat (w G)).
Local Abbreviation hn := (Z.to_nat (h G)).

(** The text of row [y] once the first [n] cells have been handled. *)
Local Abbreviation partial n :=
  (fun y : nat =>
     mjoin (str_of_cell <$>
              ((fun x : nat => cell_at G (Z.of_nat x) (Z.of_nat y))
                 <$> seq 0 (min wn (n - y * wn))))).

Lemma colored_step_plain (n : nat) (c : cell pystr) :
  data G !! n = Some c ->
  colored_step G points_to_colors values_to_color
    (Ok (partial n <$> seq 0 hn)) (n, c)
  = Ok (partial (S n) <$> seq 0 hn).
Proof.
  intros Hc. destruct G_inv as (Hw & Hh & Htile).
  assert (Hn : (n < wn * hn)%nat) by (apply lookup_lt_Some in Hc; nia).
  assert (HW : w G = Z.of_nat wn) by lia.
  set (xn := (n mod wn)%nat). set (yn := (n / wn)%nat).
  assert (Hdiv : n = (yn * wn + xn)%nat)
    by (unfold xn, yn; rewrite (Nat.div_mod_eq n wn) at 1; lia).
  assert (Hxn : (xn < wn)%nat) by (apply Nat.mod_upper_bound; lia).
  assert (Hyn : (yn < hn)%nat) by (apply Nat.Div0.div_lt_upper_bound; lia).
  assert (Hx : Z.of_nat n mod w G = Z.of_nat xn)
    by (unfold xn; rewrite Nat2Z.inj_mod, <- HW; reflexivity).
  assert (Hy : Z.of_nat n / w G = Z.of_nat yn)
    by (unfold yn; rewrite Nat2Z.inj_div, <- HW; reflexivity).
  clearbody xn yn.
  unfold colored_step. cbn [result_bind fst snd]. unfold py_mod, py_floordiv.
  destruct (Z.eqb_spec (w G) 0); [lia|]. cbn [result_bind].
  rewrite Hx, Hy.
  assert (Hline : (partial n <$> seq 0 hn) !! yn = Some (partial n yn)).
  { rewrite list_lookup_fmap, lookup_seq_lt by exact Hyn. reflexivity. }
  rewrite (py_getitem_nat _ _ _ Hline). cbn [result_bind].
  assert (Hplain :
    match
      match points_to_colors !! (Z.of_nat xn, Z.of_nat yn) with
      | Some c0 => Some c0
      | None => values_to_color !! str_of_cell c
      end
    with
    | Some [] | None => True
    | Some (_ :: _) => False
    end).
  { destruct (points_to_colors !! (Z.of_nat xn, Z.of_nat yn)) as [k|] eqn:Hp.
    - rewrite (map_Forall_lookup_1 _ _ _ _ no_point_colour Hp). exact I.
    - destruct (values_to_color !! str_of_cell c) as [k|] eqn:Hv; [|exact I].
      rewrite (map_Forall_lookup_1 _ _ _ _ no_value_colour Hv). exact I. }
  assert (Hnext : <[yn := partial n yn ++ str_of_cell c]>
                    (partial n <$> seq 0 hn)
                  = partial (S n) <$> seq 0 hn).
  { apply list_eq. intros j.
    destruct (decide (j < hn)%nat) as [Hj|Hj].
    2:{ rewrite !(proj2 (lookup_ge_None _ _)); [reflexivity| |];
        rewrite ?length_insert, length_fmap, length_seq; lia. }
    rewrite (list_lookup_fmap _ (seq 0 hn)), lookup_seq_lt by exact Hj.
    cbn [fmap option_fmap option_map Nat.add].
    destruct (decide (j = yn)) as [->|Hne].
    - rewrite list_lookup_insert_eq by (rewrite length_fmap, length_seq; lia).
      f_equal.
      replace (min wn (S n - yn * wn)) with (S xn) by lia.
      replace (min wn (n - yn * wn)) with xn by lia.
      rewrite seq_S, !fmap_app, join_app. f_equal. simpl.
      rewrite app_nil_r. unfold cell_at.
      replace (Z.to_nat (Z.of_nat yn * w G + Z.of_nat xn)) with n by lia.
      symmetry.
      exact (f_equal (fun o => str_of_cell (default None o)) Hc).
    - rewrite list_lookup_insert_ne by congruence.
      rewrite list_lookup_fmap, lookup_seq_lt by exact Hj.
      cbn [fmap option_fmap option_map Nat.add]. do 5 f_equal.
      assert (j < yn -> (j + 1) * wn <= yn * wn)%nat by nia.
      assert (yn < j -> (yn + 1) * wn <= j * wn)%nat by nia.
      lia. }
  rewrite <- Hnext.
  destruct (match points_to_colors !! (Z.of_nat xn, Z.of_nat yn) with
            | Some c0 => Some c0
            | None => values_to_color !! str_of_cell c
            end) as [[|k olor]|]; [|destruct Hplain|];
    apply py_setitem_nat; rewrite length_fmap, length_seq; exact Hyn.
Qed.

Lemma colored_fold (n : nat) :
  (n <= length (data G))%nat ->
  foldl (colored_step G points_to_colors values_to_color)
    (Ok (partial 0 <$> seq 0 hn))
    (take n (imap (fun i c => (i, c)) (data G)))
  = Ok (partial n <$> seq 0 hn).
Proof.
  induction n as [|n IH]; intros Hn; [reflexivity|].
  destruct (lookup_lt_is_Some_2 (data G) n) as [c Hc]; [lia|].
  rewrite (take_S_r _ n (n, c)) by (rewrite list_lookup_imap, Hc; reflexivity).
  rewrite foldl_app, IH by lia. simpl.
  apply colored_step_plain, Hc.
Qed.

Lemma colored_str_rows :
  colored_str G points_to_colors values_to_color
  = Ok (py_join ["010"%char] (partial (wn * hn) <$> seq 0 hn)).
Proof.
  destruct G_inv as (Hw & Hh & Htile). unfold colored_str.
  assert (Hinit : replicate hn ([] : pystr) = partial 0 <$> seq 0 hn).
  { rewrite (list_fmap_ext (partial 0) (fun _ => []) (seq 0 hn))
      by (intros i y _; rewrite Nat.sub_0_l, Nat.min_0_r; reflexivity).
    symmetry. apply fmap_const_seq. }
  rewrite Hinit.
  rewrite <- (take_ge (imap (fun i c => (i, c)) (data G)) (length (data G)))
    by (rewrite length_imap; lia).
  rewrite colored_fold by lia.
  replace (length (data G)) with (wn * hn)%nat by nia. reflexivity.
Qed.

End Uncoloured.

(** X20: With colour mappings that give no colour (empty mappings, or
    mappings whose colours are all the empty string) [colored_str] on a
    grid of the data model is what [str] returns. *)
Theorem colored_str_without_colours (G : Grid pystr)
    (points_to_colors : gmap Point pystr)
    (values_to_color : gmap pystr pystr) :
  grid_inv G ->
  map_Forall (fun _ c => c = []) points_to_colors ->
  map_Forall (fun _ c => c = []) values_to_color ->
  colored_str G points_to_colors values_to_color = Grid_str str_of_cell G.
Proof.
  intros Hinv Hpts Hvals.
  rewrite (colored_str_rows G _ _ Hinv Hpts Hvals).
  unfold Grid_str.
  rewrite (iter_rows_Ok G _ (grid_inv_represents G Hinv)). cbn [result_bind].
  destruct Hinv as (Hw & Hh & Htile).
  do 2 f_equal. unfold range, seqZ. rewrite <- !list_fmap_compose.
  apply list_fmap_ext. intros i y Hy.
  apply lookup_seq in Hy as [-> Hi]. unfold compose. simpl.
  replace (min (Z.to_nat (w G)) (Z.to_nat (w G) * Z.to_nat (h G)
                                 - i * Z.to_nat (w G)))
    with (Z.to_nat (w G)) by nia.
  rewrite <- !list_fmap_compose. f_equal.
  apply list_fmap_ext. intros j x _. unfold compose.
  rewrite !Z.add_0_r. reflexivity.
Qed.

Lemma colored_str_without_colours_witness :
  let G := mkGrid 2 2 [Some ["a"]; None; Some ["\"]; Some ["d"]]%char false in
  colored_str G ∅ ∅ = Grid_str str_of_cell G /\
  Grid_str str_of_cell G
  = Ok ["a"; "N"; "o"; "n"; "e"; "010"; "\"; "d"]%char.
Proof.
  intros G. split; [|reflexivity].
  apply colored_str_without_colours.
  - unfold grid_inv. simpl. lia.
  - apply map_Forall_empty.
  - apply map_Forall_empty.
Defined.

(** ** Transforms composed *)

Section TransformsComposed.

Context {T U : Type} `{EqDecision T} `{EqDecision U}.

Lemma transform_represents (G : Grid T) (f : Z -> Z -> cell T)
    (func : cell T -> cell U) :
  represents G f ->
  exists G', transform func G = Ok G' /\ w G' = w G /\ h G' = h G /\
             allow_overflow G' = allow_overflow G /\
             represents G' (fun x y => func (f x y)).
Proof.
  intros (Hw & Hh & Htile & Hf). unfold transform.
  rewrite Grid_init_given by lia. rewrite length_fmap.
  destruct (Z.eqb_spec (w G * h G) (Z.of_nat (length (data G)))); [|lia].
  eexists. split; [reflexivity|]. do 3 (split; [reflexivity|]).
  split; [exact Hw|]. split; [exact Hh|]. simpl.
  split; [rewrite length_fmap; exact Htile|].
  intros x y Hx Hy. rewrite list_lookup_fmap, Hf by assumption. reflexivity.
Qed.

(** X21: [transform] commutes with [transpose] and with [rotate]: on a grid of
    the data model, mapping the cells and then transposing (or rotating)
    gives the grid that transposing (or rotating) and then mapping gives.
    [transpose] and [rotate] return a grid with the overflow flag off,
    whatever the flag of the grid they are given. *)
Theorem transform_commutes (G : Grid T) (func : cell T -> cell U) :
  grid_inv G ->
  exists Gt Gr,
    transpose G = Ok Gt /\ rotate G = Ok Gr /\
    allow_overflow Gt = false /\ allow_overflow Gr = false /\
    (do G' <- transform func G; transpose G') = transform func Gt /\
    (do G' <- transform func G; rotate G') = transform func Gr /\
    is_Ok (transform func Gt) /\ is_Ok (transform func Gr).
Proof.
  intros Hrep%grid_inv_represents.
  destruct (transpose_represents G _ Hrep) as (Gt & Ht & Hwt & Hht & Hrt).
  destruct (rotate_represents G _ Hrep) as (Gr & Hr & Hwr & Hhr & Hrr).
  destruct (transform_represents G _ func Hrep)
    as (G' & HG' & Hw' & Hh' & _ & Hr').
  destruct (transpose_represents G' _ Hr') as (Gt' & Ht' & Hwt' & Hht' & Hrt').
  destruct (rotate_represents G' _ Hr') as (Gr' & Hr'' & Hwr' & Hhr' & Hrr').
  destruct (transform_represents Gt _ func Hrt)
    as (Gt2 & HGt2 & Hwt2 & Hht2 & Hft2 & Hrt2).
  destruct (transform_represents Gr _ func Hrr)
    as (Gr2 & HGr2 & Hwr2 & Hhr2 & Hfr2 & Hrr2).
  assert (Hflag : forall (V : Type) (A B : Grid V),
            transpose A = Ok B \/ rotate A = Ok B -> allow_overflow B = false).
  { intros V A B [HB|HB]; unfold transpose, rotate in HB;
      destruct (iter_cols A); simpl in HB; try discriminate;
      apply Grid_init_inv in HB as (_ & _ & HB); exact HB. }
  exists Gt, Gr. split; [exact Ht|]. split; [exact Hr|].
  split; [apply (Hflag _ G); auto|]. split; [apply (Hflag _ G); auto|].
  rewrite HG'. cbn [result_bind]. rewrite Ht', Hr'', HGt2, HGr2.
  assert (Heq : forall A B : Grid U,
            w A = w B -> h A = h B -> allow_overflow A = allow_overflow B ->
            data A = data B -> A = B).
  { intros [] []. simpl. intros -> -> -> ->. reflexivity. }
  split; [|split; [|split; exact I]].
  - f_equal. apply Heq; [lia|lia| |].
    + rewrite Hft2, (Hflag _ G' Gt'), (Hflag _ G Gt); auto.
    + apply (represents_ext _ _ _ _ Hrt' Hrt2); [lia|lia|reflexivity].
  - f_equal. apply Heq; [lia|lia| |].
    + rewrite Hfr2, (Hflag _ G' Gr'), (Hflag _ G Gr); auto.
    + apply (represents_ext _ _ _ _ Hrr' Hrr2); [lia|lia|].
      intros x y _ _. rewrite Hh'. reflexivity.
Qed.

End TransformsComposed.

Lemma transform_commutes_witness :
  let G := mkGrid 3 2 [Some 1; Some 2; Some 3; Some 4; Some 5; Some 6] true in
  let double := fun c : cell Z => (fun n => 2 * n) <$> c in
  (do G' <- transform double G; rotate G')
  = Ok (mkGrid 2 3 [Some 8; Some 2; Some 10; Some 4; Some 12; Some 6] false).
Proof.
  intros G double.
  assert (Hinv : grid_inv G) by (unfold grid_inv; simpl; lia).
  destruct (transform_commutes G double Hinv)
    as (Gt & Gr & _ & Hr & _ & _ & _ & Hrot & _).
  rewrite Hrot. vm_compute in Hr. injection Hr as <-. reflexivity.
Defined.

Section HalfTurn.

Context {T : Type} `{EqDecision T}.

(** X22: Two rotations in a row turn the grid by a half turn: the shape comes
    back and the flat data are reversed, so that the cell read at
    [(x, y)] is the one the source holds at [(w - 1 - x, h - 1 - y)]. *)
Theorem rotate_twice_reverses (G : Grid T) :
  grid_inv G ->
  exists G1 G2,
    rotate G = Ok G1 /\ rotate G1 = Ok G2 /\
    w G2 = w G /\ h G2 = h G /\
    data G2 = reverse (data G) /\
    forall x y, inbounds G (x, y) = true ->
      at_ G2 (x, y) None = at_ G (w G - 1 - x, h G - 1 - y) None.
Proof.
  intros Hinv. pose proof (grid_inv_represents G Hinv) as Hrep.
  pose proof Hinv as (Hw & Hh & Htile).
  destruct (rotate_represents G _ Hrep) as (G1 & H1 & Hw1 & Hh1 & Hr1).
  destruct (rotate_represents G1 _ Hr1) as (G2 & H2 & Hw2 & Hh2 & Hr2).
  exists G1, G2. split; [exact H1|]. split; [exact H2|].
  split; [lia|]. split; [lia|].
  assert (Hat : forall x y, inbounds G (x, y) = true ->
            at_ G2 (x, y) None = at_ G (w G - 1 - x, h G - 1 - y) None).
  { intros x y Hin%inbounds_spec.
    rewrite (represents_at G2 _ x y None Hr2) by lia.
    rewrite (represents_at G _ (w G - 1 - x) (h G - 1 - y) None Hrep) by lia.
    rewrite Hh1. reflexivity. }
  split; [|exact Hat].
  set (Grev := mkGrid (w G) (h G) (reverse (data G)) false).
  assert (Hrev : represents Grev
            (fun x y => cell_at G (w G - 1 - x) (h G - 1 - y))).
  { split; [exact Hw|]. split; [exact Hh|]. simpl.
    split; [rewrite length_reverse; lia|].
    intros x y Hx Hy.
    pose proof (cell_index_bound _ _ _ _ Hx Hy) as Hi.
    rewrite reverse_lookup by lia.
    destruct Hrep as (_ & _ & _ & Hf).
    rewrite <- (Hf (w G - 1 - x) (h G - 1 - y)) by lia. f_equal. nia. }
  apply (represents_ext G2 Grev _ _ Hr2 Hrev); [simpl; lia|simpl; lia|].
  intros x y _ _. rewrite Hh1. reflexivity.
Qed.

End HalfTurn.

Lemma rotate_twice_reverses_witness :
  let G := mkGrid 3 2 [Some 1; Some 2; Some 3; Some 4; Some 5; Some 6] true in
  exists G1 G2,
    rotate G = Ok G1 /\ rotate G1 = Ok G2 /\
    data G2 = [Some 6; Some 5; Some 4; Some 3; Some 2; Some 1].
Proof.
  intros G.
  assert (Hinv : grid_inv G) by (unfold grid_inv; simpl; lia).
  destruct (rotate_twice_reverses G Hinv)
    as (G1 & G2 & H1 & H2 & _ & _ & Hdata & _).
  exists G1, G2. split; [exact H1|]. split; [exact H2|]. exact Hdata.
Defined.

(** ** walk_directions *)

Section WalkDirections.

Context {T : Type} `{EqDecision T}.
Implicit Types (G : Grid T) (p : Point) (ds : list Direction).

Lemma walk_directions_from_Ok G p ds (default : cell T) :
  grid_inv G ->
  exists vs,
    walk_directions_from G p ds default = Ok vs /\
    length vs = length ds /\
    forall (k : nat) v, vs !! k = Some v <->
      (k < length ds)%nat /\
      get G (foldl neighbor p (take (S k) ds)) default None = Ok v.
Proof.
  intros Hinv. revert p. induction ds as [|d ds IH]; intros p.
  - exists []. split; [reflexivity|]. split; [reflexivity|].
    intros k v. simpl. split; [discriminate|lia].
  - cbn [walk_directions_from].
    destruct (get_total (fun _ => []) G false (neighbor p d) default None Hinv)
      as [v0 Hv0].
    destruct (IH (neighbor p d)) as (vs & Hvs & Hlen & Hk).
    rewrite Hv0, Hvs. cbn [result_bind].
    exists (v0 :: vs). split; [reflexivity|]. split; [simpl; lia|].
    intros [|k] v.
    + simpl. rewrite Hv0. split.
      * intros [= ->]. split; [lia|reflexivity].
      * intros [_ [= ->]]. reflexivity.
    + cbn [lookup list_lookup]. change (vs !! k = Some v <->
        (S k < length (d :: ds))%nat /\
        get G (foldl neighbor (neighbor p d) (take (S k) ds)) default None
        = Ok v).
      rewrite Hk. simpl. split; intros [Hlt Hget]; (split; [lia|exact Hget]).
Qed.

(** X23: On a grid of the data model [walk_directions] never raises: it yields
    one value per direction, after the value at the start when that is
    asked for, and the value for the [k]-th direction is what [get] reads,
    with the given default, at the start moved along the first [k]
    directions. *)
Theorem walk_directions_spec G p ds (default : cell T)
    (include_start : bool) :
  grid_inv G ->
  let skip := if include_start then 1%nat else 0%nat in
  exists vs,
    walk_directions G p ds default include_start = Ok vs /\
    length vs = (skip + length ds)%nat /\
    (include_start = true ->
     exists v, head vs = Some v /\ get G p default None = Ok v) /\
    forall (k : nat) v, vs !! (skip + k)%nat = Some v <->
      (k < length ds)%nat /\
      get G (foldl neighbor p (take (S k) ds)) default None = Ok v.
Proof.
  intros Hinv skip.
  destruct (walk_directions_from_Ok G p ds default Hinv)
    as (vs & Hvs & Hlen & Hk).
  destruct (get_total (fun _ => []) G false p default None Hinv) as [v0 Hv0].
  unfold walk_directions. rewrite Hvs.
  destruct include_start; cbn [result_bind] in *.
  - rewrite Hv0. cbn [result_bind].
    exists (v0 :: vs). split; [reflexivity|]. split; [simpl; lia|].
    split; [intros _; exists v0; auto|].
    intros k v. exact (Hk k v).
  - exists vs. split; [reflexivity|]. split; [exact Hlen|].
    split; [discriminate|]. intros k v. exact (Hk k v).
Qed.

End WalkDirections.

Lemma walk_directions_spec_witness :
  let G := mkGrid 2 2 [Some 1; Some 2; Some 3; Some 4] false in
  walk_directions G (0, 0) [RIGHT; DOWN; DOWN] (Some 0) true
  = Ok [Some 1; Some 2; Some 4; Some 0] /\
  exists vs,
    walk_directions G (0, 0) [RIGHT; DOWN; DOWN] (Some 0) true = Ok vs /\
    length vs = 4%nat.
Proof.
  intros G. split; [reflexivity|].
  assert (Hinv : grid_inv G) by (unfold grid_inv; simpl; lia).
  destruct (walk_directions_spec G (0, 0) [RIGHT; DOWN; DOWN] (Some 0) true
              Hinv) as (vs & Hvs & Hlen & _).
  exists vs. split; [exact Hvs|exact Hlen].
Defined.
